(** * A shallow embedding of the diagram mutation engine of drawio-mcp

    The development follows [src/Graph.ts]: the style codec
    ([parseStyle], [stringifyStyle], [toStyleString]), the kind catalog
    ([Kinds], [adjustStyleByKind]), the edge identity resolver inside
    [linkNodes], the layout runner ([applyLayout]) and the four mutation
    operations of the [Graph] class.  The callers of [editNode] and
    [linkNodes], the tools [EditNodeTool] and [LinkNodesTool], follow
    [src/mcp/EditNodeTool.ts] and its sibling.

    Conventions of the embedding.
    - A JavaScript string is the sequence of its code units; a Rocq
      [string] holds code units below 256.  Comparison of strings is
      comparison of code units, as the [<] of JavaScript.
    - A JavaScript number is an integer of the safe range (at most
      [MAX_SAFE_INTEGER] in absolute value), which a double holds exactly
      and [String] prints in decimal, or [NaN]; fractional numbers are
      outside the model.  A statement that rests on the decimal text of a
      number it computes says that the number is in the range.
    - A plain JavaScript object is the list of its own properties in
      insertion order, without repeated keys.  (An engine lists keys that
      are array indices first; no style key of a diagram is one.)
    - The cells of the mxGraph model are a finite map from identifiers to
      cells; a reference to a cell is its identifier.  The library keeps
      the cells in a plain object, where the lookup of a name of a member
      of [Object.prototype] ([constructor], [toString], ...) finds the
      inherited member and the map finds nothing: identifiers are strings
      that are no such name, and a statement about an identifier that
      names no cell says so ([prototype_member]).  Such a name is
      modelled where it is a kind ([Graph.Kinds[name]] is the inherited
      member, without [style], [width] or [height]) and where it is the
      key [__proto__] of a style.
    - A vertex is inserted under a parent without geometry, as the layers
      of a diagram are.  Under a parent that has a geometry the library
      also enlarges the parent and moves the vertex into its area; a
      statement about the place of a new node, or about the cells it
      leaves alone, is made for a parent without geometry
      ([plain_parent]). *)

From Stdlib Require Import ZArith Ascii Lia.
From stdpp Require Import base strings pretty gmap list.

Local Open Scope Z_scope.

(** ** JavaScript values *)

Module Js.

(** Primitive values. *)
Inductive JsVal :=
| VUndef
| VNull
| VBool (b : bool)
| VNum (z : Z)
| VNaN
| VStr (s : string).

#[global] Instance JsVal_eq_dec : EqDecision JsVal.
Proof. solve_decision. Defined.

(** Plain objects whose property values are primitive. *)
Definition JsObj := list (string * JsVal).

(** A value of type [any] as the engine meets it: a primitive or a plain
    object. *)
Inductive JsAny :=
| Prim (v : JsVal)
| Obj (o : JsObj).

#[global] Instance JsAny_eq_dec : EqDecision JsAny.
Proof. solve_decision. Defined.

(** [ToBoolean]. *)
Definition truthy (v : JsVal) : bool :=
  match v with
  | VUndef | VNull | VNaN => false
  | VBool b => b
  | VNum z => negb (z =? 0)
  | VStr s => negb (String.eqb s "")
  end.

Definition truthy_any (a : JsAny) : bool :=
  match a with
  | Prim v => truthy v
  | Obj _ => true
  end.

(** [Number.MAX_SAFE_INTEGER]: up to it each integer is a number of its
    own, and [String] prints it digit by digit. *)
Definition MAX_SAFE_INTEGER : Z := 9007199254740991.

(** [String(v)], also what a template literal does to [v].  A number is
    printed in decimal, as an integer of the safe range is. *)
Definition ToString (v : JsVal) : string :=
  match v with
  | VUndef => "undefined"
  | VNull => "null"
  | VBool true => "true"
  | VBool false => "false"
  | VNum z => pretty z
  | VNaN => "NaN"
  | VStr s => s
  end.

Definition ToString_any (a : JsAny) : string :=
  match a with
  | Prim v => ToString v
  | Obj _ => "[object Object]"
  end.

(** [v === undefined]. *)
Definition is_undefined (v : JsVal) : bool :=
  match v with VUndef => true | _ => false end.

(** [v == null], the test behind [??]. *)
Definition nullish (v : JsVal) : bool :=
  match v with VUndef | VNull => true | _ => false end.

(** [a ?? b]. *)
Definition coalesce (a b : JsVal) : JsVal := if nullish a then b else a.

(** *** Own properties *)

(** The names of the members of [Object.prototype]: a lookup in a plain
    object finds them although the object does not have them. *)
Definition prototype_member (name : string) : bool :=
  bool_decide (name ∈ ["constructor"; "__defineGetter__"; "__defineSetter__";
                       "hasOwnProperty"; "__lookupGetter__"; "__lookupSetter__";
                       "isPrototypeOf"; "propertyIsEnumerable"; "toString";
                       "valueOf"; "__proto__"; "toLocaleString"]).

(** [o[k]] restricted to own properties: [None] when [k] is absent. *)
Fixpoint obj_get (k : string) (o : JsObj) : option JsVal :=
  match o with
  | [] => None
  | (k', v) :: o' => if String.eqb k k' then Some v else obj_get k o'
  end.

(** Defining the own property [k]: an existing key keeps its place, a new
    key goes last. *)
Fixpoint obj_set (k : string) (v : JsVal) (o : JsObj) : JsObj :=
  match o with
  | [] => [(k, v)]
  | (k', v') :: o' =>
      if String.eqb k k' then (k, v) :: o' else (k', v') :: obj_set k v o'
  end.

(** [delete o[k]]. *)
Fixpoint obj_delete (k : string) (o : JsObj) : JsObj :=
  match o with
  | [] => []
  | (k', v') :: o' =>
      if String.eqb k k' then obj_delete k o' else (k', v') :: obj_delete k o'
  end.

(** [{ ...a, ...b }]. *)
Definition spread (a b : JsObj) : JsObj :=
  fold_left (fun acc kv => obj_set kv.1 kv.2 acc) b a.

(** [o[k]] as an expression: [undefined] for a missing property. *)
Definition obj_read (k : string) (o : JsObj) : JsVal :=
  default VUndef (obj_get k o).

(** [acc[k] = v] on an object literal when [v] is a string: the key
    [__proto__] reaches the inherited setter, which ignores a value that is
    not an object, so that no own property is made. *)
Definition assign_string (k v : string) (acc : JsObj) : JsObj :=
  if String.eqb k "__proto__" then acc else obj_set k (VStr v) acc.

(** *** Strings *)

(** [s.split(sep)] for a separator of one code unit. *)
Fixpoint split (sep : ascii) (s : string) : list string :=
  match s with
  | EmptyString => [EmptyString]
  | String c s' =>
      if Ascii.eqb c sep then EmptyString :: split sep s'
      else match split sep s' with
           | [] => [String c EmptyString]
           | h :: t => String c h :: t
           end
  end.

(** [l.filter(Boolean)] on an array of strings. *)
Definition filter_Boolean (l : list string) : list string :=
  List.filter (fun s => negb (String.eqb s "")) l.

(** The comparison [a < b] of two strings. *)
Definition str_lt (a b : string) : bool := String.ltb a b.

(** [l.sort()] without a comparator, on strings: a stable sort by [<].
    Insertion from the right keeps equal elements in their order. *)
Fixpoint sort_insert (x : string) (l : list string) : list string :=
  match l with
  | [] => [x]
  | y :: l' => if str_lt y x then y :: sort_insert x l' else x :: l
  end.

Definition sort (l : list string) : list string :=
  foldr sort_insert [] l.

(** *** parseInt *)

Definition is_white (c : ascii) : bool :=
  match N_of_ascii c with
  | 9%N | 10%N | 11%N | 12%N | 13%N | 32%N | 160%N => true
  | _ => false
  end.

Fixpoint trim_start (s : string) : string :=
  match s with
  | String c s' => if is_white c then trim_start s' else s
  | EmptyString => EmptyString
  end.

Definition digit_of (c : ascii) : option Z :=
  let n := N_of_ascii c in
  if ((48 <=? n) && (n <=? 57))%N then Some (Z.of_N n - 48) else None.

(** The value of the longest prefix of decimal digits, [None] when the
    prefix is empty. *)
Fixpoint scan_digits (acc : option Z) (s : string) : option Z :=
  match s with
  | String c s' =>
      match digit_of c with
      | Some d => scan_digits (Some (10 * default 0 acc + d)) s'
      | None => acc
      end
  | EmptyString => acc
  end.

(** [parseInt(s, 10)]; [None] is [NaN]. *)
Definition parseInt (s : string) : option Z :=
  match trim_start s with
  | String "-" s' => Z.opp <$> scan_digits None s'
  | String "+" s' => scan_digits None s'
  | s' => scan_digits None s'
  end.

End Js.
Export Js.

(** ** Style codec *)

Module StyleCodec.

(** The body shared by [stringifyStyle] and [toStyleString]: one reduction
    step over [Object.entries]. *)
Definition emit (tmp : string) (kv : string * JsVal) : string :=
  match kv.2 with
  | VUndef => tmp
  | v => tmp +:+ kv.1 +:+ (if truthy v then "=" +:+ ToString v else "") +:+ ";"
  end.

(** [stringifyStyle(style)]. *)
Definition stringifyStyle (style : JsObj) : string :=
  fold_left emit style "".

(** [toStyleString(data)]: a string is returned as it is, an object is
    reduced over its entries.  (A number or a boolean has no entries;
    [undefined] and [null], on which [Object.entries] raises, do not reach
    it: its caller passes the object built by
    [computeEffectiveLineStyle].) *)
Definition toStyleString (data : JsAny) : string :=
  match data with
  | Prim (VStr s) => s
  | Prim _ => ""
  | Obj o => fold_left emit o ""
  end.

(** One reduction step of [parseStyle]: [const [k, v] = kv.split('=')]
    keeps the first two pieces of the segment. *)
Definition parse_segment (acc : JsObj) (kv : string) : JsObj :=
  match split "=" kv with
  | k :: v :: _ => assign_string k v acc
  | [k] => assign_string k "" acc
  | [] => acc
  end.

(** [parseStyle(style)]: a string is split, anything else is spread into a
    fresh object (a primitive other than a string has no own property). *)
Definition parseStyle (style : JsAny) : JsObj :=
  match style with
  | Prim (VStr s) => fold_left parse_segment (filter_Boolean (split ";" s)) []
  | Prim _ => []
  | Obj o => spread [] o
  end.

(** [mergeStyleOverrides(styleStr, overrides)]. *)
Definition mergeStyleOverrides (styleStr : JsAny) (overrides : JsObj) : JsAny :=
  let defined := List.filter (fun kv => negb (is_undefined kv.2)) overrides in
  match defined with
  | [] => styleStr
  | _ =>
      let styleObj :=
        fold_left (fun o kv => obj_set kv.1 (VStr (ToString kv.2)) o)
                  defined (parseStyle styleStr) in
      Prim (VStr (stringifyStyle styleObj))
  end.

Definition STYLE_OVERRIDE_KEYS : list string :=
  ["fillColor"; "strokeColor"; "fontColor"; "strokeWidth"; "fontSize";
   "fontStyle"; "fontFamily"; "opacity"].

(** [Graph.pickStyleOverrides(params)]. *)
Definition pickStyleOverrides (params : JsObj) : JsObj :=
  fold_left
    (fun result key =>
       if is_undefined (obj_read key params) then result
       else obj_set key (obj_read key params) result)
    STYLE_OVERRIDE_KEYS [].

End StyleCodec.
Export StyleCodec.

(** ** Kind catalog *)

Module KindCatalog.

Definition DEFAULT_CORNER_RADIUS : Z := 12.
Definition KIND_ROUNDED_RECTANGLE : string := "RoundedRectangle".
Definition PROP_ARC_SIZE : string := "arcSize".
Definition PROP_ABSOLUTE_ARC_SIZE : string := "absoluteArcSize".

(** An entry of the catalog. *)
Module Kind.
Record t := mk { style : JsAny; width : Z; height : Z }.
End Kind.

(** [Graph.Kinds]: two templates are objects, the others are strings. *)
Definition Kinds : list (string * Kind.t) :=
  [ ("Rectangle",
     Kind.mk (Obj [("rounded", VNum 1); ("whiteSpace", VStr "wrap"); ("html", VNum 1)])
            120 60);
    ("Ellipse",
     Kind.mk (Obj [("ellipse", VStr ""); ("whiteSpace", VStr "wrap"); ("html", VNum 1)])
            120 80);
    ("Cylinder",
     Kind.mk (Prim (VStr "shape=cylinder3;whiteSpace=wrap;html=1;boundedLbl=1;backgroundOutline=1;size=15;"))
            60 80);
    ("Cloud",
     Kind.mk (Prim (VStr "ellipse;shape=cloud;whiteSpace=wrap;html=1;")) 120 80);
    ("Square",
     Kind.mk (Prim (VStr "whiteSpace=wrap;html=1;aspect=fixed;rounded=1;")) 80 80);
    ("Circle",
     Kind.mk (Prim (VStr "ellipse;whiteSpace=wrap;html=1;aspect=fixed;")) 80 80);
    ("Step",
     Kind.mk (Prim (VStr "shape=step;perimeter=stepPerimeter;whiteSpace=wrap;html=1;fixedSize=1;"))
            120 80);
    ("Actor",
     Kind.mk (Prim (VStr "shape=umlActor;verticalLabelPosition=bottom;verticalAlign=top;html=1;outlineConnect=0;"))
            30 60);
    ("Text",
     Kind.mk (Prim (VStr "text;html=1;strokeColor=none;fillColor=none;align=center;verticalAlign=middle;whiteSpace=wrap;rounded=0;"))
            60 30);
    ("RoundedRectangle",
     Kind.mk (Prim (VStr ("whiteSpace=wrap;html=1;rounded=1;absoluteArcSize=1;arcSize="
                         +:+ ToString (VNum (DEFAULT_CORNER_RADIUS * 2)))))
            120 60) ].

(** [Graph.Kinds[name]] as an own property: [None] for a name that the
    catalog does not declare, where [Graph.Kinds[name]] is [undefined], or
    the inherited member when the name is one of [Object.prototype]. *)
Fixpoint lookup_kind (name : string) (l : list (string * Kind.t)) : option Kind.t :=
  match l with
  | [] => None
  | (n, k) :: l' => if String.eqb name n then Some k else lookup_kind name l'
  end.

(** [Graph.normalizeKind(kind)]. *)
Definition normalizeKind (kind : string) : string :=
  if String.eqb kind "Elipse" then "Ellipse" else kind.

(** The arc size computed from [cr = parseInt(String(corner_radius), 10)]:
    [!isNaN(cr) && cr >= 1 ? cr * 2 : DEFAULT_CORNER_RADIUS * 2]. *)
Definition arcSize_of (cr : option Z) : Z :=
  match cr with
  | Some c => if 1 <=? c then c * 2 else DEFAULT_CORNER_RADIUS * 2
  | None => DEFAULT_CORNER_RADIUS * 2
  end.

(** [adjustStyleByKind(style, kind, corner_radius)]. *)
Definition adjustStyleByKind (style : JsAny) (kind : string) (corner_radius : JsVal)
  : JsAny :=
  if String.eqb kind KIND_ROUNDED_RECTANGLE then
    let styleObj := parseStyle style in
    let styleObj :=
      if is_undefined corner_radius then styleObj
      else
        let cr := parseInt (ToString corner_radius) in
        let styleObj := obj_set PROP_ABSOLUTE_ARC_SIZE (VStr "1") styleObj in
        let arcSize := arcSize_of cr in
        obj_set PROP_ARC_SIZE (VStr (ToString (VNum arcSize))) styleObj in
    Prim (VStr (stringifyStyle styleObj))
  else style.

End KindCatalog.
Export KindCatalog.

(** ** Errors *)

Inductive JsError :=
| Error (message : string)
| TypeError.

Inductive result (A : Type) :=
| Ok (a : A)
| Throw (e : JsError).
Arguments Ok {A} a.
Arguments Throw {A} e.

#[global] Instance result_bind : MBind result := fun A B k r =>
  match r with
  | Ok a => k a
  | Throw e => Throw e
  end.

(** ** The node and edge store

    The store is the model of the mxGraph library, which [Graph.ts] imports
    through [./mxgraph/index.js].  The operations below follow the
    library's [mxGraphModel.getCell], [mxGraph.insertVertex],
    [mxGraph.insertEdge], [mxGraph.removeCells] and the setters of
    [mxCell], as far as [Graph.ts] relies on them. *)

Module MxGraph.

(** [Waypoint], and [mxPoint] built from one. *)
Module Waypoint.
Record t := mk { x : Z; y : Z }.
End Waypoint.

(** [mxGeometry]: the rectangle, the [relative] flag and the routing points
    of an edge. *)
Record Geometry := mkGeo {
  geo_x : JsVal;
  geo_y : JsVal;
  geo_width : JsVal;
  geo_height : JsVal;
  geo_relative : bool;
  geo_points : option (list Waypoint.t)
}.

(** [mxCell].  [None] stands for [null] and [undefined]; terminals and the
    parent are held by identifier. *)
Record Cell := mkCell {
  cell_value : option string;
  cell_style : JsAny;
  cell_geometry : option Geometry;
  cell_vertex : bool;
  cell_edge : bool;
  cell_parent : option string;
  cell_source : option string;
  cell_target : option string
}.

(** [mxGraphModel] with the default parent of the graph: [cells] maps each
    identifier to its cell, [nextId] feeds [createId]. *)
Record Model := mkModel {
  cells : gmap string Cell;
  nextId : N;
  root : string
}.

(** [model.getCell(id)], for an identifier that is no name of a member of
    [Object.prototype]. *)
Definition getCell (g : Model) (id : string) : option Cell := cells g !! id.

(** A reference to the cell filed under [id], as [getCell] hands it out. *)
Definition getRef (g : Model) (id : string) : option string :=
  match getCell g id with
  | Some _ => Some id
  | None => None
  end.

(** [(v != null) ? v : 0], the constructor of [mxPoint] and
    [mxRectangle]. *)
Definition or_zero (v : JsVal) : JsVal := if nullish v then VNum 0 else v.

(** [new mxGeometry(x, y, width, height)]. *)
Definition mxGeometry (x y width height : JsVal) : Geometry :=
  mkGeo (or_zero x) (or_zero y) (or_zero width) (or_zero height) false None.

(** [createId] called until the identifier is unused, as [cellAdded] does
    on a collision.  At most [size cells + 1] numerals are tried, one of
    which is unused ([createId_fresh] below).  The library also moves
    [nextId] past an identifier that is numeric; which unused numeral a
    cell gets plays no part in what follows. *)
Fixpoint createId (fuel : nat) (cs : gmap string Cell) (n : N) : string * N :=
  match fuel with
  | O => (pretty n, (n + 1)%N)
  | S fuel' =>
      match cs !! pretty n with
      | None => (pretty n, (n + 1)%N)
      | Some _ => createId fuel' cs (n + 1)%N
      end
  end.

(** [model.add(parent, cell)] followed by [cellAdded(cell)]: the cell is
    filed under the requested identifier when that is unused, under a
    generated one otherwise.  The identifier it got is returned with the
    model. *)
Definition cellAdded (g : Model) (id : string) (c : Cell) : Model * string :=
  match cells g !! id with
  | None => (mkModel (<[id := c]> (cells g)) (nextId g) (root g), id)
  | Some _ =>
      let '(id', n') := createId (size (cells g)) (cells g) (nextId g) in
      (mkModel (<[id' := c]> (cells g)) n' (root g), id')
  end.

(** [graph.insertVertex(parent, id, value, x, y, width, height)]: a parent
    that is [null] or [undefined] is replaced by the default parent.  The
    parent has no geometry: the library then leaves the parent and the
    geometry of the vertex as they are. *)
Definition insertVertex (g : Model) (parent : option string) (id : string)
    (value : option string) (x y width height : JsVal) : Model * string :=
  cellAdded g id
    (mkCell value (Prim VUndef) (Some (mxGeometry x y width height))
            true false (Some (default (root g) parent)) None None).

(** [graph.insertEdge(parent, id, value, source, target)]: a new cell with
    a relative geometry.  The library connects a terminal under the test
    [source != null], respectively [target != null]; a terminal that is
    [null] or [undefined] is left unset and nothing is raised.  The edge
    is filed under [parent]; the library moves an edge between nodes that
    are nested in other nodes under their nearest common ancestor, which
    is [parent] for nodes of the default layer. *)
Definition insertEdge (g : Model) (parent : option string) (id : string)
    (value : option string) (source target : option string) : Model * string :=
  cellAdded g id
    (mkCell value (Prim VUndef)
            (Some (mkGeo (VNum 0) (VNum 0) (VNum 0) (VNum 0) true None))
            false true (Some (default (root g) parent)) source target).

(** [model.isAncestor(a, c)]: [a] is [c] or is met on the way from [c] up
    the parents.  A chain of parents is not longer than the store. *)
Fixpoint isAncestor (fuel : nat) (cs : gmap string Cell) (a c : string) : bool :=
  String.eqb a c ||
  match fuel with
  | O => false
  | S fuel' =>
      match cs !! c with
      | Some cell =>
          match cell_parent cell with
          | Some p => isAncestor fuel' cs a p
          | None => false
          end
      | None => false
      end
  end.

(** [c] is one of [tops] or a descendant of one. *)
Definition in_subtree (cs : gmap string Cell) (tops : list string) (c : string)
  : bool :=
  existsb (fun t => isAncestor (size cs) cs t c) tops.

Definition terminal_in (cs : gmap string Cell) (tops : list string)
    (terminal : option string) : bool :=
  match terminal with
  | Some t => in_subtree cs tops t
  | None => false
  end.

(** [graph.getAllEdges(cells)]: the edges that have a terminal among the
    given cells or their descendants. *)
Definition getAllEdges (cs : gmap string Cell) (tops : list string) : list string :=
  (map_to_list
     (filter (fun kv : string * Cell =>
                terminal_in cs tops (cell_source kv.2)
                || terminal_in cs tops (cell_target kv.2) = true) cs)).*1.

(** Modelled from the spec: [mxGraph.removeCells], which is not part of
    [src/].  The spec (4.5 and the design note on cascading deletion) has
    it remove each named cell and, by the default cascade of the model,
    every edge that touches a removed cell.  As in the library, a removed
    cell takes its descendants with it, and an edge that stays loses a
    terminal that is removed. *)
Definition removeCells (g : Model) (named : list (option string)) : Model :=
  let cs := cells g in
  let tops := omap id named in
  let all := tops ++ getAllEdges cs tops in
  let gone := in_subtree cs all in
  let disconnect (c : Cell) :=
    mkCell (cell_value c) (cell_style c) (cell_geometry c)
           (cell_vertex c) (cell_edge c) (cell_parent c)
           (if terminal_in cs all (cell_source c) then None else cell_source c)
           (if terminal_in cs all (cell_target c) then None else cell_target c) in
  mkModel
    (disconnect <$> filter (fun kv : string * Cell => gone kv.1 = false) cs)
    (nextId g) (root g).

(** [new mxGraph()]: the root cell ["0"] and the default layer ["1"]. *)
Definition empty : Model :=
  mkModel
    (<["1" := mkCell None (Prim VUndef) None false false (Some "0") None None]>
       (<["0" := mkCell None (Prim VUndef) None false false None None None]> ∅))
    2 "1".

(** The setters of [mxCell], applied to the cell filed under [id]. *)
Definition setValue (v : option string) (c : Cell) : Cell :=
  mkCell v (cell_style c) (cell_geometry c) (cell_vertex c) (cell_edge c)
         (cell_parent c) (cell_source c) (cell_target c).

Definition setStyle (s : JsAny) (c : Cell) : Cell :=
  mkCell (cell_value c) s (cell_geometry c) (cell_vertex c) (cell_edge c)
         (cell_parent c) (cell_source c) (cell_target c).

Definition setGeometry (geo : Geometry) (c : Cell) : Cell :=
  mkCell (cell_value c) (cell_style c) (Some geo) (cell_vertex c) (cell_edge c)
         (cell_parent c) (cell_source c) (cell_target c).

(** Replacing the cell filed under [id] by its mutated state. *)
Definition store (g : Model) (id : string) (c : Cell) : Model :=
  mkModel (<[id := c]> (cells g)) (nextId g) (root g).

End MxGraph.
Export MxGraph.

(** ** Edge styles *)

Module EdgeStyle.

(** [EdgeStyleName], the keys of [EDGE_STYLES]. *)
Inductive EdgeStyleName :=
| orthogonal
| elbow
| entity_relation
| segment
| straight.

(** [EDGE_STYLES[name]]. *)
Definition EDGE_STYLES (name : EdgeStyleName) : string :=
  match name with
  | orthogonal => "orthogonalEdgeStyle"
  | elbow => "elbowEdgeStyle"
  | entity_relation => "entityRelationEdgeStyle"
  | segment => "segmentEdgeStyle"
  | straight => "none"
  end.

(** [computeEffectiveLineStyle(style, undirected, edgeStyle)]. *)
Definition computeEffectiveLineStyle (style : JsObj) (undirected : option bool)
    (edgeStyle : option EdgeStyleName) : JsObj :=
  let base : JsObj :=
    [("edgeStyle", VStr "none"); ("noEdgeStyle", VNum 1);
     ("orthogonal", VNum 1); ("html", VNum 1)] in
  let base :=
    match edgeStyle with
    | Some name =>
        let mxEdgeStyle := EDGE_STYLES name in
        if String.eqb mxEdgeStyle "none" then
          obj_set "noEdgeStyle" (VNum 1) (obj_set "edgeStyle" (VStr "none") base)
        else
          obj_delete "noEdgeStyle" (obj_set "edgeStyle" (VStr mxEdgeStyle) base)
    | None => base
    end in
  let effective := spread base style in
  if default false undirected then
    obj_set "endArrow" (VStr "none")
      (obj_set "startArrow" (VStr "none")
         (obj_set "reverse" VUndef effective))
  else effective.

End EdgeStyle.
Export EdgeStyle.

(** ** The Graph class *)

Module AddNode.
(** The argument of [addNode]; [None] is a property left out, [rest] holds
    the remaining properties. *)
Record Params := mk {
  id : string;
  title : option string;
  parent : option string;
  kind : option string;
  x : option Z;
  y : option Z;
  corner_radius : JsVal;
  rest : JsObj
}.
End AddNode.

Module EditNode.
(** The argument of [editNode]. *)
Record Params := mk {
  id : string;
  title : option string;
  kind : option string;
  x : JsVal;
  y : JsVal;
  width : JsVal;
  height : JsVal;
  corner_radius : JsVal;
  rest : JsObj
}.
End EditNode.

Module LinkNodes.
(** [LinkNodesParams]. *)
Record Params := mk {
  from : string;
  to : string;
  title : option string;
  style : option JsObj;
  undirected : option bool;
  waypoints : option (list Waypoint.t);
  edgeStyle : option EdgeStyleName
}.
End LinkNodes.

Module Graph.

(** A property of [{ ...Graph.Kinds[kind], ...rest }]: the one of [rest]
    when [rest] has it, the one of the catalog entry otherwise. *)
Definition merged (field : string) (of_kind : Kind.t -> JsAny) (kind : string)
    (rest : JsObj) : JsAny :=
  match obj_get field rest with
  | Some v => Prim v
  | None =>
      match lookup_kind kind Kinds with
      | Some k => of_kind k
      | None => Prim VUndef
      end
  end.

(** A geometry argument read out of a [JsAny]. *)
Definition as_prim (a : JsAny) : JsVal :=
  match a with
  | Prim v => v
  | Obj _ => VUndef
  end.

(** [addNode({ id, title, parent = 'root', kind = 'Rectangle', x = 10,
    y = 10, corner_radius, ...rest })]; the node it returns is the cell
    filed under the returned identifier. *)
Definition addNode (g : Model) (p : AddNode.Params) : Model * string :=
  let parent := default "root" (AddNode.parent p) in
  let kind := default "Rectangle" (AddNode.kind p) in
  let x := default 10 (AddNode.x p) in
  let y := default 10 (AddNode.y p) in
  let rest := AddNode.rest p in
  let normalizedKind := normalizeKind kind in
  let styleOverrides := pickStyleOverrides rest in
  let style := merged "style" Kind.style normalizedKind rest in
  let width :=
    as_prim (merged "width" (fun k => Prim (VNum (Kind.width k)))
                    normalizedKind rest) in
  let height :=
    as_prim (merged "height" (fun k => Prim (VNum (Kind.height k)))
                    normalizedKind rest) in
  let to := if String.eqb parent "root" then Some (root g) else getRef g parent in
  let '(g1, node) :=
    insertVertex g to (AddNode.id p) (AddNode.title p) (VNum x) (VNum y)
                 width height in
  let adjustedStyle :=
    adjustStyleByKind style normalizedKind (AddNode.corner_radius p) in
  match getCell g1 node with
  | Some c =>
      (store g1 node (setStyle (mergeStyleOverrides adjustedStyle styleOverrides) c),
       node)
  | None => (g1, node)
  end.

(** [node.getStyle && node.getStyle() ? String(node.getStyle()) : ''] *)
Definition currentStyleStr (c : Cell) : string :=
  if truthy_any (cell_style c) then ToString_any (cell_style c) else "".

(** A string that is neither [undefined] nor empty. *)
Definition truthy_str (s : option string) : bool :=
  match s with
  | Some s => negb (String.eqb s "")
  | None => false
  end.

(** [editNode({ id, title, kind, x, y, width, height, corner_radius,
    ...rest })].  [Graph.Kinds[normalizedKind].style] raises for a kind
    that the catalog does not have, and is [undefined] for one that names
    a member of [Object.prototype].  [x ?? geometry.x] reads the geometry
    where [x] is [null] or [undefined] only, so that a cell without
    geometry makes the call raise unless all four fields are given. *)
Definition editNode (g : Model) (p : EditNode.Params) : result Model :=
  match getCell g (EditNode.id p) with
  | None => Throw (Error "Node not found")
  | Some node =>
      let normalizedKind := normalizeKind <$> EditNode.kind p in
      let node :=
        if truthy_str (EditNode.title p)
        then setValue (EditNode.title p) node else node in
      node ←
        (if truthy_str (EditNode.kind p) then
           match lookup_kind (default "" normalizedKind) Kinds with
           | Some k => Ok (setStyle (Kind.style k) node)
           | None =>
               if prototype_member (default "" normalizedKind)
               then Ok (setStyle (Prim VUndef) node)
               else Throw TypeError
           end
         else Ok node);
      let isRounded :=
        bool_decide (normalizedKind = Some KIND_ROUNDED_RECTANGLE) in
      let node :=
        if isRounded && negb (is_undefined (EditNode.corner_radius p)) then
          setStyle
            (adjustStyleByKind (Prim (VStr (currentStyleStr node)))
                               KIND_ROUNDED_RECTANGLE (EditNode.corner_radius p))
            node
        else node in
      let styleOverrides := pickStyleOverrides (EditNode.rest p) in
      let node :=
        match styleOverrides with
        | [] => node
        | _ =>
            setStyle
              (mergeStyleOverrides (Prim (VStr (currentStyleStr node))) styleOverrides)
              node
        end in
      node ←
        (if negb (is_undefined (EditNode.x p)) || negb (is_undefined (EditNode.y p))
            || negb (is_undefined (EditNode.width p))
            || negb (is_undefined (EditNode.height p))
         then
           match cell_geometry node with
           | Some geometry =>
               Ok (setGeometry
                     (mxGeometry (coalesce (EditNode.x p) (geo_x geometry))
                                 (coalesce (EditNode.y p) (geo_y geometry))
                                 (coalesce (EditNode.width p) (geo_width geometry))
                                 (coalesce (EditNode.height p) (geo_height geometry)))
                     node)
           | None =>
               if nullish (EditNode.x p) || nullish (EditNode.y p)
                  || nullish (EditNode.width p) || nullish (EditNode.height p)
               then Throw TypeError
               else
                 Ok (setGeometry
                       (mxGeometry (EditNode.x p) (EditNode.y p)
                                   (EditNode.width p) (EditNode.height p))
                       node)
           end
         else Ok node);
      Ok (store g (EditNode.id p) node)
  end.

(** The three candidate identifiers of [linkNodes]. *)
Definition idDirect (from to : string) : string := from +:+ "-2-" +:+ to.
Definition idReverse (from to : string) : string := to +:+ "-2-" +:+ from.
Definition idCanonical (from to : string) : string :=
  match sort [from; to] with
  | a :: b :: _ => a +:+ "-2-" +:+ b
  | _ => ""
  end.

(** [getCell(idDirect) || getCell(idReverse) || getCell(idCanonical)]. *)
Definition existing (g : Model) (from to : string) : option string :=
  match getRef g (idDirect from to) with
  | Some l => Some l
  | None =>
      match getRef g (idReverse from to) with
      | Some l => Some l
      | None => getRef g (idCanonical from to)
      end
  end.

(** The tail of [linkNodes]: the style is set and the waypoints, when
    some are given, replace the routing points of the geometry. *)
Definition finishLink (effective : JsObj) (waypoints : option (list Waypoint.t))
    (link : Cell) : Cell :=
  let link := setStyle (Prim (VStr (toStyleString (Obj effective)))) link in
  match waypoints with
  | Some (w :: ws) =>
      match cell_geometry link with
      | Some geo =>
          setGeometry
            (mkGeo (geo_x geo) (geo_y geo) (geo_width geo) (geo_height geo)
                   (geo_relative geo) (Some (w :: ws)))
            link
      | None => link
      end
  | _ => link
  end.

(** [linkNodes({ from, to, title, style = {}, undirected, waypoints,
    edgeStyle })]; it returns [link.getId()]. *)
Definition linkNodes (g : Model) (p : LinkNodes.Params) : result (Model * string) :=
  let from := LinkNodes.from p in
  let to := LinkNodes.to p in
  let title := LinkNodes.title p in
  let style := default [] (LinkNodes.style p) in
  let undirected := LinkNodes.undirected p in
  let fromNode := getRef g from in
  let toNode := getRef g to in
  let effective :=
    computeEffectiveLineStyle style undirected (LinkNodes.edgeStyle p) in
  let '(g1, link) :=
    match existing g from to with
    | Some link =>
        match title, getCell g link with
        | Some t, Some c => (store g link (setValue (Some t) c), link)
        | _, _ => (g, link)
        end
    | None =>
        let idToUse :=
          if default false undirected then idCanonical from to
          else idDirect from to in
        insertEdge g (Some (root g)) idToUse
                   (if truthy_str title then title else None) fromNode toNode
    end in
  match getCell g1 link with
  | Some c => Ok (store g1 link (finishLink effective (LinkNodes.waypoints p) c), link)
  | None => Ok (g1, link)
  end.

(** [removeNodes(ids)]. *)
Definition removeNodes (g : Model) (ids : list string) : Model :=
  removeCells g (List.map (getRef g) ids).

End Graph.
Export Graph.

(** ** Layout runner *)

Module Layout.

Definition LAYOUT_HIERARCHICAL : string := "hierarchical".
Definition LAYOUT_CIRCLE : string := "circle".
Definition LAYOUT_ORGANIC : string := "organic".
Definition LAYOUT_COMPACT_TREE : string := "compact-tree".
Definition LAYOUT_RADIAL_TREE : string := "radial-tree".
Definition LAYOUT_PARTITION : string := "partition".
Definition LAYOUT_STACK : string := "stack".

Definition DIRECTION_TOP_DOWN : string := "top-down".
Definition DIRECTION_LEFT_RIGHT : string := "left-right".

Inductive mxDirection :=
| DIRECTION_NORTH
| DIRECTION_WEST.

(** [DIR_TO_MX_DIRECTION[direction]]; [None] is [undefined]. *)
Definition DIR_TO_MX_DIRECTION (direction : JsVal) : option mxDirection :=
  match direction with
  | VStr s =>
      if String.eqb s DIRECTION_TOP_DOWN then Some DIRECTION_NORTH
      else if String.eqb s DIRECTION_LEFT_RIGHT then Some DIRECTION_WEST
      else None
  | _ => None
  end.

(** The layout objects that [applyLayout] constructs. *)
Inductive LayoutInstance :=
| mxHierarchicalLayout (orientation : option mxDirection)
| mxCircleLayout
| mxFastOrganicLayout
| mxCompactTreeLayout
| mxRadialTreeLayout
| mxPartitionLayout
| mxStackLayout.

(** The [options] of [applyLayout]. *)
Record Options := mkOptions { direction : JsVal }.

(** [v !== s] for a string constant [s]. *)
Definition differs (v : JsVal) (s : string) : bool :=
  match v with
  | VStr s' => negb (String.eqb s' s)
  | _ => true
  end.

(** [l.join(sep)]. *)
Fixpoint join (sep : string) (l : list string) : string :=
  match l with
  | [] => ""
  | [a] => a
  | a :: l' => a +:+ sep +:+ join sep l'
  end.

Definition supportedAlgorithms : list string :=
  [LAYOUT_HIERARCHICAL; LAYOUT_CIRCLE; LAYOUT_ORGANIC; LAYOUT_COMPACT_TREE;
   LAYOUT_RADIAL_TREE; LAYOUT_PARTITION; LAYOUT_STACK].

Section Runner.

(** The layout algorithms of the library are taken as they are:
    [execute layout g] is what [layout.execute(this.root, ...)] leaves of
    the model, or the error it raises. *)
Variable execute : LayoutInstance -> Model -> result Model.

(** [runLayout(layout, ...args)]. *)
Definition runLayout (layout : LayoutInstance) (g : Model) : result Model :=
  execute layout g.

(** [applyLayout({ algorithm, options = {} })]. *)
Definition applyLayout (g : Model) (algorithm : string) (options : Options)
  : result Model :=
  if String.eqb algorithm LAYOUT_HIERARCHICAL then
    if negb (is_undefined (direction options))
       && differs (direction options) DIRECTION_TOP_DOWN
       && differs (direction options) DIRECTION_LEFT_RIGHT
    then
      Throw (Error ("Invalid hierarchical direction: "
                    +:+ ToString (direction options)
                    +:+ ". Allowed: " +:+ DIRECTION_TOP_DOWN +:+ ", "
                    +:+ DIRECTION_LEFT_RIGHT))
    else
      runLayout (mxHierarchicalLayout (DIR_TO_MX_DIRECTION (direction options))) g
  else if String.eqb algorithm LAYOUT_CIRCLE then runLayout mxCircleLayout g
  else if String.eqb algorithm LAYOUT_ORGANIC then runLayout mxFastOrganicLayout g
  else if String.eqb algorithm LAYOUT_COMPACT_TREE then runLayout mxCompactTreeLayout g
  else if String.eqb algorithm LAYOUT_RADIAL_TREE then runLayout mxRadialTreeLayout g
  else if String.eqb algorithm LAYOUT_PARTITION then runLayout mxPartitionLayout g
  else if String.eqb algorithm LAYOUT_STACK then runLayout mxStackLayout g
  else
    Throw (Error ("Unsupported layout algorithm: " +:+ algorithm
                  +:+ ". Supported: " +:+ join ", " supportedAlgorithms)).

End Runner.

End Layout.
Export Layout.

(** * Vocabulary of the statements *)

(** ** Styles *)

Fixpoint has_char (c : ascii) (s : string) : bool :=
  match s with
  | EmptyString => false
  | String c' s' => Ascii.eqb c' c || has_char c s'
  end.

(** Neither [;] nor [=] occurs in [s]. *)
Definition delimiter_free (s : string) : bool :=
  negb (has_char ";" s) && negb (has_char "=" s).

Definition keys (o : JsObj) : list string := o.*1.

(** Equality of two mappings as sets of key/value pairs. *)
Definition same_pairs (a b : JsObj) : Prop := forall k, obj_get k a = obj_get k b.

(** A style mapping as the spec words it: string keys, no two alike, each
    with a defined value. *)
Definition valid_style_mapping (m : JsObj) : Prop :=
  NoDup (keys m) /\ Forall (fun kv => kv.2 <> VUndef) m.

Definition roundtrips (m : JsObj) : Prop :=
  same_pairs (parseStyle (Prim (VStr (stringifyStyle m)))) m.

(** An entry the delimited text can carry: key and value are free of the
    two delimiters, the value is a string, the entry is not empty, and the
    key is not the one name an object literal does not store. *)
Definition codec_safe (kv : string * JsVal) : Prop :=
  delimiter_free kv.1 = true /\ kv.1 <> "__proto__" /\
  exists s, kv.2 = VStr s /\ delimiter_free s = true /\ (kv.1 = "" -> s <> "").

(** The text one entry contributes to [stringifyStyle], without the
    closing [;]. *)
Definition segment_of (k s : string) : string :=
  k +:+ (if negb (String.eqb s "") then String "=" s else "").

(** The attribute [key] of the style of a cell, read by [parseStyle]. *)
Definition style_attr (key : string) (c : Cell) : option JsVal :=
  obj_get key (parseStyle (cell_style c)).

(** ** Nodes *)

(** The cell an operation returned a reference to. *)
Definition node_of (r : Model * string) : option Cell := getCell r.1 r.2.

(** The node [addNode] makes. *)
Definition addedNode (g : Model) (p : AddNode.Params) : Cell :=
  let kind := normalizeKind (default "Rectangle" (AddNode.kind p)) in
  let rest := AddNode.rest p in
  mkCell (AddNode.title p)
    (mergeStyleOverrides
       (adjustStyleByKind (merged "style" Kind.style kind rest) kind
                          (AddNode.corner_radius p))
       (pickStyleOverrides rest))
    (Some (mxGeometry
             (VNum (default 10 (AddNode.x p))) (VNum (default 10 (AddNode.y p)))
             (as_prim (merged "width" (fun k => Prim (VNum (Kind.width k)))
                              kind rest))
             (as_prim (merged "height" (fun k => Prim (VNum (Kind.height k)))
                              kind rest))))
    true false
    (Some (default (root g)
             (if String.eqb (default "root" (AddNode.parent p)) "root"
              then Some (root g)
              else getRef g (default "root" (AddNode.parent p)))))
    None None.

(** The remaining properties of an [addNode] argument carry no raw
    [style], and the style overrides among them hold no delimiter. *)
Definition plain_rest (rest : JsObj) : Prop :=
  obj_get "style" rest = None
  /\ Forall (fun kv => delimiter_free (ToString kv.2) = true)
            (pickStyleOverrides rest).

(** The style object of a rounded rectangle with arc size [a]. *)
Definition roundedStyle (a : Z) : JsObj :=
  [("whiteSpace", VStr "wrap"); ("html", VStr "1"); ("rounded", VStr "1");
   ("absoluteArcSize", VStr "1"); ("arcSize", VStr (pretty a))].

Definition roundedTemplate : JsAny :=
  merged "style" Kind.style KIND_ROUNDED_RECTANGLE [].

(** One step of the loop of [mergeStyleOverrides]. *)
Definition override (o : JsObj) (kv : string * JsVal) : JsObj :=
  obj_set kv.1 (VStr (ToString kv.2)) o.

(** A corner radius that does not parse to an integer of at least 1. *)
Definition invalid_radius (v : JsVal) : Prop :=
  match parseInt (ToString v) with
  | Some z => z < 1
  | None => True
  end.

(** The node that [addNode] makes reads [value] under the attribute [key]
    of its style. *)
Definition node_attr (g : Model) (p : AddNode.Params) (key value : string) : Prop :=
  exists c, node_of (addNode g p) = Some c /\ style_attr key c = Some (VStr value).

(** No override holds a [;] in its text. *)
Definition semicolon_free (overrides : JsObj) : Prop :=
  Forall (fun kv => has_char ";" (ToString kv.2) = false) overrides.

(** The cell filed under [id], if there is one, has no geometry. *)
Definition no_geometry (g : Model) (id : string) : Prop :=
  getCell g id ≫= cell_geometry = None.

(** [addNode] places the node under a cell without geometry: under the
    default layer when [parent] is left out, is ["root"], or names neither
    a cell nor a member of [Object.prototype]; under the cell that
    [parent] names otherwise. *)
Definition plain_parent (g : Model) (p : AddNode.Params) : Prop :=
  match AddNode.parent p with
  | Some q =>
      if String.eqb q "root" then no_geometry g (root g)
      else match getCell g q with
           | Some c => cell_geometry c = None
           | None => prototype_member q = false /\ no_geometry g (root g)
           end
  | None => no_geometry g (root g)
  end.

(** ** Edges *)

(** The lexicographic order of two strings, code unit by code unit, as
    the spec words the canonical identifier. *)
Fixpoint lex_le (a b : string) : bool :=
  match a, b with
  | EmptyString, _ => true
  | String _ _, EmptyString => false
  | String x a', String y b' =>
      (N_of_ascii x <? N_of_ascii y)%N
      || ((N_of_ascii x =? N_of_ascii y)%N && lex_le a' b')
  end.

Definition lex_min (a b : string) : string := if lex_le a b then a else b.
Definition lex_max (a b : string) : string := if lex_le a b then b else a.

(** The canonical identifier of the spec: [min-2-max]. *)
Definition canonical_id (a b : string) : string :=
  lex_min a b +:+ "-2-" +:+ lex_max a b.

Definition candidates (a b : string) : list string :=
  [idDirect a b; idReverse a b; idCanonical a b].

(** The identifier [linkNodes] gives a new edge. *)
Definition idToUse (p : LinkNodes.Params) : string :=
  if default false (LinkNodes.undirected p)
  then idCanonical (LinkNodes.from p) (LinkNodes.to p)
  else idDirect (LinkNodes.from p) (LinkNodes.to p).

(** The state [linkNodes] leaves the edge in: [c] is the cell found, or
    [None] when the edge is new. *)
Definition linkedCell (g : Model) (p : LinkNodes.Params) (c : option Cell) : Cell :=
  finishLink
    (computeEffectiveLineStyle (default [] (LinkNodes.style p))
       (LinkNodes.undirected p) (LinkNodes.edgeStyle p))
    (LinkNodes.waypoints p)
    (match c with
     | Some c =>
         match LinkNodes.title p with
         | Some t => setValue (Some t) c
         | None => c
         end
     | None =>
         mkCell (if truthy_str (LinkNodes.title p) then LinkNodes.title p else None)
           (Prim VUndef)
           (Some (mkGeo (VNum 0) (VNum 0) (VNum 0) (VNum 0) true None))
           false true (Some (root g)) (getRef g (LinkNodes.from p))
           (getRef g (LinkNodes.to p))
     end).

(** The label of a cell as text: a cell without a value has the empty
    label. *)
Definition label (c : Cell) : string := default "" (cell_value c).

(** The last title that two calls of [linkNodes] supply. *)
Definition last_title (p1 p2 : LinkNodes.Params) : option string :=
  match LinkNodes.title p2 with
  | Some t => Some t
  | None => LinkNodes.title p1
  end.

(** [link(A,B)] followed by [link(B,A)] mutates one edge: both calls
    return, the second returns the identifier of the first and makes no
    cell, no other candidate identifier is in use, and the label of the
    edge is the last title supplied: a title given to the second call is
    its value, and where neither call gives a title the value is the one
    the edge had before, none for a new edge. *)
Definition relink_same_edge (g : Model) (p1 p2 : LinkNodes.Params) : Prop :=
  match linkNodes g p1 with
  | Ok (g1, id1) =>
      match linkNodes g1 p2 with
      | Ok (g2, id2) =>
          id2 = id1
          /\ dom (cells g2) = dom (cells g1)
          /\ (forall k, In k (candidates (LinkNodes.from p1) (LinkNodes.to p1)) ->
                        is_Some (getCell g2 k) -> k = id1)
          /\ (forall t, LinkNodes.title p2 = Some t ->
                        cell_value <$> getCell g2 id1 = Some (Some t))
          /\ (forall t, last_title p1 p2 = Some t ->
                        label <$> getCell g2 id1 = Some t)
          /\ (last_title p1 p2 = None ->
              cell_value <$> getCell g2 id1 = Some (getCell g id1 ≫= cell_value))
      | Throw _ => False
      end
  | Throw _ => False
  end.

(** The cell a first call settled on: one of the two orders, and the only
    one of them in the store. *)
Definition settled (g : Model) (a b l : string) : Prop :=
  (l = idDirect a b \/ l = idReverse a b) /\
  forall k, k = idDirect a b \/ k = idReverse a b ->
            is_Some (getCell g k) -> k = l.

(** [linkNodes] raises when an endpoint does not resolve. *)
Definition rejects_missing_endpoint (g : Model) (p : LinkNodes.Params) : Prop :=
  getCell g (LinkNodes.from p) = None \/ getCell g (LinkNodes.to p) = None ->
  exists e, linkNodes g p = Throw e.

(** ** Edits *)


(** The kind of an edit is left out, empty, or names a catalog entry. *)
Definition kind_known (kind : option string) : Prop :=
  match kind with
  | Some k => k = "" \/ is_Some (lookup_kind (normalizeKind k) Kinds)
  | None => True
  end.





(** ** Layout errors *)

(** [word] occurs in [message]. *)
Definition mentions (message word : string) : Prop :=
  exists pre post, message = pre +:+ word +:+ post.

Definition unsupported_message (algorithm : string) : string :=
  "Unsupported layout algorithm: " +:+ algorithm
  +:+ ". Supported: hierarchical, circle, organic, compact-tree, radial-tree, partition, stack".

Definition invalid_direction_message (direction : JsVal) : string :=
  "Invalid hierarchical direction: " +:+ ToString direction
  +:+ ". Allowed: top-down, left-right".

(** The layout object built for a supported algorithm other than the
    hierarchical one. *)
Definition plain_layout (algorithm : string) : option LayoutInstance :=
  if String.eqb algorithm LAYOUT_CIRCLE then Some mxCircleLayout
  else if String.eqb algorithm LAYOUT_ORGANIC then Some mxFastOrganicLayout
  else if String.eqb algorithm LAYOUT_COMPACT_TREE then Some mxCompactTreeLayout
  else if String.eqb algorithm LAYOUT_RADIAL_TREE then Some mxRadialTreeLayout
  else if String.eqb algorithm LAYOUT_PARTITION then Some mxPartitionLayout
  else if String.eqb algorithm LAYOUT_STACK then Some mxStackLayout
  else None.

(** ** Sample diagrams *)

Definition link (from to : string) (title : option string) : LinkNodes.Params :=
  LinkNodes.mk from to title None None None None.

Definition node (id kind : string) : AddNode.Params :=
  AddNode.mk id (Some id) None (Some kind) None None VUndef [].

Definition linked (g : Model) (p : LinkNodes.Params) : Model :=
  match linkNodes g p with
  | Ok (g', _) => g'
  | Throw _ => g
  end.

Definition added (g : Model) (p : AddNode.Params) : Model := (addNode g p).1.

(** Two nodes, no edge. *)
Definition svc_db : Model :=
  added (added empty (AddNode.mk "svc" (Some "Service") None (Some "Rectangle")
                                 (Some 100) (Some 150) VUndef []))
        (node "db" "Cylinder").

(** The same with the edge ["svc" -> "db"]. *)
Definition svc_db_linked : Model :=
  linked svc_db (link "svc" "db" (Some "queries")).

(** Six nodes whose identifiers contain the separator, and the edges
    ["a" -> "b-2-c"] and ["c-2-a" -> "b"]. *)
Definition crossed : Model :=
  let g := foldl (fun g id => added g (node id "Rectangle")) empty
             ["a"; "b"; "c"; "a-2-b"; "b-2-c"; "c-2-a"] in
  linked (linked g (link "a" "b-2-c" None)) (link "c-2-a" "b" None).

(** A cylinder with a fill colour. *)
Definition blueCylinder : Model :=
  added empty
    (AddNode.mk "svc" (Some "Service") None (Some "Cylinder") (Some 100) (Some 150)
                VUndef [("fillColor", VStr "#dae8fc")]).


(** A layout that leaves the model as it is. *)
Definition still (layout : LayoutInstance) (g : Model) : result Model := Ok g.

(** * The MCP tools

    [EditNodeTool] ([src/mcp/EditNodeTool.ts]) and [LinkNodesTool] call
    [editNode] and [linkNodes] once per element of their argument.  The
    fields of an element have the types the input schema of the tool
    declares.  The file manager is not part of the sources:
    [loadGraphFromSvg] is taken as it is, and a run that reaches
    [saveGraphToSvg] is recorded with the graph and the path it hands
    over. *)

Module Mcp.

Inductive ErrorCode :=
| InvalidParams.

(** What [execute] raises: an [McpError] of its own, or what the file
    manager or the graph raised. *)
Inductive ToolError :=
| McpError (code : ErrorCode) (message : string)
| Raised (e : JsError).

(** The end of a run of [execute]: [Saved graph file_path text] when it
    calls [saveGraphToSvg(graph, file_path)] and then answers [text],
    [Failed e] when it raises [e] before. *)
Inductive Outcome :=
| Saved (graph : Model) (file_path : string) (text : string)
| Failed (e : ToolError).

(** [!nodes || !nodes.length] for an array argument. *)
Definition no_elements {A : Type} (l : option (list A)) : bool :=
  match l with
  | Some (_ :: _) => false
  | _ => true
  end.

End Mcp.
Export Mcp.

Module EditNodeTool.

(** An element of [nodes]. *)
Record Node := mk {
  id : string;
  title : option string;
  kind : option string;
  x : JsVal;
  y : JsVal;
  width : JsVal;
  height : JsVal;
  corner_radius : option Z;
  fillColor : JsVal;
  strokeColor : JsVal;
  fontColor : JsVal;
  strokeWidth : JsVal;
  fontSize : JsVal;
  fontStyle : JsVal;
  fontFamily : JsVal;
  opacity : JsVal
}.

(** The object [execute] passes to [graph.editNode]: the kind is
    normalized when it is given, [corner_radius] is a property only when it
    is truthy, and the eight style keys are always properties, with the
    value [undefined] when the node leaves them out. *)
Definition editNodeParams (node : Node) : EditNode.Params :=
  EditNode.mk (id node) (title node)
    (if truthy_str (kind node) then normalizeKind <$> kind node else None)
    (x node) (y node) (width node) (height node)
    (match corner_radius node with
     | Some r => if truthy (VNum r) then VNum r else VUndef
     | None => VUndef
     end)
    [("fillColor", fillColor node); ("strokeColor", strokeColor node);
     ("fontColor", fontColor node); ("strokeWidth", strokeWidth node);
     ("fontSize", fontSize node); ("fontStyle", fontStyle node);
     ("fontFamily", fontFamily node); ("opacity", opacity node)].

(** The loop [for (const node of nodes) graph.editNode(...)]. *)
Fixpoint editNodes (graph : Model) (nodes : list Node) : result Model :=
  match nodes with
  | [] => Ok graph
  | node :: nodes' =>
      graph' ← editNode graph (editNodeParams node);
      editNodes graph' nodes'
  end.

Section Execute.

Variable loadGraphFromSvg : string -> result Model.

(** [execute({ file_path, nodes })]. *)
Definition execute (file_path : option string) (nodes : option (list Node))
  : Outcome :=
  if negb (truthy_str file_path) || no_elements nodes then
    Failed (McpError InvalidParams "file_path and nodes are required")
  else
    match loadGraphFromSvg (default "" file_path) with
    | Throw e => Failed (Raised e)
    | Ok graph =>
        match editNodes graph (default [] nodes) with
        | Throw e => Failed (Raised e)
        | Ok graph' =>
            Saved graph' (default "" file_path)
                  ("Nodes edited in " +:+ default "" file_path)
        end
    end.

End Execute.

End EditNodeTool.

Module LinkNodesTool.

(** An element of [edges]. *)
Record Edge := mk {
  from : string;
  to : string;
  title : option string;
  dashed : option bool;
  reverse : option bool;
  undirected : option bool;
  strokeColor : JsVal;
  fontColor : JsVal;
  strokeWidth : JsVal;
  fontSize : JsVal;
  fontStyle : JsVal;
  fontFamily : JsVal;
  opacity : JsVal
}.

(** [...(cond && { key: value })] inside an object literal. *)
Definition spread_when (cond : bool) (key : string) (value : JsVal) (o : JsObj)
  : JsObj :=
  if cond then spread o [(key, value)] else o.

(** The [style] object [execute] builds for an edge. *)
Definition styleOf (edge : Edge) : JsObj :=
  let o : JsObj := [] in
  let o := spread_when (default false (dashed edge)) "dashed" (VNum 1) o in
  let o := spread_when (default false (reverse edge)) "reverse" (VBool true) o in
  let o := spread_when (negb (is_undefined (strokeColor edge)))
                       "strokeColor" (strokeColor edge) o in
  let o := spread_when (negb (is_undefined (fontColor edge)))
                       "fontColor" (fontColor edge) o in
  let o := spread_when (negb (is_undefined (strokeWidth edge)))
                       "strokeWidth" (strokeWidth edge) o in
  let o := spread_when (negb (is_undefined (fontSize edge)))
                       "fontSize" (fontSize edge) o in
  let o := spread_when (negb (is_undefined (fontStyle edge)))
                       "fontStyle" (fontStyle edge) o in
  let o := spread_when (negb (is_undefined (fontFamily edge)))
                       "fontFamily" (fontFamily edge) o in
  spread_when (negb (is_undefined (opacity edge))) "opacity" (opacity edge) o.

(** The object [execute] passes to [graph.linkNodes]. *)
Definition linkNodesParams (edge : Edge) : LinkNodes.Params :=
  LinkNodes.mk (from edge) (to edge) (title edge) (Some (styleOf edge))
               (undirected edge) None None.

(** The loop [for (const edge of edges) graph.linkNodes(...)]. *)
Fixpoint linkEdges (graph : Model) (edges : list Edge) : result Model :=
  match edges with
  | [] => Ok graph
  | edge :: edges' =>
      r ← linkNodes graph (linkNodesParams edge);
      linkEdges r.1 edges'
  end.

Section Execute.

Variable loadGraphFromSvg : string -> result Model.

(** [execute({ file_path, edges })]. *)
Definition execute (file_path : option string) (edges : option (list Edge))
  : Outcome :=
  if negb (truthy_str file_path) || no_elements edges then
    Failed (McpError InvalidParams "file_path, from, and to are required")
  else
    match loadGraphFromSvg (default "" file_path) with
    | Throw e => Failed (Raised e)
    | Ok graph =>
        match linkEdges graph (default [] edges) with
        | Throw e => Failed (Raised e)
        | Ok graph' =>
            Saved graph' (default "" file_path)
                  ("Linked nodes in " +:+ default "" file_path)
        end
    end.

End Execute.

End LinkNodesTool.

(** * Vocabulary of the further statements *)

(** The text [stringifyStyle] writes for a value: its [String] when it is
    truthy, nothing otherwise. *)
Definition as_text (v : JsVal) : string :=
  if truthy v then ToString v else "".

(** What the delimited text keeps of a mapping: the entries that are not
    [undefined], each value as its text. *)
Definition flattened (m : JsObj) : JsObj :=
  (fun kv : string * JsVal => (kv.1, VStr (as_text kv.2)))
    <$> List.filter (fun kv => negb (is_undefined kv.2)) m.

(** An entry of any primitive value that the delimited text can carry:
    neither the key nor the text of the value holds a delimiter, the key is
    not [__proto__], and an empty key comes with a truthy value. *)
Definition text_safe (kv : string * JsVal) : Prop :=
  delimiter_free kv.1 = true /\ kv.1 <> "__proto__"
  /\ delimiter_free (ToString kv.2) = true
  /\ (kv.1 = "" -> truthy kv.2 = true).

#[global] Instance text_safe_dec (kv : string * JsVal) : Decision (text_safe kv).
Proof. unfold text_safe. apply _. Defined.

(** An entry as [parseStyle] makes them. *)
Definition parsed_entry (kv : string * JsVal) : Prop :=
  delimiter_free kv.1 = true /\ kv.1 <> "__proto__"
  /\ exists s, kv.2 = VStr s /\ delimiter_free s = true.

(** An entry that [stringifyStyle] writes as one segment of the text: as
    a parsed entry, but the value may hold [=]. *)
Definition writable (kv : string * JsVal) : Prop :=
  delimiter_free kv.1 = true /\ kv.1 <> "__proto__"
  /\ exists s, kv.2 = VStr s /\ has_char ";" s = false.

(** What [parseStyle] reads of a value that was written: the text before
    its first [=]. *)
Definition cut (s : string) : string := hd "" (split "=" s).

(** What [parseStyle] reads of the text of a mapping of writable entries:
    the entry with the empty key and the empty value is lost, and every
    value is cut. *)
Definition reread (o : JsObj) : JsObj :=
  (fun kv : string * JsVal => (kv.1, VStr (cut (ToString kv.2))))
    <$> List.filter
          (fun kv => negb (String.eqb kv.1 "" && String.eqb (ToString kv.2) "")) o.

(** The mapping the style text parses to does not give the empty key the
    empty value (a segment that starts with [=] and has nothing before the
    next [=] does, unless a later segment gives the empty key a value). *)
Definition no_blank_entry (s : string) : Prop :=
  obj_get "" (parseStyle (Prim (VStr s))) <> Some (VStr "").

(** The overrides as [mergeStyleOverrides] writes them. *)
Definition override_texts (ovs : JsObj) : JsObj :=
  (fun kv : string * JsVal => (kv.1, VStr (ToString kv.2))) <$> ovs.

(** The [base] object of [computeEffectiveLineStyle] after the routing
    option is applied. *)
Definition base_style (edgeStyle : option EdgeStyleName) : JsObj :=
  match edgeStyle with
  | None | Some straight =>
      [("edgeStyle", VStr "none"); ("noEdgeStyle", VNum 1);
       ("orthogonal", VNum 1); ("html", VNum 1)]
  | Some name =>
      [("edgeStyle", VStr (EDGE_STYLES name)); ("orthogonal", VNum 1);
       ("html", VNum 1)]
  end.

(** One of [x], [y], [width], [height] of an edit is given. *)
Definition moves (p : EditNode.Params) : bool :=
  negb (is_undefined (EditNode.x p)) || negb (is_undefined (EditNode.y p))
  || negb (is_undefined (EditNode.width p))
  || negb (is_undefined (EditNode.height p)).

(** The text [editNode] reads a style as:
    [node.getStyle() ? String(node.getStyle()) : ''] *)
Definition styleText (style : JsAny) : string :=
  if truthy_any style then ToString_any style else "".

(** [editNode] raises on the cell [c]: the kind is given, not empty, not
    in the catalog and no name of a member of [Object.prototype]; or the
    cell has no geometry and, of x, y, width and height, one is given and
    one is [null] or [undefined]. *)
Definition edit_raises (p : EditNode.Params) (c : Cell) : bool :=
  (truthy_str (EditNode.kind p)
   && match lookup_kind (default "" (normalizeKind <$> EditNode.kind p)) Kinds with
      | Some _ => false
      | None => negb (prototype_member (default "" (normalizeKind <$> EditNode.kind p)))
      end)
  || (moves p
      && match cell_geometry c with
         | Some _ => false
         | None =>
             nullish (EditNode.x p) || nullish (EditNode.y p)
             || nullish (EditNode.width p) || nullish (EditNode.height p)
         end).

(** The style [editNode] leaves, where it returns, on a cell whose style
    was [style]. *)
Definition editedStyle (p : EditNode.Params) (style : JsAny) : JsAny :=
  let kind := normalizeKind <$> EditNode.kind p in
  let style :=
    if truthy_str (EditNode.kind p) then
      match lookup_kind (default "" kind) Kinds with
      | Some k => Kind.style k
      | None => Prim VUndef
      end
    else style in
  let style :=
    if bool_decide (kind = Some KIND_ROUNDED_RECTANGLE)
       && negb (is_undefined (EditNode.corner_radius p))
    then adjustStyleByKind (Prim (VStr (styleText style))) KIND_ROUNDED_RECTANGLE
                           (EditNode.corner_radius p)
    else style in
  match pickStyleOverrides (EditNode.rest p) with
  | [] => style
  | ovs => mergeStyleOverrides (Prim (VStr (styleText style))) ovs
  end.

(** The cell [editNode] leaves, where it returns, in the place of [c]. *)
Definition editedCell (p : EditNode.Params) (c : Cell) : Cell :=
  mkCell
    (if truthy_str (EditNode.title p) then EditNode.title p else cell_value c)
    (editedStyle p (cell_style c))
    (if moves p then
       match cell_geometry c with
       | Some geometry =>
           Some (mxGeometry (coalesce (EditNode.x p) (geo_x geometry))
                            (coalesce (EditNode.y p) (geo_y geometry))
                            (coalesce (EditNode.width p) (geo_width geometry))
                            (coalesce (EditNode.height p) (geo_height geometry)))
       | None =>
           Some (mxGeometry (EditNode.x p) (EditNode.y p)
                            (EditNode.width p) (EditNode.height p))
       end
     else cell_geometry c)
    (cell_vertex c) (cell_edge c) (cell_parent c) (cell_source c) (cell_target c).

(** The same edit without its corner radius. *)
Definition without_radius (p : EditNode.Params) : EditNode.Params :=
  EditNode.mk (EditNode.id p) (EditNode.title p) (EditNode.kind p)
              (EditNode.x p) (EditNode.y p) (EditNode.width p) (EditNode.height p)
              VUndef (EditNode.rest p).

(** The geometry with its routing points replaced. *)
Definition with_points (geo : Geometry) (points : list Waypoint.t) : Geometry :=
  mkGeo (geo_x geo) (geo_y geo) (geo_width geo) (geo_height geo)
        (geo_relative geo) (Some points).

(** An edge with routing points, for the examples. *)
Definition svc_db_routed : Model :=
  linked svc_db
    (LinkNodes.mk "svc" "db" (Some "queries") None None
                  (Some [Waypoint.mk 200 80; Waypoint.mk 200 160]) None).

(** An element of [nodes] that gives a title and nothing else. *)
Definition relabel (id title : string) : EditNodeTool.Node :=
  EditNodeTool.mk id (Some title) None VUndef VUndef VUndef VUndef None
                  VUndef VUndef VUndef VUndef VUndef VUndef VUndef VUndef.

(** The same edge without its [reverse] flag. *)
Definition without_reverse (e : LinkNodesTool.Edge) : LinkNodesTool.Edge :=
  LinkNodesTool.mk (LinkNodesTool.from e) (LinkNodesTool.to e)
    (LinkNodesTool.title e) (LinkNodesTool.dashed e) None
    (LinkNodesTool.undirected e) (LinkNodesTool.strokeColor e)
    (LinkNodesTool.fontColor e) (LinkNodesTool.strokeWidth e)
    (LinkNodesTool.fontSize e) (LinkNodesTool.fontStyle e)
    (LinkNodesTool.fontFamily e) (LinkNodesTool.opacity e).

(** * Properties *)

(** A closed decidable proposition, settled by evaluation. *)
Ltac by_evaluation := apply (bool_decide_unpack _); by vm_compute.

(** ** Strings and the style codec *)

Lemma sapp_cons (c : ascii) (a b : string) : String c a +:+ b = String c (a +:+ b).
Proof. reflexivity. Qed.

Lemma sapp_nil_l (b : string) : "" +:+ b = b.
Proof. reflexivity. Qed.

Lemma sapp_assoc (a b c : string) : (a +:+ b) +:+ c = a +:+ (b +:+ c).
Proof.
  induction a as [|x a IH]; [done|]. by rewrite !sapp_cons, IH.
Qed.

Lemma sapp_nil_r (a : string) : a +:+ "" = a.
Proof. induction a as [|x a IH]; [done|]. by rewrite sapp_cons, IH. Qed.

Lemma split_cons_inv sep s : ∃ h t, split sep s = h :: t.
Proof.
  induction s as [|c s [h [t IH]]]; simpl; [by eauto|].
  destruct (Ascii.eqb c sep); [by eauto|]. rewrite IH. by eauto.
Qed.

Lemma split_app sep a b :
  has_char sep a = false → split sep (a +:+ String sep b) = a :: split sep b.
Proof.
  induction a as [|c a IH]; intros H.
  - change ("" +:+ String sep b) with (String sep b). simpl.
    by rewrite Ascii.eqb_refl.
  - simpl in H. apply orb_false_iff in H as [Hc Ha]. rewrite sapp_cons. simpl.
    by rewrite Hc, (IH Ha).
Qed.

Lemma split_none sep a : has_char sep a = false → split sep a = [a].
Proof.
  induction a as [|c a IH]; simpl; intros H; [done|].
  apply orb_false_iff in H as [Hc Ha]. by rewrite Hc, (IH Ha).
Qed.

Lemma has_char_app c a b : has_char c (a +:+ b) = has_char c a || has_char c b.
Proof.
  induction a as [|x a IH]; [done|]. rewrite sapp_cons. simpl.
  by rewrite IH, orb_assoc.
Qed.

Lemma emit_app tmp o : fold_left emit o tmp = tmp +:+ fold_left emit o "".
Proof.
  revert tmp. induction o as [|[k v] o IH]; intros tmp; simpl.
  - by rewrite sapp_nil_r.
  - rewrite IH, (IH (emit "" (k, v))). unfold emit; simpl.
    destruct v; simpl; rewrite ?sapp_assoc; done.
Qed.

Lemma stringify_cons k s o :
  stringifyStyle ((k, VStr s) :: o) = segment_of k s +:+ String ";" (stringifyStyle o).
Proof.
  unfold stringifyStyle. simpl. rewrite emit_app. unfold emit, segment_of. simpl.
  by rewrite !sapp_assoc.
Qed.

Lemma segment_no_semi k s :
  delimiter_free k = true → delimiter_free s = true → has_char ";" (segment_of k s) = false.
Proof.
  unfold delimiter_free, segment_of. intros [Hk _]%andb_true_iff [Hs _]%andb_true_iff.
  apply negb_true_iff in Hk, Hs. rewrite has_char_app, Hk. simpl.
  destruct (String.eqb s ""); simpl; [done|]. done.
Qed.

Lemma segment_nonempty k s : (k = "" → s ≠ "") → String.eqb (segment_of k s) "" = false.
Proof.
  intros H. unfold segment_of. destruct k as [|c k]; simpl; [|done].
  destruct s as [|c s]; [by destruct H|]. done.
Qed.

Lemma parse_segment_of acc k s :
  delimiter_free k = true → delimiter_free s = true →
  parse_segment acc (segment_of k s) = assign_string k s acc.
Proof.
  unfold delimiter_free, segment_of, parse_segment.
  intros [_ Hk]%andb_true_iff [_ Hs]%andb_true_iff.
  apply negb_true_iff in Hk, Hs.
  destruct (String.eqb_spec s "") as [->|Hne]; simpl.
  - by rewrite sapp_nil_r, split_none.
  - rewrite split_app by done. rewrite split_none by done. done.
Qed.

Lemma obj_get_set_eq k v o : obj_get k (obj_set k v o) = Some v.
Proof.
  induction o as [|[k' v'] o IH]; simpl.
  - by rewrite String.eqb_refl.
  - destruct (String.eqb_spec k k') as [->|Hne]; simpl.
    + by rewrite String.eqb_refl.
    + by destruct (String.eqb_spec k k').
Qed.

Lemma obj_get_set_ne k k' v o : k ≠ k' → obj_get k (obj_set k' v o) = obj_get k o.
Proof.
  intros Hne. induction o as [|[k2 v2] o IH]; simpl.
  - by destruct (String.eqb_spec k k').
  - destruct (String.eqb_spec k' k2) as [->|Hne2]; simpl.
    + by destruct (String.eqb_spec k k2).
    + by rewrite IH.
Qed.

Lemma obj_set_fresh k v o : k ∉ keys o → obj_set k v o = o ++ [(k, v)].
Proof.
  induction o as [|[k' v'] o IH]; simpl; intros Hk; [done|].
  apply not_elem_of_cons in Hk as [Hne Hk].
  destruct (String.eqb_spec k k'); [done|]. by rewrite IH.
Qed.

Lemma parse_stringify_from acc o :
  NoDup (keys (acc ++ o)) → Forall codec_safe o →
  fold_left parse_segment (filter_Boolean (split ";" (stringifyStyle o))) acc = acc ++ o.
Proof.
  revert acc. induction o as [|[k v] o IH]; intros acc Hnd Hsafe.
  - simpl. by rewrite app_nil_r.
  - apply Forall_cons in Hsafe as [(Hk & Hproto & s & Hv & Hs & Hne) Hsafe].
    simpl in *. subst v.
    rewrite stringify_cons, split_app by by apply segment_no_semi.
    unfold filter_Boolean. simpl. rewrite segment_nonempty by done. simpl.
    rewrite parse_segment_of by done. unfold assign_string.
    destruct (String.eqb_spec k "__proto__"); [done|].
    assert (k ∉ keys acc) as Hfresh.
    { unfold keys in *. rewrite fmap_app in Hnd. apply NoDup_app in Hnd as (_ & Hd & _).
      intros Hin. apply (Hd k Hin). simpl. left. }
    rewrite obj_set_fresh by done.
    fold (filter_Boolean (split ";" (stringifyStyle o))).
    rewrite IH; [by rewrite <- app_assoc| |done].
    by rewrite <- app_assoc.
Qed.

(** The text of a safe mapping parses back to the mapping, entry by entry
    and in the same order. *)
Lemma parse_stringify o :
  NoDup (keys o) → Forall codec_safe o →
  parseStyle (Prim (VStr (stringifyStyle o))) = o.
Proof. intros. by apply (parse_stringify_from []). Qed.

(** C2, as stated, fails: a value that holds a delimiter is cut at it. *)
Lemma roundtrip_counterexample :
  ¬ (valid_style_mapping [("fontFamily", VStr "Times;serif")] →
     roundtrips [("fontFamily", VStr "Times;serif")]).
Proof.
  intros H. assert (valid_style_mapping [("fontFamily", VStr "Times;serif")]) as Hv.
  { split; [by_evaluation|].
    by repeat constructor. }
  specialize (H Hv "fontFamily"). vm_compute in H. discriminate H.
Qed.

(** C2, amended: for every style mapping without repeated keys whose keys
    and values are strings free of [;] and [=] (no entry empty, no key
    [__proto__]), [parseStyle (stringifyStyle m)] and [m] hold the same
    key/value pairs. *)
Theorem style_roundtrip (m : JsObj) :
  NoDup (keys m) → Forall codec_safe m → roundtrips m.
Proof. intros Hnd Hsafe k. by rewrite parse_stringify. Qed.

Lemma style_roundtrip_witness :
  roundtrips [("ellipse", VStr ""); ("whiteSpace", VStr "wrap"); ("html", VStr "1")].
Proof.
  apply style_roundtrip.
  - by_evaluation.
  - repeat (apply Forall_cons; split;
              [split; [reflexivity|split; [discriminate|]];
               eexists; split; [reflexivity|split; [reflexivity|discriminate]]|]).
    by apply Forall_nil.
Defined.

Lemma keys_obj_set k v o :
  keys (obj_set k v o) = if decide (k ∈ keys o) then keys o else keys o ++ [k].
Proof.
  unfold keys. induction o as [|[k' v'] o IH]; [done|].
  cbn [obj_set]. destruct (String.eqb_spec k k') as [->|Hne]; rewrite !fmap_cons; cbn [fst].
  - rewrite decide_True; [done|]. left.
  - rewrite IH. destruct (decide (k ∈ o.*1)) as [Hin|Hin].
    + rewrite decide_True; [done|]. by right.
    + rewrite decide_False; [done|]. intros [?|?]%elem_of_cons; done.
Qed.

Lemma NoDup_obj_set k v o : NoDup (keys o) → NoDup (keys (obj_set k v o)).
Proof.
  intros Hnd. rewrite keys_obj_set. destruct (decide (k ∈ keys o)); [done|].
  apply NoDup_app. split; [done|]. split; [|apply NoDup_singleton].
  intros x Hx ->%list_elem_of_singleton. done.
Qed.

Lemma Forall_obj_set (P : string * JsVal → Prop) k v o :
  P (k, v) → Forall P o → Forall P (obj_set k v o).
Proof.
  intros Hkv. induction 1 as [|[k' v'] o Hx Ho IH]; simpl.
  - by constructor.
  - destruct (String.eqb k k'); by constructor.
Qed.

(** ** The style codec on arbitrary text *)

Lemma split_pieces sep s : Forall (fun x => has_char sep x = false) (split sep s).
Proof.
  induction s as [|c s IH]; simpl.
  - apply Forall_cons. split; [done|]. by apply Forall_nil.
  - destruct (Ascii.eqb c sep) eqn:Hc.
    + apply Forall_cons. by split.
    + destruct (split sep s) as [|h t]; apply Forall_cons.
      * split; [|by apply Forall_nil]. simpl. by rewrite Hc.
      * apply Forall_cons in IH as [Hh Ht]. split; [|done]. simpl. by rewrite Hc, Hh.
Qed.

Lemma split_keeps c sep s :
  has_char c s = false → Forall (fun x => has_char c x = false) (split sep s).
Proof.
  induction s as [|x s IH]; simpl; intros H.
  - apply Forall_cons. split; [done|]. by apply Forall_nil.
  - apply orb_false_iff in H as [Hx Hs]. specialize (IH Hs).
    destruct (Ascii.eqb x sep).
    + apply Forall_cons. by split.
    + destruct (split sep s) as [|h t]; apply Forall_cons.
      * split; [|by apply Forall_nil]. simpl. by rewrite Hx.
      * apply Forall_cons in IH as [Hh Ht]. split; [|done]. simpl. by rewrite Hx, Hh.
Qed.

Lemma split_concat sep a b :
  split sep (a +:+ String sep b) = split sep a ++ split sep b.
Proof.
  induction a as [|c a IH].
  - change ("" +:+ String sep b) with (String sep b). simpl.
    by rewrite Ascii.eqb_refl.
  - rewrite sapp_cons. simpl. rewrite IH.
    destruct (Ascii.eqb c sep); [done|].
    by destruct (split_cons_inv sep a) as (h & t & ->).
Qed.

Lemma obj_get_None k o : obj_get k o = None ↔ k ∉ keys o.
Proof.
  unfold keys. induction o as [|[k' v'] o IH]; simpl.
  - split; [intros _; apply not_elem_of_nil|done].
  - rewrite not_elem_of_cons. destruct (String.eqb_spec k k') as [->|Hne].
    + split; [done|]. by intros [? _].
    + rewrite IH. by intuition.
Qed.

Lemma obj_get_elem k v o : NoDup (keys o) → (k, v) ∈ o → obj_get k o = Some v.
Proof.
  unfold keys. induction o as [|[k' v'] o IH]; simpl; intros Hnd Hin.
  - by apply elem_of_nil in Hin.
  - apply NoDup_cons in Hnd as [Hk' Hnd].
    apply elem_of_cons in Hin as [[= <- <-]|Hin].
    + by rewrite String.eqb_refl.
    + destruct (String.eqb_spec k k') as [->|Hne]; [|by apply IH].
      destruct Hk'. apply list_elem_of_fmap. by exists (k', v).
Qed.

Lemma obj_get_Some_elem (k : string) (v : JsVal) (o : JsObj) :
  obj_get k o = Some v → (k, v) ∈ o.
Proof.
  induction o as [|[k' v'] o IH]; simpl; [done|].
  destruct (String.eqb_spec k k') as [->|Hne].
  - intros [= ->]. apply elem_of_cons. by left.
  - intros H. apply elem_of_cons. right. by apply IH.
Qed.

Lemma parse_segment_cases acc kv :
  parse_segment acc kv = acc
  ∨ ∃ k v, k ≠ "__proto__" ∧ (∃ t, split "=" kv = k :: t)
           ∧ (split "=" kv = [k] ∧ v = "" ∨ ∃ t, split "=" kv = k :: v :: t)
           ∧ parse_segment acc kv = obj_set k (VStr v) acc.
Proof.
  unfold parse_segment, assign_string.
  destruct (split "=" kv) as [|k [|v t]] eqn:Hs; [by left| |].
  - destruct (String.eqb_spec k "__proto__"); [by left|]. right.
    exists k, "". split; [done|]. split; [by eexists|]. split; [by left|done].
  - destruct (String.eqb_spec k "__proto__"); [by left|]. right.
    exists k, v. split; [done|]. split; [by eexists|]. split; [right; by eexists|done].
Qed.

Lemma parse_segment_parsed acc kv :
  has_char ";" kv = false →
  NoDup (keys acc) ∧ Forall parsed_entry acc →
  NoDup (keys (parse_segment acc kv)) ∧ Forall parsed_entry (parse_segment acc kv).
Proof.
  intros Hkv [Hnd Hall].
  destruct (parse_segment_cases acc kv) as [->|(k & v & Hp & [t Hk] & Hv & ->)]; [done|].
  split; [by apply NoDup_obj_set|]. apply Forall_obj_set; [|done].
  pose proof (split_pieces "=" kv) as Heq. pose proof (split_keeps ";" "=" kv Hkv) as Hsemi.
  rewrite Hk in Heq, Hsemi.
  apply Forall_cons in Heq as [Hk1 Heq]. apply Forall_cons in Hsemi as [Hk2 Hsemi].
  split; [|split; [done|] ].
  { unfold delimiter_free. simpl. by rewrite Hk1, Hk2. }
  exists v. split; [done|]. destruct Hv as [[_ ->]|[t' Hv] ]; [done|].
  rewrite Hv in Hk. injection Hk as <-.
  apply Forall_cons in Heq as [Hv1 _]. apply Forall_cons in Hsemi as [Hv2 _].
  unfold delimiter_free. by rewrite Hv1, Hv2.
Qed.

Lemma fold_parse_parsed l acc :
  Forall (fun x => has_char ";" x = false) l →
  NoDup (keys acc) ∧ Forall parsed_entry acc →
  NoDup (keys (fold_left parse_segment l acc))
  ∧ Forall parsed_entry (fold_left parse_segment l acc).
Proof.
  intros Hl. revert acc. induction Hl as [|x l Hx Hl IH]; intros acc Hacc; [done|].
  simpl. apply IH. by apply parse_segment_parsed.
Qed.

Lemma filter_Boolean_Forall (P : string → Prop) l :
  Forall P l → Forall P (filter_Boolean l).
Proof.
  intros H. apply Forall_forall. intros x Hx%list_elem_of_In.
  apply filter_In in Hx as [Hx _]. rewrite Forall_forall in H. apply H.
  by apply list_elem_of_In.
Qed.

Lemma parseStyle_parsed (s : string) :
  NoDup (keys (parseStyle (Prim (VStr s))))
  ∧ Forall parsed_entry (parseStyle (Prim (VStr s))).
Proof.
  unfold parseStyle. apply fold_parse_parsed.
  - apply filter_Boolean_Forall, split_pieces.
  - split; [apply NoDup_nil_2|apply Forall_nil_2].
Qed.

Lemma parsed_codec_safe (o : JsObj) :
  NoDup (keys o) → Forall parsed_entry o → obj_get "" o ≠ Some (VStr "") →
  Forall codec_safe o.
Proof.
  intros Hnd Hall Hblank. apply Forall_forall. intros [k v] Hin.
  rewrite Forall_forall in Hall. destruct (Hall _ Hin) as (Hk & Hp & s & Hv & Hs).
  simpl in *. subst v. split; [done|]. split; [done|]. exists s.
  split; [done|]. split; [done|]. cbn [fst]. intros Hk0 Hs0. subst k s.
  apply Hblank. by apply obj_get_elem.
Qed.

(** X1: whatever the text, [parseStyle] yields a mapping without repeated
    keys, whose keys and values are strings free of [;] and [=], and that
    has no key [__proto__]. *)
Theorem parseStyle_wellformed (s : string) :
  NoDup (keys (parseStyle (Prim (VStr s))))
  ∧ Forall (fun kv => delimiter_free kv.1 = true ∧ kv.1 ≠ "__proto__"
                      ∧ ∃ v, kv.2 = VStr v ∧ delimiter_free v = true)
           (parseStyle (Prim (VStr s))).
Proof. exact (parseStyle_parsed s). Qed.

Lemma parse_stringify_parse (s : string) :
  no_blank_entry s →
  parseStyle (Prim (VStr (stringifyStyle (parseStyle (Prim (VStr s))))))
  = parseStyle (Prim (VStr s)).
Proof.
  intros Hblank. destruct (parseStyle_parsed s) as [Hnd Hall].
  apply parse_stringify; [done|]. by apply parsed_codec_safe.
Qed.

(** X2: for a style text [s] without a segment that parses to an empty key
    with an empty value, [stringifyStyle (parseStyle s)] parses to what
    [s] parses to, and normalizing it once more gives the same text. *)
Theorem stringify_parse_stable (s : string) :
  no_blank_entry s →
  let t := stringifyStyle (parseStyle (Prim (VStr s))) in
  parseStyle (Prim (VStr t)) = parseStyle (Prim (VStr s))
  ∧ stringifyStyle (parseStyle (Prim (VStr t))) = t.
Proof.
  intros Hblank t. unfold t. by rewrite parse_stringify_parse.
Qed.

Lemma stringify_parse_stable_witness :
  let s := "shape=cylinder3;;size=15;shape=step;boundedLbl" in
  let t := stringifyStyle (parseStyle (Prim (VStr s))) in
  t = "shape=step;size=15;boundedLbl;"
  ∧ parseStyle (Prim (VStr t)) = parseStyle (Prim (VStr s))
  ∧ stringifyStyle (parseStyle (Prim (VStr t))) = t.
Proof.
  split; [reflexivity|].
  apply (stringify_parse_stable "shape=cylinder3;;size=15;shape=step;boundedLbl").
  unfold no_blank_entry. discriminate.
Defined.

Lemma parse_segment_lookup acc kv k :
  obj_get k (parse_segment acc kv)
  = match obj_get k (parse_segment [] kv) with
    | Some v => Some v
    | None => obj_get k acc
    end.
Proof.
  unfold parse_segment, assign_string.
  destruct (split "=" kv) as [|k' [|v t] ]; [done| |];
    (destruct (String.eqb k' "__proto__"); [done|]);
    simpl; (destruct (String.eqb_spec k k') as [->|Hne];
      [by rewrite obj_get_set_eq | by rewrite obj_get_set_ne]).
Qed.

Lemma fold_parse_lookup l acc k :
  obj_get k (fold_left parse_segment l acc)
  = match obj_get k (fold_left parse_segment l []) with
    | Some v => Some v
    | None => obj_get k acc
    end.
Proof.
  revert acc. induction l as [|x l IH]; intros acc; [done|]. simpl.
  rewrite IH, (IH (parse_segment [] x)).
  destruct (obj_get k (fold_left parse_segment l [])); [done|].
  apply parse_segment_lookup.
Qed.

(** X3: in the text [a;b] the attributes of [b] win: an attribute reads
    as in [b] when [b] sets it, and as in [a] otherwise. *)
Theorem parseStyle_later_wins (a b k : string) :
  obj_get k (parseStyle (Prim (VStr (a +:+ ";" +:+ b))))
  = match obj_get k (parseStyle (Prim (VStr b))) with
    | Some v => Some v
    | None => obj_get k (parseStyle (Prim (VStr a)))
    end.
Proof.
  unfold parseStyle. change (";" +:+ b) with (String ";" b).
  rewrite split_concat. unfold filter_Boolean. rewrite List.filter_app, fold_left_app.
  apply fold_parse_lookup.
Qed.

(** *** Text written from entries whose values may hold [=] *)

Lemma segment_no_semi_value k s :
  delimiter_free k = true → has_char ";" s = false → has_char ";" (segment_of k s) = false.
Proof.
  unfold delimiter_free, segment_of. intros [Hk _]%andb_true_iff Hs.
  apply negb_true_iff in Hk. rewrite has_char_app, Hk. simpl.
  destruct (String.eqb s ""); simpl; done.
Qed.

Lemma segment_empty k s :
  String.eqb (segment_of k s) "" = String.eqb k "" && String.eqb s "".
Proof.
  unfold segment_of. destruct k as [|c k]; [|done].
  destruct s as [|c s]; done.
Qed.

Lemma parse_segment_cut acc k s :
  delimiter_free k = true →
  parse_segment acc (segment_of k s) = assign_string k (cut s) acc.
Proof.
  unfold delimiter_free, segment_of, parse_segment, cut.
  intros [_ Hk]%andb_true_iff. apply negb_true_iff in Hk.
  destruct (String.eqb_spec s "") as [->|Hne]; simpl.
  - by rewrite sapp_nil_r, split_none.
  - rewrite split_app by done.
    by destruct (split_cons_inv "=" s) as (h & t & ->).
Qed.

Lemma parse_stringify_reread_from acc o :
  NoDup (keys (acc ++ o)) → Forall writable o →
  fold_left parse_segment (filter_Boolean (split ";" (stringifyStyle o))) acc
  = acc ++ reread o.
Proof.
  revert acc. induction o as [|[k v] o IH]; intros acc Hnd Hw.
  - simpl. by rewrite app_nil_r.
  - apply Forall_cons in Hw as [(Hk & Hproto & s & Hv & Hs) Hw].
    simpl in Hk, Hproto, Hv. subst v.
    rewrite stringify_cons, split_app by by apply segment_no_semi_value.
    unfold filter_Boolean, reread. cbn [List.filter fst snd ToString].
    rewrite segment_empty.
    assert (NoDup (keys (acc ++ o))) as Hnd'.
    { unfold keys in *. rewrite fmap_app in *. rewrite fmap_cons in Hnd.
      apply NoDup_app in Hnd as (H1 & H2 & H3). apply NoDup_cons in H3 as [_ H3].
      apply NoDup_app. split; [done|]. split; [|done].
      intros x Hx Hin. apply (H2 x Hx). by right. }
    destruct (String.eqb k "" && String.eqb s "") eqn:Hblank; cbn [negb].
    + fold (filter_Boolean (split ";" (stringifyStyle o))). fold (reread o).
      by apply IH.
    + cbn [fold_left]. rewrite parse_segment_cut by done. unfold assign_string.
      destruct (String.eqb_spec k "__proto__"); [done|].
      assert (k ∉ keys acc) as Hfresh.
      { unfold keys in *. rewrite fmap_app in Hnd. apply NoDup_app in Hnd as (_ & Hd & _).
        intros Hin. apply (Hd k Hin). simpl. left. }
      rewrite obj_set_fresh by done.
      fold (filter_Boolean (split ";" (stringifyStyle o))).
      rewrite fmap_cons. cbn [fst snd ToString]. fold (reread o).
      rewrite IH; [by rewrite <- app_assoc| |done].
      unfold keys in *. rewrite <- app_assoc. rewrite !fmap_app in *.
      exact Hnd.
Qed.

(** The text of a mapping of writable entries parses to the mapping reread. *)
Lemma parse_stringify_reread o :
  NoDup (keys o) → Forall writable o →
  parseStyle (Prim (VStr (stringifyStyle o))) = reread o.
Proof. intros. by apply (parse_stringify_reread_from []). Qed.

Lemma reread_lookup o k :
  k ≠ "" →
  obj_get k (reread o) = (fun v => VStr (cut (ToString v))) <$> obj_get k o.
Proof.
  intros Hk. unfold reread. induction o as [|[k' v'] o IH]; [done|].
  cbn [List.filter fst snd obj_get].
  destruct (String.eqb_spec k k') as [<-|Hne].
  - apply String.eqb_neq in Hk. rewrite Hk. cbn [andb negb].
    rewrite fmap_cons. cbn [obj_get fst snd]. by rewrite String.eqb_refl.
  - destruct (negb _); [|done].
    rewrite fmap_cons. cbn [obj_get fst]. by destruct (String.eqb_spec k k').
Qed.

Lemma cut_free s : has_char "=" s = false → cut s = s.
Proof. intros H. unfold cut. by rewrite split_none. Qed.

Lemma parsed_writable kv : parsed_entry kv → writable kv.
Proof.
  intros (Hk & Hp & s & Hv & Hs). split; [done|]. split; [done|]. exists s.
  split; [done|]. unfold delimiter_free in Hs.
  apply andb_true_iff in Hs as [Hs _]. by apply negb_true_iff in Hs.
Qed.

Lemma parsed_lookup_cut o k :
  Forall parsed_entry o →
  (fun v => VStr (cut (ToString v))) <$> obj_get k o = obj_get k o.
Proof.
  intros Hall. destruct (obj_get k o) as [v|] eqn:Hv; [|done].
  apply obj_get_Some_elem in Hv. rewrite Forall_forall in Hall.
  destruct (Hall _ Hv) as (_ & _ & s & Hs0 & Hs). simpl in Hs0. subst v.
  cbn [ToString fmap option_fmap option_map]. unfold delimiter_free in Hs. apply andb_true_iff in Hs as [_ Hs].
  apply negb_true_iff in Hs. by rewrite cut_free.
Qed.

(** The mapping a primitive style parses to: the one of the text, and
    nothing for a value that is no string. *)
Lemma parseStyle_prim_parsed (w : JsVal) :
  NoDup (keys (parseStyle (Prim w))) ∧ Forall parsed_entry (parseStyle (Prim w)).
Proof.
  destruct w; try (split; [apply NoDup_nil_2|apply Forall_nil_2]).
  apply parseStyle_parsed.
Qed.


(** ** parseInt and addNode *)

Lemma digit_of_pretty_char (d : N) :
  (d < 10)%N → digit_of (pretty_N_char d) = Some (Z.of_N d).
Proof.
  intros H.
  assert (d = 0 ∨ d = 1 ∨ d = 2 ∨ d = 3 ∨ d = 4 ∨ d = 5 ∨ d = 6 ∨ d = 7
          ∨ d = 8 ∨ d = 9)%N as Hd by lia.
  repeat destruct Hd as [->|Hd]; try subst d; reflexivity.
Qed.

Lemma div10_mod10 (x : N) :
  Z.of_N x = 10 * Z.of_N (x `div` 10) + Z.of_N (x `mod` 10).
Proof.
  pose proof (N.div_mod x 10 ltac:(done)) as Hdm.
  rewrite Hdm at 1. by rewrite N2Z.inj_add, N2Z.inj_mul.
Qed.

Lemma scan_pretty_go (x : N) (s : string) :
  (0 < x)%N →
  scan_digits None (pretty_N_go x s) = scan_digits (Some (Z.of_N x)) s.
Proof.
  revert s. induction (N.lt_wf_0 x) as [x _ IH]; intros s Hx.
  rewrite pretty_N_go_step by done.
  assert (x `mod` 10 < 10)%N as Hd by (by apply N.mod_lt).
  rewrite (div10_mod10 x).
  destruct (decide (x `div` 10 = 0)%N) as [Hq|Hq].
  - rewrite Hq, pretty_N_go_0. simpl. by rewrite digit_of_pretty_char.
  - assert (0 < x `div` 10)%N as Hpos by (by apply N.neq_0_lt_0).
    assert (x `div` 10 < x)%N as Hlt by (by apply N.div_lt).
    rewrite (IH _ Hlt _ Hpos). simpl. by rewrite digit_of_pretty_char.
Qed.

Lemma pretty_go_head (x : N) (s : string) :
  (0 < x)%N →
  ∃ d s', (d < 10)%N ∧ pretty_N_go x s = String (pretty_N_char d) s'.
Proof.
  revert s. induction (N.lt_wf_0 x) as [x _ IH]; intros s Hx.
  rewrite pretty_N_go_step by done.
  destruct (decide (x `div` 10 = 0)%N) as [Hq|Hq].
  - rewrite Hq, pretty_N_go_0. eexists _, _. split; [|done]. by apply N.mod_lt.
  - assert (0 < x `div` 10)%N as Hpos by (by apply N.neq_0_lt_0).
    assert (x `div` 10 < x)%N as Hlt by (by apply N.div_lt).
    apply (IH _ Hlt _ Hpos).
Qed.

Lemma parseInt_digit_head (d : N) (s : string) :
  (d < 10)%N →
  parseInt (String (pretty_N_char d) s) = scan_digits None (String (pretty_N_char d) s).
Proof.
  intros H.
  assert (d = 0 ∨ d = 1 ∨ d = 2 ∨ d = 3 ∨ d = 4 ∨ d = 5 ∨ d = 6 ∨ d = 7
          ∨ d = 8 ∨ d = 9)%N as Hd by lia.
  repeat destruct Hd as [->|Hd]; try subst d; reflexivity.
Qed.

Lemma parseInt_pretty_pos (p : positive) :
  parseInt (pretty (N.pos p)) = Some (Z.pos p).
Proof.
  unfold pretty, pretty_N. rewrite decide_False by done.
  destruct (pretty_go_head (N.pos p) "") as (d & s' & Hd & Hs); [lia|].
  rewrite Hs, parseInt_digit_head by done. rewrite <- Hs.
  rewrite scan_pretty_go by lia. done.
Qed.

Lemma parseInt_pretty (z : Z) : parseInt (pretty z) = Some z.
Proof.
  destruct z as [|p|p].
  - reflexivity.
  - apply parseInt_pretty_pos.
  - change (pretty (Z.neg p)) with (String "-" (pretty (N.pos p))).
    unfold parseInt. simpl.
    unfold pretty, pretty_N. rewrite decide_False by done.
    rewrite scan_pretty_go by lia. done.
Qed.

Lemma cellAdded_lookup g id c :
  getCell (cellAdded g id c).1 (cellAdded g id c).2 = Some c.
Proof.
  unfold cellAdded, getCell. destruct (cells g !! id).
  - destruct (createId _ _ _) as [id' n']. simpl. apply lookup_insert_eq.
  - simpl. apply lookup_insert_eq.
Qed.

Lemma createId_fresh_from (fuel : nat) (cs : gmap string Cell) (n : N)
    (seen : gset string) :
  seen ⊆ dom cs →
  (∀ m, (n ≤ m)%N → pretty m ∉ seen) →
  (size (dom cs) ≤ fuel + size seen)%nat →
  cs !! (createId fuel cs n).1 = None.
Proof.
  revert n seen. induction fuel as [|fuel IH]; intros n seen Hsub Hnew Hsize; simpl.
  - apply not_elem_of_dom. intros Hin.
    assert (seen = dom cs) as Heq.
    { apply set_subseteq_size_eq; [done|]. simpl in Hsize. lia. }
    apply (Hnew n); [lia|]. by rewrite Heq.
  - destruct (cs !! pretty n) as [c|] eqn:Hn; [|done].
    apply (IH _ (seen ∪ {[pretty n]})).
    + apply union_subseteq. split; [done|].
      apply singleton_subseteq_l, elem_of_dom. by eexists.
    + intros m Hm [Hin|Hin%elem_of_singleton]%elem_of_union.
      * apply (Hnew m); [lia|done].
      * apply (inj pretty) in Hin. lia.
    + rewrite size_union.
      * rewrite size_singleton. lia.
      * apply disjoint_singleton_r. apply Hnew. lia.
Qed.

Lemma createId_fresh (cs : gmap string Cell) (n : N) :
  cs !! (createId (size cs) cs n).1 = None.
Proof.
  apply (createId_fresh_from _ _ _ ∅).
  - apply empty_subseteq.
  - intros m _. apply not_elem_of_empty.
  - rewrite size_dom, size_empty. lia.
Qed.

(** A cell that is added takes the place of no other: the identifier it
    gets is unused. *)
Lemma cellAdded_fresh (g : Model) (id : string) (c : Cell) :
  getCell g (cellAdded g id c).2 = None.
Proof.
  unfold cellAdded, getCell. destruct (cells g !! id) eqn:Hid; [|done].
  pose proof (createId_fresh (cells g) (nextId g)) as Hf.
  by destruct (createId _ _ _) as [id' n'].
Qed.

Lemma cellAdded_keeps (g : Model) (id : string) (c : Cell) (k : string) (c0 : Cell) :
  getCell g k = Some c0 → getCell (cellAdded g id c).1 k = Some c0.
Proof.
  intros Hk. pose proof (cellAdded_fresh g id c) as Hf.
  assert (cells (cellAdded g id c).1 = <[(cellAdded g id c).2 := c]> (cells g)) as He.
  { unfold cellAdded. destruct (cells g !! id); [|done].
    by destruct (createId _ _ _). }
  unfold getCell in *. rewrite He. rewrite lookup_insert_ne; [done|].
  intros Heq. rewrite Heq in Hf. congruence.
Qed.

(** [addNode] keeps every cell of the diagram. *)
Lemma addNode_keeps (g : Model) (p : AddNode.Params) (k : string) (c0 : Cell) :
  getCell g k = Some c0 → getCell (addNode g p).1 k = Some c0.
Proof.
  intros Hk. unfold addNode, insertVertex.
  set (c := mkCell _ _ _ _ _ _ _ _).
  pose proof (cellAdded_keeps g (AddNode.id p) c k c0 Hk) as Hkeep.
  pose proof (cellAdded_fresh g (AddNode.id p) c) as Hfresh.
  pose proof (cellAdded_lookup g (AddNode.id p) c) as Hc.
  destruct (cellAdded g (AddNode.id p) c) as [g1 n]. simpl in *. rewrite Hc.
  simpl. unfold getCell, store in *. simpl. rewrite lookup_insert_ne; [done|].
  intros Heq. rewrite Heq in Hfresh. congruence.
Qed.

Lemma addNode_node g p : node_of (addNode g p) = Some (addedNode g p).
Proof.
  unfold node_of, addNode, insertVertex.
  set (c := mkCell _ _ _ _ _ _ _ _).
  pose proof (cellAdded_lookup g (AddNode.id p) c) as Hc.
  destruct (cellAdded g (AddNode.id p) c) as [g1 n]. simpl in Hc. rewrite Hc.
  simpl. unfold getCell, store. simpl. by rewrite lookup_insert_eq.
Qed.

(** C8: a rectangle added at (100,150) without overrides measures 120 by
    60, and its style holds the pairs [rounded=1], [whiteSpace=wrap],
    [html=1]; but what [addNode] stores is the object of the catalog, not
    the delimited text: [adjustStyleByKind] and [mergeStyleOverrides] hand
    it on untouched.  [toStyleString] would render it as
    [rounded=1;whiteSpace=wrap;html=1;]. *)
Theorem rectangle_defaults (g : Model) (id : string) (title parent : option string) :
  let p := AddNode.mk id title parent (Some "Rectangle") (Some 100) (Some 150) VUndef [] in
  ∃ c geo,
    node_of (addNode g p) = Some c
    ∧ cell_style c = Obj [("rounded", VNum 1); ("whiteSpace", VStr "wrap"); ("html", VNum 1)]
    ∧ (∀ s, cell_style c ≠ Prim (VStr s))
    ∧ toStyleString (cell_style c) = "rounded=1;whiteSpace=wrap;html=1;"
    ∧ cell_geometry c = Some geo
    ∧ geo_x geo = VNum 100 ∧ geo_y geo = VNum 150
    ∧ geo_width geo = VNum 120 ∧ geo_height geo = VNum 60.
Proof.
  intros p. eexists _, _. split; [apply addNode_node|].
  repeat split; try reflexivity. intros s. discriminate.
Qed.

(** With one override the same call stores the delimited text. *)
Example rectangle_with_fill :
  cell_style <$> node_of (addNode empty
      (AddNode.mk "svc" (Some "Service") None (Some "Rectangle") (Some 100) (Some 150)
                  VUndef [("fillColor", VStr "#dae8fc")]))
  = Some (Prim (VStr "rounded=1;whiteSpace=wrap;html=1;fillColor=#dae8fc;")).
Proof. by vm_compute. Qed.

(** An edit of the stored object reads it with [String]. *)
Example rectangle_then_fill :
  match editNode svc_db
          (EditNode.mk "svc" None None VUndef VUndef VUndef VUndef VUndef
                       [("fillColor", VStr "#dae8fc")]) with
  | Ok g => cell_style <$> getCell g "svc"
  | Throw _ => None
  end = Some (Prim (VStr "[object Object];fillColor=#dae8fc;")).
Proof. by vm_compute. Qed.

(** ** Values that are not strings *)

Lemma pretty_nonempty (z : Z) : pretty z ≠ "".
Proof.
  intros H. pose proof (parseInt_pretty z) as Hp. rewrite H in Hp. discriminate Hp.
Qed.

Lemma truthy_text v : truthy v = true → ToString v ≠ "".
Proof.
  destruct v as [| |[|]|z| |s]; simpl; try done.
  - intros _. apply pretty_nonempty.
  - by intros ?%negb_true_iff%String.eqb_neq.
Qed.

Lemma as_text_truthy v : truthy (VStr (as_text v)) = truthy v.
Proof.
  unfold as_text. destruct (truthy v) eqn:Hv; [|done]. simpl.
  apply negb_true_iff, String.eqb_neq. by apply truthy_text.
Qed.

Lemma emit_as_text tmp k v :
  v ≠ VUndef → emit tmp (k, v) = emit tmp (k, VStr (as_text v)).
Proof.
  intros Hv. unfold emit. cbn [fst snd].
  rewrite as_text_truthy. unfold as_text.
  destruct v; try done; by destruct (truthy _).
Qed.

Lemma stringify_flattened_from m tmp :
  fold_left emit m tmp = fold_left emit (flattened m) tmp.
Proof.
  revert tmp. induction m as [|[k v] m IH]; intros tmp; [done|].
  unfold flattened. cbn [List.filter fold_left snd].
  destruct v; cbn [is_undefined negb]; try (rewrite fmap_cons; cbn [fold_left fst snd];
    rewrite <- emit_as_text by done; apply IH).
  apply IH.
Qed.

Lemma stringify_flattened m : stringifyStyle m = stringifyStyle (flattened m).
Proof. apply stringify_flattened_from. Qed.

Lemma keys_flattened_sub m : keys (flattened m) `sublist_of` keys m.
Proof.
  unfold keys, flattened. induction m as [|[k v] m IH]; [done|].
  cbn [List.filter snd]. destruct (negb (is_undefined v)).
  - rewrite !fmap_cons. by apply sublist_skip.
  - rewrite fmap_cons. by apply sublist_cons.
Qed.

Lemma flattened_safe m : Forall text_safe m → Forall codec_safe (flattened m).
Proof.
  intros H. unfold flattened. induction H as [|[k v] m (Hk & Hp & Hv & He) _ IH]; [done|].
  cbn [List.filter snd]. destruct (negb (is_undefined v)) eqn:Hu; [|done].
  rewrite fmap_cons. apply Forall_cons. split; [|done]. simpl in *.
  split; [done|]. split; [done|]. exists (as_text v). split; [done|]. split.
  - unfold as_text. by destruct (truthy v).
  - intros Hk0. specialize (He Hk0). unfold as_text. rewrite He. by apply truthy_text.
Qed.

(** X4: a mapping with values of any primitive type comes back from the
    text as strings: when no two keys are alike and neither a key nor the
    text of a value holds [;] or [=], [parseStyle (stringifyStyle m)] is
    [m] without its [undefined] entries, every truthy value replaced by its
    [String] and every other value (0, false, null, NaN, the empty string)
    by the empty string. *)
Theorem stringify_flattens_values (m : JsObj) :
  NoDup (keys m) → Forall text_safe m →
  parseStyle (Prim (VStr (stringifyStyle m))) = flattened m.
Proof.
  intros Hnd Hsafe. rewrite stringify_flattened. apply parse_stringify.
  - exact (sublist_NoDup _ _ Hnd (keys_flattened_sub m)).
  - by apply flattened_safe.
Qed.

Lemma stringify_flattens_values_witness :
  parseStyle (Prim (VStr (stringifyStyle
     [("rounded", VNum 0); ("html", VNum 1); ("dashed", VBool true);
      ("reverse", VUndef); ("align", VStr "center")])))
  = [("rounded", VStr ""); ("html", VStr "1"); ("dashed", VStr "true");
     ("align", VStr "center")].
Proof.
  apply (stringify_flattens_values
     [("rounded", VNum 0); ("html", VNum 1); ("dashed", VBool true);
      ("reverse", VUndef); ("align", VStr "center")]).
  - by_evaluation.
  - repeat (apply Forall_cons; split;
              [split; [reflexivity|split; [discriminate|split; [reflexivity|discriminate] ] ]|]).
    by apply Forall_nil.
Defined.

(** ** Style overrides *)

(** What [pickStyleOverrides] picks. *)
Lemma pickStyleOverrides_spec params :
  NoDup (keys (pickStyleOverrides params))
  ∧ Forall (fun kv => In kv.1 STYLE_OVERRIDE_KEYS ∧ kv.2 = obj_read kv.1 params
                      ∧ kv.2 ≠ VUndef)
           (pickStyleOverrides params).
Proof.
  unfold pickStyleOverrides.
  assert (∀ ks acc,
    (∀ k, In k ks → In k STYLE_OVERRIDE_KEYS) →
    NoDup (keys acc)
    ∧ Forall (fun kv => In kv.1 STYLE_OVERRIDE_KEYS ∧ kv.2 = obj_read kv.1 params
                        ∧ kv.2 ≠ VUndef) acc →
    NoDup (keys (fold_left
        (fun result key =>
           if is_undefined (obj_read key params) then result
           else obj_set key (obj_read key params) result) ks acc))
    ∧ Forall (fun kv => In kv.1 STYLE_OVERRIDE_KEYS ∧ kv.2 = obj_read kv.1 params
                        ∧ kv.2 ≠ VUndef)
        (fold_left
        (fun result key =>
           if is_undefined (obj_read key params) then result
           else obj_set key (obj_read key params) result) ks acc)) as Hgen.
  { induction ks as [|k ks IH]; intros acc Hks [Hnd Hall]; simpl; [done|].
    apply IH; [intros; apply Hks; by right|].
    destruct (is_undefined (obj_read k params)) eqn:Hu; [done|].
    split; [by apply NoDup_obj_set|].
    apply Forall_obj_set; [|done]. simpl. split; [apply Hks; by left|].
    split; [done|]. intros Heq. by rewrite Heq in Hu. }
  apply Hgen; [done|]. split; [apply NoDup_nil_2 | constructor].
Qed.

Lemma pick_fold (params : JsObj) (ks : list string) (acc : JsObj) :
  NoDup ks → (∀ k, k ∈ ks → k ∉ keys acc) →
  fold_left
    (fun result key =>
       if is_undefined (obj_read key params) then result
       else obj_set key (obj_read key params) result) ks acc
  = acc ++ ((fun k => (k, obj_read k params))
              <$> List.filter (fun k => negb (is_undefined (obj_read k params))) ks).
Proof.
  intros Hnd. revert acc. induction Hnd as [|k ks Hk Hnd IH]; intros acc Hacc.
  - simpl. by rewrite app_nil_r.
  - cbn [fold_left List.filter].
    destruct (is_undefined (obj_read k params)) eqn:Hu; cbn [negb].
    + apply IH. intros k' Hk'. apply Hacc. by right.
    + rewrite obj_set_fresh by (apply Hacc; left).
      rewrite IH.
      * by rewrite <- app_assoc.
      * intros k' Hk'. unfold keys. rewrite fmap_app. simpl.
        intros [Hin|Hin%list_elem_of_singleton]%elem_of_app.
        -- by apply (Hacc k'); [right|].
        -- by subst k'.
Qed.

Lemma obj_get_tabulate (f : string → JsVal) (l : list string) (k : string) :
  obj_get k ((fun k => (k, f k)) <$> l)
  = if bool_decide (k ∈ l) then Some (f k) else None.
Proof.
  induction l as [|x l IH]; [done|]. rewrite fmap_cons. cbn [obj_get].
  destruct (String.eqb_spec k x) as [->|Hne].
  - rewrite bool_decide_eq_true_2; [done|left].
  - rewrite IH. destruct (decide (k ∈ l)) as [Hin|Hin].
    + rewrite !bool_decide_eq_true_2; [done|by right|done].
    + rewrite !bool_decide_eq_false_2; [done| |done].
      by intros [?|?]%elem_of_cons.
Qed.

Lemma pick_closed_form (params : JsObj) :
  pickStyleOverrides params
  = (fun k => (k, obj_read k params))
      <$> List.filter (fun k => negb (is_undefined (obj_read k params)))
                      STYLE_OVERRIDE_KEYS.
Proof.
  unfold pickStyleOverrides. rewrite pick_fold; [done| |].
  - by_evaluation.
  - intros k _. apply not_elem_of_nil.
Qed.

(** X5: [pickStyleOverrides] returns the entries of its argument under the
    eight style keys whose value is not [undefined], in the order of the
    key list whatever their order in the argument; under every other key,
    and under a style key that is missing or [undefined], it has
    nothing. *)
Theorem pickStyleOverrides_exact (params : JsObj) :
  pickStyleOverrides params
  = (fun k => (k, obj_read k params))
      <$> List.filter (fun k => negb (is_undefined (obj_read k params)))
                      STYLE_OVERRIDE_KEYS
  ∧ ∀ k, obj_get k (pickStyleOverrides params)
         = if bool_decide (k ∈ STYLE_OVERRIDE_KEYS)
              && negb (is_undefined (obj_read k params))
           then Some (obj_read k params) else None.
Proof.
  split; [apply pick_closed_form|]. intros k.
  rewrite pick_closed_form, obj_get_tabulate.
  destruct (decide (k ∈ STYLE_OVERRIDE_KEYS)) as [Hin|Hin].
  - rewrite (bool_decide_eq_true_2 (k ∈ STYLE_OVERRIDE_KEYS)) by done. cbn [andb].
    destruct (negb (is_undefined (obj_read k params))) eqn:Hu.
    + rewrite bool_decide_eq_true_2; [done|].
      apply list_elem_of_In, filter_In. split; [by apply list_elem_of_In|done].
    + rewrite bool_decide_eq_false_2; [done|].
      intros [_ H]%list_elem_of_In%filter_In. congruence.
  - rewrite (bool_decide_eq_false_2 (k ∈ STYLE_OVERRIDE_KEYS)) by done. cbn [andb].
    rewrite bool_decide_eq_false_2; [done|].
    intros [H _]%list_elem_of_In%filter_In. by apply list_elem_of_In in H.
Qed.

Lemma filter_all {A : Type} (f : A → bool) (l : list A) :
  Forall (fun x => f x = true) l → List.filter f l = l.
Proof. induction 1 as [|x l Hx _ IH]; simpl; [done|]. by rewrite Hx, IH. Qed.

Lemma pick_defined (rest : JsObj) :
  List.filter (fun kv : string * JsVal => negb (is_undefined kv.2))
              (pickStyleOverrides rest)
  = pickStyleOverrides rest.
Proof.
  apply filter_all. destruct (pickStyleOverrides_spec rest) as [_ H].
  eapply Forall_impl; [exact H|]. intros [k v] (_ & _ & Hv). simpl in *.
  by destruct v.
Qed.

Lemma fold_override_lookup (ovs o : JsObj) (k : string) :
  NoDup (keys ovs) →
  obj_get k (fold_left override ovs o)
  = match obj_get k ovs with
    | Some v => Some (VStr (ToString v))
    | None => obj_get k o
    end.
Proof.
  revert o. induction ovs as [|[k1 v1] ovs IH]; intros o Hnd; [done|].
  unfold keys in Hnd. rewrite fmap_cons in Hnd. apply NoDup_cons in Hnd as [Hk1 Hnd].
  cbn [fst] in Hk1. cbn [fold_left obj_get]. rewrite IH by done. unfold override. cbn [fst snd].
  destruct (String.eqb_spec k k1) as [->|Hne].
  - apply obj_get_None in Hk1. rewrite Hk1. apply obj_get_set_eq.
  - rewrite obj_get_set_ne by done. done.
Qed.

Lemma fold_override_fresh (ovs o : JsObj) :
  NoDup (keys ovs) → (∀ k, k ∈ keys ovs → k ∉ keys o) →
  fold_left override ovs o = o ++ override_texts ovs.
Proof.
  revert o. induction ovs as [|[k1 v1] ovs IH]; intros o Hnd Hfresh.
  - simpl. by rewrite app_nil_r.
  - unfold keys in Hnd. rewrite fmap_cons in Hnd. apply NoDup_cons in Hnd as [Hk1 Hnd].
    cbn [fst] in Hk1. cbn [fold_left]. unfold override at 2. cbn [fst snd].
    rewrite obj_set_fresh by (apply Hfresh; left).
    rewrite IH; [by rewrite <- app_assoc|done|].
    intros k Hk. unfold keys. rewrite fmap_app. simpl.
    intros [Hin|Hin%list_elem_of_singleton]%elem_of_app.
    + by apply (Hfresh k); [right|].
    + by subst k.
Qed.

Lemma has_char_pretty_go (c : ascii) (x : N) (s : string) :
  (∀ d, (d < 10)%N → Ascii.eqb (pretty_N_char d) c = false) →
  has_char c (pretty_N_go x s) = has_char c s.
Proof.
  intros Hc. revert s. induction (N.lt_wf_0 x) as [x _ IH]; intros s.
  destruct (decide (x = 0)%N) as [->|Hx]; [by rewrite pretty_N_go_0|].
  assert (0 < x)%N as Hpos by (by apply N.neq_0_lt_0).
  rewrite pretty_N_go_step by done.
  rewrite IH by (by apply N.div_lt). simpl.
  rewrite Hc; [done|]. by apply N.mod_lt.
Qed.

Lemma not_digit_char (c : ascii) :
  digit_of c = None → ∀ d, (d < 10)%N → Ascii.eqb (pretty_N_char d) c = false.
Proof.
  intros Hc d Hd. apply Ascii.eqb_neq. intros <-.
  by rewrite digit_of_pretty_char in Hc.
Qed.

Lemma delimiter_free_pretty (z : Z) : delimiter_free (pretty z) = true.
Proof.
  assert (∀ n : N, delimiter_free (pretty n) = true) as HN.
  { intros n. unfold pretty, pretty_N. destruct (decide (n = 0)%N); [done|].
    unfold delimiter_free.
    rewrite (has_char_pretty_go ";" n "") by (by apply not_digit_char).
    by rewrite (has_char_pretty_go "=" n "") by (by apply not_digit_char). }
  destruct z as [|p|p]; [done|apply HN|].
  change (pretty (Z.neg p)) with (String "-" (pretty (N.pos p))).
  specialize (HN (N.pos p)). unfold delimiter_free in *. simpl. exact HN.
Qed.

Lemma codec_safe_intro (k s : string) :
  delimiter_free k = true → k ≠ "__proto__" → k ≠ "" →
  delimiter_free s = true → codec_safe (k, VStr s).
Proof. intros Hk Hp He Hs. split; [done|]. split; [done|]. by exists s. Qed.

Lemma override_key_facts k :
  In k STYLE_OVERRIDE_KEYS →
  delimiter_free k = true ∧ k ≠ "__proto__" ∧ k ≠ "" ∧ k ≠ "arcSize"
  ∧ k ≠ "absoluteArcSize".
Proof.
  unfold STYLE_OVERRIDE_KEYS. simpl.
  intros H. repeat destruct H as [<-|H]; try done.
Qed.

Lemma fold_override_inv (ovs o : JsObj) :
  Forall (fun kv => In kv.1 STYLE_OVERRIDE_KEYS
                    ∧ delimiter_free (ToString kv.2) = true) ovs →
  NoDup (keys o) → Forall codec_safe o →
  NoDup (keys (fold_left override ovs o))
  ∧ Forall codec_safe (fold_left override ovs o)
  ∧ ∀ k, ¬ In k STYLE_OVERRIDE_KEYS →
         obj_get k (fold_left override ovs o) = obj_get k o.
Proof.
  intros Hovs. revert o. induction Hovs as [|[k v] ovs [Hk Hv] _ IH]; intros o Hnd Hsafe.
  - done.
  - simpl in *. destruct (override_key_facts k Hk) as (Hd & Hp & He & _).
    destruct (IH (override o (k, v))) as (IH1 & IH2 & IH3).
    + by apply NoDup_obj_set.
    + apply Forall_obj_set; [|done]. by apply codec_safe_intro.
    + split; [done|]. split; [done|]. intros k' Hk'. rewrite IH3 by done.
      unfold override. simpl. apply obj_get_set_ne. intros ->. done.
Qed.

Lemma merge_picked_lookup (o : JsObj) (rest : JsObj) (k : string) :
  NoDup (keys o) → Forall codec_safe o →
  Forall (fun kv => delimiter_free (ToString kv.2) = true) (pickStyleOverrides rest) →
  obj_get k (parseStyle (mergeStyleOverrides (Prim (VStr (stringifyStyle o)))
                                             (pickStyleOverrides rest)))
  = match obj_get k (pickStyleOverrides rest) with
    | Some v => Some (VStr (ToString v))
    | None => obj_get k o
    end.
Proof.
  intros Hnd Hsafe Hclean. unfold mergeStyleOverrides. rewrite pick_defined.
  destruct (pickStyleOverrides_spec rest) as [Hnd' Hspec].
  assert (Forall (fun kv => In kv.1 STYLE_OVERRIDE_KEYS
                            ∧ delimiter_free (ToString kv.2) = true)
                 (pickStyleOverrides rest)) as Hovs.
  { rewrite Forall_forall in *. intros kv Hin. split; [by apply Hspec|by apply Hclean]. }
  destruct (pickStyleOverrides rest) as [|d ds] eqn:Hp.
  - by rewrite parse_stringify.
  - rewrite (parse_stringify o) by done. fold override.
    destruct (fold_override_inv (d :: ds) o Hovs Hnd Hsafe) as (H1 & H2 & _).
    rewrite parse_stringify by done. by apply fold_override_lookup.
Qed.

Lemma merge_text_lookup (s : string) (rest : JsObj) (k : string) :
  no_blank_entry s →
  Forall (fun kv => delimiter_free (ToString kv.2) = true) (pickStyleOverrides rest) →
  obj_get k (parseStyle (mergeStyleOverrides (Prim (VStr s)) (pickStyleOverrides rest)))
  = match obj_get k (pickStyleOverrides rest) with
    | Some v => Some (VStr (ToString v))
    | None => obj_get k (parseStyle (Prim (VStr s)))
    end.
Proof.
  intros Hblank Hclean. unfold mergeStyleOverrides. rewrite pick_defined.
  destruct (pickStyleOverrides_spec rest) as [Hnd' Hspec].
  destruct (parseStyle_parsed s) as [Hnd Hall].
  pose proof (parsed_codec_safe _ Hnd Hall Hblank) as Hsafe.
  assert (Forall (fun kv => In kv.1 STYLE_OVERRIDE_KEYS
                            ∧ delimiter_free (ToString kv.2) = true)
                 (pickStyleOverrides rest)) as Hovs.
  { rewrite Forall_forall in *. intros kv Hin. split; [by apply Hspec|by apply Hclean]. }
  destruct (pickStyleOverrides rest) as [|d ds] eqn:Hp; [done|].
  fold override.
  destruct (fold_override_inv (d :: ds) _ Hovs Hnd Hsafe) as (H1 & H2 & _).
  rewrite parse_stringify by done. by apply fold_override_lookup.
Qed.

(** X6: merging the style overrides picked from [rest] into a style text
    sets each of them to its [String] and keeps every other attribute of
    the text, provided the text has no blank entry and no override holds
    [;] or [=]. *)
Theorem merge_overrides_lookup (s : string) (rest : JsObj) (k : string) :
  no_blank_entry s →
  Forall (fun kv => delimiter_free (ToString kv.2) = true) (pickStyleOverrides rest) →
  obj_get k (parseStyle (mergeStyleOverrides (Prim (VStr s)) (pickStyleOverrides rest)))
  = match obj_get k (pickStyleOverrides rest) with
    | Some v => Some (VStr (ToString v))
    | None => obj_get k (parseStyle (Prim (VStr s)))
    end.
Proof. apply merge_text_lookup. Qed.

Lemma merge_overrides_lookup_witness :
  obj_get "fillColor"
    (parseStyle (mergeStyleOverrides
       (Prim (VStr "shape=cylinder3;fillColor=none;size=15;"))
       (pickStyleOverrides [("fillColor", VStr "#dae8fc"); ("opacity", VNum 50)])))
  = Some (VStr "#dae8fc")
  ∧ obj_get "size"
      (parseStyle (mergeStyleOverrides
         (Prim (VStr "shape=cylinder3;fillColor=none;size=15;"))
         (pickStyleOverrides [("fillColor", VStr "#dae8fc"); ("opacity", VNum 50)])))
    = Some (VStr "15").
Proof.
  split;
    (rewrite merge_overrides_lookup;
       [reflexivity | unfold no_blank_entry; discriminate | by_evaluation]).
Defined.

Lemma pick_lookup_key (rest : JsObj) (k : string) :
  ¬ In k STYLE_OVERRIDE_KEYS → obj_get k (pickStyleOverrides rest) = None.
Proof.
  intros Hk. destruct (obj_get k (pickStyleOverrides rest)) as [v|] eqn:Hv; [|done].
  apply obj_get_Some_elem in Hv. destruct (pickStyleOverrides_spec rest) as [_ Hspec].
  rewrite Forall_forall in Hspec. destruct (Hspec _ Hv) as [Hin _]. by destruct Hk.
Qed.

(** *** Overrides merged into any text *)

Lemma picked_keys (rest : JsObj) :
  Forall (fun kv : string * JsVal => In kv.1 STYLE_OVERRIDE_KEYS) (pickStyleOverrides rest).
Proof.
  destruct (pickStyleOverrides_spec rest) as [_ Hspec].
  eapply Forall_impl; [exact Hspec|]. by intros kv [? _].
Qed.

Lemma fold_override_writable (ovs o : JsObj) :
  Forall (fun kv : string * JsVal => In kv.1 STYLE_OVERRIDE_KEYS) ovs →
  semicolon_free ovs →
  NoDup (keys o) → Forall writable o →
  NoDup (keys (fold_left override ovs o)) ∧ Forall writable (fold_left override ovs o).
Proof.
  intros Hkeys. revert o. induction Hkeys as [|[k v] ovs Hk _ IH]; intros o Hclean Hnd Hw.
  - done.
  - apply Forall_cons in Hclean as [Hv Hclean]. simpl in Hk, Hv. cbn [fold_left].
    destruct (override_key_facts k Hk) as (Hd & Hp & _).
    apply IH; [done|by apply NoDup_obj_set|].
    apply Forall_obj_set; [|done]. split; [done|]. split; [done|]. by eexists.
Qed.

(** Merging overrides into a text, whatever the text: a key that is not
    empty reads the text of its override before the first [=], or what it
    read in the text when it has no override. *)
Lemma merge_any_lookup (t : string) (rest : JsObj) (k : string) :
  semicolon_free (pickStyleOverrides rest) → k ≠ "" →
  obj_get k (parseStyle (mergeStyleOverrides (Prim (VStr t)) (pickStyleOverrides rest)))
  = match obj_get k (pickStyleOverrides rest) with
    | Some v => Some (VStr (cut (ToString v)))
    | None => obj_get k (parseStyle (Prim (VStr t)))
    end.
Proof.
  intros Hclean Hk. unfold mergeStyleOverrides. rewrite pick_defined.
  destruct (pickStyleOverrides_spec rest) as [Hnd' _].
  pose proof (picked_keys rest) as Hkeys.
  destruct (parseStyle_parsed t) as [Hnd Hall].
  destruct (pickStyleOverrides rest) as [|d ds] eqn:Hp; [done|].
  fold override.
  destruct (fold_override_writable (d :: ds) (parseStyle (Prim (VStr t))))
    as [H1 H2]; [done|done|done| |].
  { eapply Forall_impl; [exact Hall|]. apply parsed_writable. }
  rewrite parse_stringify_reread by done. rewrite reread_lookup by done.
  rewrite fold_override_lookup by done.
  destruct (obj_get k (d :: ds)) as [v|]; [done|]. by apply parsed_lookup_cut.
Qed.



(** ** Rounded rectangles *)

Lemma roundedStyle_safe a :
  NoDup (keys (roundedStyle a)) ∧ Forall codec_safe (roundedStyle a).
Proof.
  split.
  - unfold keys, roundedStyle. cbn [fmap list_fmap fst].
    by_evaluation.
  - unfold roundedStyle.
    repeat (apply Forall_cons; split; [apply codec_safe_intro; try done|]).
    + apply delimiter_free_pretty.
    + by apply Forall_nil.
Qed.

Lemma adjust_rounded_supplied (v : JsVal) :
  v ≠ VUndef →
  adjustStyleByKind roundedTemplate KIND_ROUNDED_RECTANGLE v
  = Prim (VStr (stringifyStyle (roundedStyle (arcSize_of (parseInt (ToString v)))))).
Proof. intros Hv. destruct v; try done; reflexivity. Qed.

Lemma arcSize_of_valid (r : Z) : 1 ≤ r → arcSize_of (parseInt (pretty r)) = 2 * r.
Proof.
  intros Hr. rewrite parseInt_pretty. unfold arcSize_of.
  destruct (Z.leb_spec 1 r); lia.
Qed.

Lemma arcSize_of_invalid (v : JsVal) :
  invalid_radius v → arcSize_of (parseInt (ToString v)) = 24.
Proof.
  unfold invalid_radius, arcSize_of. destruct (parseInt (ToString v)) as [z|]; [|done].
  intros Hz. destruct (Z.leb_spec 1 z); [lia|done].
Qed.

Lemma adjust_invalid_radius (style : JsAny) (kind : string) (v : JsVal) :
  v ≠ VUndef → invalid_radius v →
  adjustStyleByKind style kind v
  = adjustStyleByKind style kind (VNum DEFAULT_CORNER_RADIUS).
Proof.
  intros Hv Hinv. unfold adjustStyleByKind.
  destruct (String.eqb kind KIND_ROUNDED_RECTANGLE); [|done].
  destruct v; try done; simpl is_undefined; cbv iota;
    by rewrite (arcSize_of_invalid _ Hinv).
Qed.

Lemma adjust_rounded_text (s : string) (v : JsVal) :
  adjustStyleByKind (Prim (VStr s)) KIND_ROUNDED_RECTANGLE v
  = Prim (VStr (stringifyStyle
       (if is_undefined v then parseStyle (Prim (VStr s))
        else obj_set PROP_ARC_SIZE (VStr (pretty (arcSize_of (parseInt (ToString v)))))
               (obj_set PROP_ABSOLUTE_ARC_SIZE (VStr "1")
                        (parseStyle (Prim (VStr s))))))).
Proof.
  unfold adjustStyleByKind. rewrite String.eqb_refl. by destruct (is_undefined v).
Qed.

Lemma adjusted_safe (o : JsObj) (a : Z) :
  NoDup (keys o) → Forall codec_safe o →
  NoDup (keys (obj_set PROP_ARC_SIZE (VStr (pretty a))
                 (obj_set PROP_ABSOLUTE_ARC_SIZE (VStr "1") o)))
  ∧ Forall codec_safe (obj_set PROP_ARC_SIZE (VStr (pretty a))
                         (obj_set PROP_ABSOLUTE_ARC_SIZE (VStr "1") o)).
Proof.
  intros Hnd Hsafe. split; [by do 2 apply NoDup_obj_set|].
  apply Forall_obj_set.
  - apply codec_safe_intro; try done. apply delimiter_free_pretty.
  - apply Forall_obj_set; [|done]. by apply codec_safe_intro.
Qed.

(** X7: on any style text without a blank entry, [adjustStyleByKind] for a
    rounded rectangle changes two attributes at most: with a radius given
    [arcSize] becomes the computed arc size and [absoluteArcSize] becomes
    ["1"]; every other attribute, and with the radius left out every
    attribute, reads as before. *)
Theorem adjust_rounded_lookup (s : string) (v : JsVal) (k : string) :
  no_blank_entry s →
  obj_get k (parseStyle (adjustStyleByKind (Prim (VStr s)) KIND_ROUNDED_RECTANGLE v))
  = if is_undefined v then obj_get k (parseStyle (Prim (VStr s)))
    else if String.eqb k PROP_ARC_SIZE
         then Some (VStr (pretty (arcSize_of (parseInt (ToString v)))))
    else if String.eqb k PROP_ABSOLUTE_ARC_SIZE then Some (VStr "1")
    else obj_get k (parseStyle (Prim (VStr s))).
Proof.
  intros Hblank. rewrite adjust_rounded_text.
  destruct (parseStyle_parsed s) as [Hnd Hall].
  pose proof (parsed_codec_safe _ Hnd Hall Hblank) as Hsafe.
  destruct (is_undefined v); [by rewrite parse_stringify|].
  destruct (adjusted_safe _ (arcSize_of (parseInt (ToString v))) Hnd Hsafe) as [H1 H2].
  rewrite parse_stringify by done.
  destruct (String.eqb_spec k PROP_ARC_SIZE) as [->|Hne1]; [apply obj_get_set_eq|].
  rewrite obj_get_set_ne by done.
  destruct (String.eqb_spec k PROP_ABSOLUTE_ARC_SIZE) as [->|Hne2]; [apply obj_get_set_eq|].
  by rewrite obj_get_set_ne.
Qed.

Lemma adjust_rounded_lookup_witness :
  obj_get "arcSize"
    (parseStyle (adjustStyleByKind (Prim (VStr "rounded=1;arcSize=50;dashed=1"))
                                   KIND_ROUNDED_RECTANGLE (VNum 8)))
  = Some (VStr "16")
  ∧ obj_get "dashed"
      (parseStyle (adjustStyleByKind (Prim (VStr "rounded=1;arcSize=50;dashed=1"))
                                     KIND_ROUNDED_RECTANGLE (VNum 8)))
    = Some (VStr "1").
Proof.
  split; (rewrite adjust_rounded_lookup; [reflexivity | unfold no_blank_entry; discriminate]).
Defined.

(** *** Corner radius on any primitive style, and in [addNode] *)

(** [adjustStyleByKind] for a rounded rectangle, on a style that is a text
    or any other primitive value: the result is a text in which every key
    that is not empty reads as in the style, but for the two attributes
    that a radius sets. *)
Lemma adjust_any (w v : JsVal) :
  ∃ t, adjustStyleByKind (Prim w) KIND_ROUNDED_RECTANGLE v = Prim (VStr t)
       ∧ ∀ k, k ≠ "" →
           obj_get k (parseStyle (Prim (VStr t)))
           = if is_undefined v then obj_get k (parseStyle (Prim w))
             else if String.eqb k PROP_ARC_SIZE
                  then Some (VStr (pretty (arcSize_of (parseInt (ToString v)))))
             else if String.eqb k PROP_ABSOLUTE_ARC_SIZE then Some (VStr "1")
             else obj_get k (parseStyle (Prim w)).
Proof.
  unfold adjustStyleByKind.
  change (String.eqb KIND_ROUNDED_RECTANGLE KIND_ROUNDED_RECTANGLE) with true. cbv iota.
  eexists. split; [reflexivity|]. intros k Hk.
  destruct (parseStyle_prim_parsed w) as [Hnd Hall].
  assert (Forall writable (parseStyle (Prim w))) as Hw.
  { eapply Forall_impl; [exact Hall|]. apply parsed_writable. }
  destruct (is_undefined v).
  - rewrite parse_stringify_reread by done. rewrite reread_lookup by done.
    by apply parsed_lookup_cut.
  - cbn [ToString]. set (a := arcSize_of _).
    rewrite parse_stringify_reread.
    + rewrite reread_lookup by done.
      destruct (String.eqb_spec k PROP_ARC_SIZE) as [->|Hne1].
      { rewrite obj_get_set_eq. cbn [fmap option_fmap option_map ToString].
        rewrite cut_free; [done|]. pose proof (delimiter_free_pretty a) as Hd.
        unfold delimiter_free in Hd. apply andb_true_iff in Hd as [_ Hd].
        by apply negb_true_iff in Hd. }
      rewrite obj_get_set_ne by done.
      destruct (String.eqb_spec k PROP_ABSOLUTE_ARC_SIZE) as [->|Hne2].
      { by rewrite obj_get_set_eq. }
      rewrite obj_get_set_ne by done. by apply parsed_lookup_cut.
    + by do 2 apply NoDup_obj_set.
    + apply Forall_obj_set.
      * split; [done|]. split; [done|]. eexists. split; [reflexivity|].
        pose proof (delimiter_free_pretty a) as Hd.
        unfold delimiter_free in Hd. apply andb_true_iff in Hd as [Hd _].
        by apply negb_true_iff in Hd.
      * apply Forall_obj_set; [|done]. split; [done|]. split; [done|]. by eexists.
Qed.

(** The style that [addNode] starts from for a rounded rectangle is a
    primitive value: the raw [style] of [rest], or the template. *)
Lemma rounded_style_prim (rest : JsObj) :
  ∃ w, merged "style" Kind.style KIND_ROUNDED_RECTANGLE rest = Prim w
       ∧ (obj_get "style" rest = None → Prim w = roundedTemplate).
Proof.
  unfold roundedTemplate, merged. destruct (obj_get "style" rest) as [v|].
  - exists v. by split.
  - eexists. split; reflexivity.
Qed.

(** The attributes of the node that [addNode] makes for a rounded
    rectangle, under a key that is neither empty nor a style override. *)
Lemma rounded_node_attr (g : Model) (p : AddNode.Params) (k : string) :
  AddNode.kind p = Some KIND_ROUNDED_RECTANGLE →
  semicolon_free (pickStyleOverrides (AddNode.rest p)) →
  k ≠ "" → ¬ In k STYLE_OVERRIDE_KEYS →
  ∃ w, merged "style" Kind.style KIND_ROUNDED_RECTANGLE (AddNode.rest p) = Prim w
       ∧ style_attr k (addedNode g p)
         = if is_undefined (AddNode.corner_radius p) then obj_get k (parseStyle (Prim w))
           else if String.eqb k PROP_ARC_SIZE
                then Some (VStr (pretty (arcSize_of
                                   (parseInt (ToString (AddNode.corner_radius p))))))
           else if String.eqb k PROP_ABSOLUTE_ARC_SIZE then Some (VStr "1")
           else obj_get k (parseStyle (Prim w)).
Proof.
  intros Hkind Hclean Hk Hkey.
  destruct (rounded_style_prim (AddNode.rest p)) as (w & Hw & _).
  exists w. split; [done|].
  unfold style_attr, addedNode. cbn [cell_style]. rewrite Hkind. cbn [from_option id].
  change (normalizeKind KIND_ROUNDED_RECTANGLE) with KIND_ROUNDED_RECTANGLE.
  rewrite Hw.
  destruct (adjust_any w (AddNode.corner_radius p)) as (t & -> & Ht).
  rewrite merge_any_lookup by done. rewrite pick_lookup_key by done. by apply Ht.
Qed.

(** C4, as stated, fails: a raw [style] among the properties of the call
    replaces the template, so that with the radius left out the node has
    no [arcSize]; and an override that holds a [;] writes attributes of
    its own after the ones of the radius. *)
Lemma rounded_counterexample :
  ¬ node_attr empty
      (AddNode.mk "web" (Some "Web") None (Some KIND_ROUNDED_RECTANGLE) None None
                  VUndef [("style", VStr "shape=hexagon")])
      PROP_ARC_SIZE "24"
  ∧ ¬ node_attr empty
        (AddNode.mk "web" (Some "Web") None (Some KIND_ROUNDED_RECTANGLE) None None
                    (VNum 5) [("fillColor", VStr "#fff;arcSize=3")])
        PROP_ARC_SIZE "10".
Proof.
  split; intros (c & Hc & Ha); rewrite addNode_node in Hc; injection Hc as <-;
    vm_compute in Ha; discriminate Ha.
Qed.

(** C4, amended: for a rounded rectangle whose style overrides hold no
    [;], under a parent that is left out, names a cell or names no member
    of [Object.prototype], [addNode] with a corner radius [r >= 1] (with
    [2r] in the safe range) leaves [arcSize] equal to [2r] and
    [absoluteArcSize] equal to ["1"], whatever the other properties of the
    call; with the radius left out, and no raw [style] among the
    properties, [arcSize] is 24. *)
Theorem rounded_arc_size (g : Model) (id : string) (title parent : option string)
    (x y : option Z) (rest : JsObj) (r : Z) :
  (∀ q, parent = Some q → getCell g q = None → prototype_member q = false) →
  semicolon_free (pickStyleOverrides rest) →
  let p cr := AddNode.mk id title parent (Some KIND_ROUNDED_RECTANGLE) x y cr rest in
  (1 ≤ r → 2 * r ≤ MAX_SAFE_INTEGER →
   node_attr g (p (VNum r)) PROP_ARC_SIZE (pretty (2 * r))
   ∧ node_attr g (p (VNum r)) PROP_ABSOLUTE_ARC_SIZE "1")
  ∧ (obj_get "style" rest = None → node_attr g (p VUndef) PROP_ARC_SIZE "24").
Proof.
  intros _ Hclean p. split.
  - intros Hr _.
    split; (eexists; split; [apply addNode_node|]);
      (destruct (rounded_node_attr g (p (VNum r)) PROP_ARC_SIZE) as (w & _ & Ha);
         [done|done|done|unfold STYLE_OVERRIDE_KEYS; simpl; intuition discriminate|]);
      (destruct (rounded_node_attr g (p (VNum r)) PROP_ABSOLUTE_ARC_SIZE) as (w' & _ & Hb);
         [done|done|done|unfold STYLE_OVERRIDE_KEYS; simpl; intuition discriminate|]).
    + rewrite Ha. cbn [AddNode.corner_radius p is_undefined ToString].
      change (String.eqb PROP_ARC_SIZE PROP_ARC_SIZE) with true. cbv iota.
      by rewrite arcSize_of_valid.
    + rewrite Hb. reflexivity.
  - intros Hraw. eexists. split; [apply addNode_node|].
    destruct (rounded_node_attr g (p VUndef) PROP_ARC_SIZE) as (w & Hw & Ha);
      [done|done|done|unfold STYLE_OVERRIDE_KEYS; simpl; intuition discriminate|].
    rewrite Ha. cbn [AddNode.corner_radius p is_undefined].
    destruct (rounded_style_prim rest) as (w' & Hw' & Ht). cbn [AddNode.rest p] in Hw.
    rewrite Hw in Hw'. injection Hw' as <-. rewrite (Ht Hraw). reflexivity.
Qed.

Lemma rounded_arc_size_witness :
  (node_attr empty
     (AddNode.mk "web" (Some "Web") None (Some KIND_ROUNDED_RECTANGLE) (Some 100)
                 (Some 50) (VNum 5) [("fillColor", VStr "#dae8fc")])
     PROP_ARC_SIZE (pretty (2 * 5))
   ∧ node_attr empty
       (AddNode.mk "web" (Some "Web") None (Some KIND_ROUNDED_RECTANGLE) (Some 100)
                   (Some 50) (VNum 5) [("fillColor", VStr "#dae8fc")])
       PROP_ABSOLUTE_ARC_SIZE "1")
  ∧ node_attr empty
      (AddNode.mk "web" (Some "Web") None (Some KIND_ROUNDED_RECTANGLE) (Some 100)
                  (Some 50) VUndef [("fillColor", VStr "#dae8fc")])
      PROP_ARC_SIZE "24".
Proof.
  destruct (rounded_arc_size empty "web" (Some "Web") None (Some 100) (Some 50)
              [("fillColor", VStr "#dae8fc")] 5) as [Hr Ho].
  - discriminate.
  - unfold semicolon_free. by_evaluation.
  - split; [apply Hr; [lia|unfold MAX_SAFE_INTEGER; lia] | apply Ho; reflexivity].
Defined.

(** C10, as stated, fails: an override that holds a [;] writes an
    [arcSize] of its own after the one of the fallback. *)
Lemma invalid_radius_counterexample :
  ¬ node_attr empty
      (AddNode.mk "web" (Some "Web") None (Some KIND_ROUNDED_RECTANGLE) None None
                  (VNum 0) [("fillColor", VStr "#fff;arcSize=5")])
      PROP_ARC_SIZE "24".
Proof.
  intros (c & Hc & Ha). rewrite addNode_node in Hc. injection Hc as <-.
  vm_compute in Ha. discriminate Ha.
Qed.

(** C10, amended: a corner radius that is given but does not parse to an
    integer of at least 1 does not make [addNode] fail (under a parent
    that is left out, names a cell or names no member of
    [Object.prototype]): whatever the other properties of the call, the
    result is the one of radius 12; and when no style override holds a
    [;], the node has [absoluteArcSize] ["1"] and [arcSize] ["24"], also
    on a raw [style]. *)
Theorem invalid_radius_falls_back (g : Model) (id : string)
    (title parent : option string) (x y : option Z) (rest : JsObj) (v : JsVal) :
  (∀ q, parent = Some q → getCell g q = None → prototype_member q = false) →
  v ≠ VUndef →
  invalid_radius v →
  let p cr := AddNode.mk id title parent (Some KIND_ROUNDED_RECTANGLE) x y cr rest in
  addNode g (p v) = addNode g (p (VNum 12))
  ∧ (semicolon_free (pickStyleOverrides rest) →
     node_attr g (p v) PROP_ABSOLUTE_ARC_SIZE "1"
     ∧ node_attr g (p v) PROP_ARC_SIZE "24").
Proof.
  intros _ Hv Hinv p. split.
  - unfold addNode, p. simpl. by rewrite (adjust_invalid_radius _ _ v).
  - intros Hclean.
    assert (is_undefined v = false) as Hu by (by destruct v).
    split; (eexists; split; [apply addNode_node|]).
    + destruct (rounded_node_attr g (p v) PROP_ABSOLUTE_ARC_SIZE) as (w & _ & Ha);
        [done|done|done|unfold STYLE_OVERRIDE_KEYS; simpl; intuition discriminate|].
      rewrite Ha. cbn [AddNode.corner_radius p]. by rewrite Hu.
    + destruct (rounded_node_attr g (p v) PROP_ARC_SIZE) as (w & _ & Ha);
        [done|done|done|unfold STYLE_OVERRIDE_KEYS; simpl; intuition discriminate|].
      rewrite Ha. cbn [AddNode.corner_radius p]. rewrite Hu.
      change (String.eqb PROP_ARC_SIZE PROP_ARC_SIZE) with true. cbv iota.
      by rewrite arcSize_of_invalid.
Qed.

Lemma invalid_radius_falls_back_witness :
  addNode empty (AddNode.mk "web" (Some "Web") None (Some KIND_ROUNDED_RECTANGLE)
                            (Some 100) (Some 50) (VStr "wide")
                            [("style", VStr "shape=hexagon"); ("fillColor", VStr "#dae8fc")])
  = addNode empty (AddNode.mk "web" (Some "Web") None (Some KIND_ROUNDED_RECTANGLE)
                              (Some 100) (Some 50) (VNum 12)
                              [("style", VStr "shape=hexagon"); ("fillColor", VStr "#dae8fc")])
  ∧ node_attr empty
      (AddNode.mk "web" (Some "Web") None (Some KIND_ROUNDED_RECTANGLE)
                  (Some 100) (Some 50) (VStr "wide")
                  [("style", VStr "shape=hexagon"); ("fillColor", VStr "#dae8fc")])
      PROP_ABSOLUTE_ARC_SIZE "1"
  ∧ node_attr empty
      (AddNode.mk "web" (Some "Web") None (Some KIND_ROUNDED_RECTANGLE)
                  (Some 100) (Some 50) (VStr "wide")
                  [("style", VStr "shape=hexagon"); ("fillColor", VStr "#dae8fc")])
      PROP_ARC_SIZE "24".
Proof.
  destruct (invalid_radius_falls_back empty "web" (Some "Web") None (Some 100) (Some 50)
              [("style", VStr "shape=hexagon"); ("fillColor", VStr "#dae8fc")]
              (VStr "wide")) as [He Ha]; [discriminate | discriminate | exact I |].
  split; [exact He|]. apply Ha. unfold semicolon_free. by_evaluation.
Defined.

(** Scenario 2 of the spec: radius 5. *)
Example rounded_radius_5 :
  cell_style <$> node_of (addNode empty
      (AddNode.mk "web" (Some "Web") None (Some "RoundedRectangle") None None
                  (VNum 5) []))
  = Some (Prim (VStr "whiteSpace=wrap;html=1;rounded=1;absoluteArcSize=1;arcSize=10;")).
Proof. by vm_compute. Qed.

(** ** addNode *)

Lemma cellAdded_cells (g : Model) (id : string) (c : Cell) :
  cells (cellAdded g id c).1 = <[(cellAdded g id c).2 := c]> (cells g)
  ∧ root (cellAdded g id c).1 = root g
  ∧ (getCell g id = None → (cellAdded g id c).2 = id).
Proof.
  unfold cellAdded, getCell. destruct (cells g !! id); [|done].
  by destruct (createId _ _ _).
Qed.

Lemma addNode_cells (g : Model) (p : AddNode.Params) :
  cells (addNode g p).1 = <[(addNode g p).2 := addedNode g p]> (cells g)
  ∧ root (addNode g p).1 = root g
  ∧ getCell g (addNode g p).2 = None
  ∧ (getCell g (AddNode.id p) = None → (addNode g p).2 = AddNode.id p).
Proof.
  unfold addNode, insertVertex.
  set (c := mkCell _ _ _ _ _ _ _ _).
  destruct (cellAdded_cells g (AddNode.id p) c) as (Hcells & Hroot & Hid).
  pose proof (cellAdded_fresh g (AddNode.id p) c) as Hfresh.
  pose proof (cellAdded_lookup g (AddNode.id p) c) as Hc.
  destruct (cellAdded g (AddNode.id p) c) as [g1 n]. simpl in *. rewrite Hc. simpl.
  split; [|done]. by rewrite Hcells, insert_insert_eq.
Qed.

(** X8: [addNode] under a parent without geometry adds one cell and
    touches no other: the identifier it returns was unused, it is the
    requested one when that was unused (and is no name of a member of
    [Object.prototype]), the cells of the diagram are the former ones and
    the new node, and every other identifier resolves as before. *)
Theorem addNode_adds_one (g : Model) (p : AddNode.Params) :
  plain_parent g p →
  getCell g (addNode g p).2 = None
  ∧ (getCell g (AddNode.id p) = None → prototype_member (AddNode.id p) = false →
     (addNode g p).2 = AddNode.id p)
  ∧ dom (cells (addNode g p).1) = {[ (addNode g p).2 ]} ∪ dom (cells g)
  ∧ (∀ k, k ≠ (addNode g p).2 → getCell (addNode g p).1 k = getCell g k)
  ∧ root (addNode g p).1 = root g.
Proof.
  intros _. destruct (addNode_cells g p) as (Hcells & Hroot & Hfresh & Hid).
  split; [done|]. split; [by intros ? _; apply Hid|]. split; [|split; [|done] ].
  - by rewrite Hcells, dom_insert_L.
  - intros k Hk. unfold getCell. rewrite Hcells. by apply lookup_insert_ne.
Qed.

Lemma addNode_adds_one_witness :
  (addNode svc_db (node "svc" "Cloud")).2 = "2"
  ∧ getCell (addNode svc_db (node "svc" "Cloud")).1 "svc" = getCell svc_db "svc"
  ∧ (addNode svc_db (node "web" "Cloud")).2 = "web".
Proof.
  destruct (addNode_adds_one svc_db (node "svc" "Cloud")) as (_ & _ & _ & Hk & _);
    [vm_compute; reflexivity|].
  destruct (addNode_adds_one svc_db (node "web" "Cloud")) as (_ & Hid & _);
    [vm_compute; reflexivity|].
  split; [by vm_compute|]. split.
  - apply Hk. vm_compute. discriminate.
  - apply Hid; vm_compute; reflexivity.
Defined.

(** X9: for a kind of the catalog, the node [addNode] makes under a
    parent without geometry is a vertex labelled with the title, at [x]
    and [y] (10 when left out), as wide and high as [rest] says and as the
    kind says where [rest] has no [width] or [height]; a [width] or
    [height] that [rest] holds as [undefined] or [null] gives 0, not the
    size of the kind. *)
Theorem addNode_geometry (g : Model) (p : AddNode.Params) (kd : Kind.t) :
  plain_parent g p →
  lookup_kind (normalizeKind (default "Rectangle" (AddNode.kind p))) Kinds = Some kd →
  ∃ c geo,
    node_of (addNode g p) = Some c ∧ cell_geometry c = Some geo
    ∧ cell_vertex c = true ∧ cell_edge c = false
    ∧ cell_value c = AddNode.title p
    ∧ geo_x geo = VNum (default 10 (AddNode.x p))
    ∧ geo_y geo = VNum (default 10 (AddNode.y p))
    ∧ geo_width geo = match obj_get "width" (AddNode.rest p) with
                      | Some v => if nullish v then VNum 0 else v
                      | None => VNum (Kind.width kd)
                      end
    ∧ geo_height geo = match obj_get "height" (AddNode.rest p) with
                       | Some v => if nullish v then VNum 0 else v
                       | None => VNum (Kind.height kd)
                       end
    ∧ geo_relative geo = false ∧ geo_points geo = None.
Proof.
  intros _ Hkd. eexists _, _. split; [apply addNode_node|].
  unfold addedNode, merged. rewrite Hkd. cbn [cell_geometry]. split; [reflexivity|].
  unfold mxGeometry. cbn.
  repeat split; by destruct (obj_get _ (AddNode.rest p)).
Qed.

Lemma addNode_geometry_witness :
  ∃ c geo,
    node_of (addNode empty
      (AddNode.mk "db" (Some "Store") None (Some "Cylinder") (Some 40) None VUndef
                  [("width", VUndef); ("fillColor", VStr "#dae8fc")])) = Some c
    ∧ cell_geometry c = Some geo
    ∧ geo_x geo = VNum 40 ∧ geo_y geo = VNum 10
    ∧ geo_width geo = VNum 0 ∧ geo_height geo = VNum 80.
Proof.
  destruct (addNode_geometry empty
      (AddNode.mk "db" (Some "Store") None (Some "Cylinder") (Some 40) None VUndef
                  [("width", VUndef); ("fillColor", VStr "#dae8fc")])
      (Kind.mk (Prim (VStr "shape=cylinder3;whiteSpace=wrap;html=1;boundedLbl=1;backgroundOutline=1;size=15;")) 60 80))
    as (c & geo & Hc & Hg & _ & _ & _ & Hx & Hy & Hw & Hh & _).
  - reflexivity.
  - reflexivity.
  - exists c, geo. repeat split; assumption.
Defined.

(** X10: the parent of the node [addNode] makes is the default layer when
    [parent] is left out, is ["root"], or names no cell (nor a member of
    [Object.prototype]); it is the named cell otherwise. *)
Theorem addNode_parent (g : Model) (p : AddNode.Params) :
  (∀ q, AddNode.parent p = Some q → getCell g q = None → prototype_member q = false) →
  ∃ c, node_of (addNode g p) = Some c
       ∧ cell_parent c
         = Some (match AddNode.parent p with
                 | Some q =>
                     if String.eqb q "root" then root g
                     else match getCell g q with
                          | Some _ => q
                          | None => root g
                          end
                 | None => root g
                 end).
Proof.
  intros _. eexists. split; [apply addNode_node|]. unfold addedNode. cbn [cell_parent].
  destruct (AddNode.parent p) as [q|]; [|done]. cbn [from_option id].
  destruct (String.eqb q "root"); [done|]. unfold getRef.
  by destruct (getCell g q).
Qed.

Lemma addNode_parent_witness :
  (∃ c, node_of (addNode svc_db
                   (AddNode.mk "cache" (Some "Cache") (Some "db") (Some "Cylinder")
                               None None VUndef [])) = Some c
        ∧ cell_parent c = Some "db")
  ∧ (∃ c, node_of (addNode svc_db
                     (AddNode.mk "cache" (Some "Cache") (Some "web") (Some "Cylinder")
                                 None None VUndef [])) = Some c
          ∧ cell_parent c = Some "1").
Proof.
  split.
  - apply (addNode_parent svc_db
             (AddNode.mk "cache" (Some "Cache") (Some "db") (Some "Cylinder")
                         None None VUndef [])).
    intros q [= <-] Hq. vm_compute in Hq. discriminate Hq.
  - apply (addNode_parent svc_db
             (AddNode.mk "cache" (Some "Cache") (Some "web") (Some "Cylinder")
                         None None VUndef [])).
    intros q [= <-] _. reflexivity.
Defined.

Lemma lookup_kind_elem (n : string) (kd : Kind.t) :
  lookup_kind n Kinds = Some kd → (n, kd) ∈ Kinds.
Proof.
  generalize Kinds. intros l. induction l as [|[n' k'] l IH]; cbn [lookup_kind]; [done|].
  destruct (String.eqb_spec n n') as [->|Hne].
  - intros [= ->]. apply elem_of_cons. by left.
  - intros H. apply elem_of_cons. right. by apply IH.
Qed.

Lemma lookup_kind_unknown (n : string) :
  lookup_kind n Kinds = None → String.eqb n KIND_ROUNDED_RECTANGLE = false.
Proof.
  intros H. apply String.eqb_neq. intros ->. vm_compute in H. discriminate H.
Qed.

Lemma merge_undefined (rest : JsObj) :
  mergeStyleOverrides (Prim VUndef) (pickStyleOverrides rest)
  = match pickStyleOverrides rest with
    | [] => Prim VUndef
    | ovs => Prim (VStr (stringifyStyle (override_texts ovs)))
    end.
Proof.
  unfold mergeStyleOverrides. rewrite pick_defined.
  destruct (pickStyleOverrides_spec rest) as [Hnd _].
  destruct (pickStyleOverrides rest) as [|d ds]; [done|].
  fold override. cbn [parseStyle]. rewrite fold_override_fresh; [done|done|].
  intros k _. apply not_elem_of_nil.
Qed.

(** X11: a kind that the catalog does not have makes [addNode] raise
    nothing: with no [style], [width] or [height] in [rest], the node is 0
    wide and 0 high, and its style is [undefined], or the text of the style
    overrides alone when some are given. *)
Theorem addNode_unknown_kind (g : Model) (p : AddNode.Params) :
  lookup_kind (normalizeKind (default "Rectangle" (AddNode.kind p))) Kinds = None →
  obj_get "style" (AddNode.rest p) = None →
  obj_get "width" (AddNode.rest p) = None →
  obj_get "height" (AddNode.rest p) = None →
  ∃ c geo,
    node_of (addNode g p) = Some c ∧ cell_geometry c = Some geo
    ∧ geo_width geo = VNum 0 ∧ geo_height geo = VNum 0
    ∧ cell_style c
      = match pickStyleOverrides (AddNode.rest p) with
        | [] => Prim VUndef
        | ovs => Prim (VStr (stringifyStyle (override_texts ovs)))
        end.
Proof.
  intros Hkd Hs Hw Hh. eexists _, _. split; [apply addNode_node|].
  unfold addedNode, merged. rewrite Hkd, Hs, Hw, Hh. cbn [cell_geometry cell_style].
  split; [reflexivity|]. split; [reflexivity|]. split; [reflexivity|].
  unfold adjustStyleByKind. rewrite (lookup_kind_unknown _ Hkd).
  apply merge_undefined.
Qed.

Lemma addNode_unknown_kind_witness :
  ∃ c geo,
    node_of (addNode empty
      (AddNode.mk "q" (Some "Queue") None (Some "Hexagon") None None VUndef
                  [("fillColor", VStr "#dae8fc")])) = Some c
    ∧ cell_geometry c = Some geo
    ∧ geo_width geo = VNum 0 ∧ geo_height geo = VNum 0
    ∧ cell_style c = Prim (VStr "fillColor=#dae8fc;").
Proof.
  apply (addNode_unknown_kind empty
      (AddNode.mk "q" (Some "Queue") None (Some "Hexagon") None None VUndef
                  [("fillColor", VStr "#dae8fc")])); reflexivity.
Defined.

Lemma merge_shape (style : JsAny) (rest : JsObj) :
  match pickStyleOverrides rest with
  | [] => mergeStyleOverrides style (pickStyleOverrides rest) = style
  | _ => ∃ s, mergeStyleOverrides style (pickStyleOverrides rest) = Prim (VStr s)
  end.
Proof.
  unfold mergeStyleOverrides. rewrite pick_defined.
  destruct (pickStyleOverrides rest); [done|by eexists].
Qed.

Lemma catalog_styles (n : string) (kd : Kind.t) :
  lookup_kind n Kinds = Some kd →
  (∃ o, Kind.style kd = Obj o ∧ String.eqb n KIND_ROUNDED_RECTANGLE = false)
  ∨ ∃ s, Kind.style kd = Prim (VStr s).
Proof.
  intros H%lookup_kind_elem. unfold Kinds in H.
  repeat (apply elem_of_cons in H as [[= -> ->]|H]);
    try (by apply elem_of_nil in H);
    try (right; by eexists); left; by eexists.
Qed.

(** X12: for a kind of the catalog and no [style] in [rest], [addNode]
    stores the style as text, except in one case: a kind whose template is
    an object (Rectangle, Ellipse) with no style override, where the
    object itself is stored. *)
Theorem addNode_style_stored (g : Model) (p : AddNode.Params) (kd : Kind.t) :
  lookup_kind (normalizeKind (default "Rectangle" (AddNode.kind p))) Kinds = Some kd →
  obj_get "style" (AddNode.rest p) = None →
  ∃ c, node_of (addNode g p) = Some c
       ∧ match Kind.style kd, pickStyleOverrides (AddNode.rest p) with
         | Obj o, [] => cell_style c = Obj o
         | _, _ => ∃ s, cell_style c = Prim (VStr s)
         end.
Proof.
  intros Hkd Hs. eexists. split; [apply addNode_node|].
  unfold addedNode, merged. rewrite Hkd, Hs. cbn [cell_style].
  set (kind := normalizeKind _) in *.
  pose proof (merge_shape (adjustStyleByKind (Kind.style kd) kind (AddNode.corner_radius p))
                (AddNode.rest p)) as Hm.
  destruct (catalog_styles _ _ Hkd) as [(o & Ho & Hr)|[s Ho] ]; rewrite Ho in *.
  - unfold adjustStyleByKind in *. rewrite Hr in *.
    destruct (pickStyleOverrides (AddNode.rest p)); [done|]. exact Hm.
  - assert (∃ s', adjustStyleByKind (Prim (VStr s)) kind (AddNode.corner_radius p)
                  = Prim (VStr s')) as [s' Hs'].
    { unfold adjustStyleByKind. destruct (String.eqb kind _); by eexists. }
    rewrite Hs' in *.
    destruct (pickStyleOverrides (AddNode.rest p)); [by eexists|exact Hm].
Qed.

Lemma addNode_style_stored_witness :
  (∃ c, node_of (addNode empty (node "e" "Elipse")) = Some c
        ∧ cell_style c = Obj [("ellipse", VStr ""); ("whiteSpace", VStr "wrap");
                              ("html", VNum 1)])
  ∧ (∃ c s, node_of (addNode empty (node "c" "Cloud")) = Some c
            ∧ cell_style c = Prim (VStr s)).
Proof.
  split.
  - destruct (addNode_style_stored empty (node "e" "Elipse")
                (Kind.mk (Obj [("ellipse", VStr ""); ("whiteSpace", VStr "wrap");
                               ("html", VNum 1)]) 120 80)) as (c & Hc & Hs);
      [reflexivity|reflexivity|]. by exists c.
  - destruct (addNode_style_stored empty (node "c" "Cloud")
                (Kind.mk (Prim (VStr "ellipse;shape=cloud;whiteSpace=wrap;html=1;")) 120 80))
      as (c & Hc & s & Hs); [reflexivity|reflexivity|]. by exists c, s.
Defined.

Lemma as_text_string (s : string) : as_text (VStr s) = s.
Proof. unfold as_text. simpl. by destruct (String.eqb_spec s "") as [->|]. Qed.

Lemma flattened_cons (k : string) (v : JsVal) (o : JsObj) :
  flattened ((k, v) :: o)
  = if is_undefined v then flattened o else (k, VStr (as_text v)) :: flattened o.
Proof. unfold flattened. cbn [List.filter snd]. by destruct (is_undefined v). Qed.

Lemma flattened_obj_set (k t : string) (o : JsObj) :
  Forall (fun kv => kv.2 ≠ VUndef) o →
  flattened (obj_set k (VStr t) o) = obj_set k (VStr t) (flattened o).
Proof.
  induction 1 as [|[k' v'] o Hv _ IH].
  - cbn [obj_set]. unfold flattened. simpl. by rewrite as_text_string.
  - assert (is_undefined v' = false) as Hd by (by destruct v').
    cbn [obj_set]. rewrite (flattened_cons k' v'), Hd. cbn [obj_set].
    destruct (String.eqb k k').
    + by rewrite flattened_cons, as_text_string.
    + by rewrite flattened_cons, Hd, IH.
Qed.

Lemma defined_obj_set (k : string) (v : JsVal) (o : JsObj) :
  v ≠ VUndef → Forall (fun kv => kv.2 ≠ VUndef) o →
  Forall (fun kv : string * JsVal => kv.2 ≠ VUndef) (obj_set k v o).
Proof. intros. by apply Forall_obj_set. Qed.

Lemma flattened_fold_override (ovs o : JsObj) :
  Forall (fun kv => kv.2 ≠ VUndef) o →
  flattened (fold_left override ovs o) = fold_left override ovs (flattened o).
Proof.
  revert o. induction ovs as [|[k v] ovs IH]; intros o Ho; [done|].
  cbn [fold_left]. rewrite IH.
  - unfold override at 2 4. cbn [fst snd]. by rewrite flattened_obj_set.
  - unfold override. by apply defined_obj_set.
Qed.

(** The attributes of a style after the overrides picked from [rest] are
    merged in, for a style that is text or an object. *)
Lemma merge_lookup_any (style : JsAny) (rest : JsObj) (k : string) :
  NoDup (keys (parseStyle style)) →
  Forall text_safe (parseStyle style) →
  Forall (fun kv => kv.2 ≠ VUndef) (parseStyle style) →
  Forall (fun kv => delimiter_free (ToString kv.2) = true) (pickStyleOverrides rest) →
  pickStyleOverrides rest ≠ [] →
  obj_get k (parseStyle (mergeStyleOverrides style (pickStyleOverrides rest)))
  = match obj_get k (pickStyleOverrides rest) with
    | Some v => Some (VStr (ToString v))
    | None => obj_get k (flattened (parseStyle style))
    end.
Proof.
  intros Hnd Hsafe Hdef Hclean Hne. unfold mergeStyleOverrides. rewrite pick_defined.
  destruct (pickStyleOverrides_spec rest) as [Hnd' Hspec].
  assert (Forall (fun kv => In kv.1 STYLE_OVERRIDE_KEYS
                            ∧ delimiter_free (ToString kv.2) = true)
                 (pickStyleOverrides rest)) as Hovs.
  { rewrite Forall_forall in *. intros kv Hin. split; [by apply Hspec|by apply Hclean]. }
  destruct (pickStyleOverrides rest) as [|d ds] eqn:Hp; [done|].
  fold override. rewrite stringify_flattened, flattened_fold_override by done.
  assert (NoDup (keys (flattened (parseStyle style)))) as Hnd2
    by exact (sublist_NoDup _ _ Hnd (keys_flattened_sub _)).
  pose proof (flattened_safe _ Hsafe) as Hsafe2.
  destruct (fold_override_inv (d :: ds) _ Hovs Hnd2 Hsafe2) as (H1 & H2 & _).
  rewrite parse_stringify by done. by apply fold_override_lookup.
Qed.

Lemma catalog_templates (n : string) (kd : Kind.t) :
  lookup_kind n Kinds = Some kd →
  NoDup (keys (parseStyle (Kind.style kd)))
  ∧ Forall text_safe (parseStyle (Kind.style kd))
  ∧ Forall (fun kv => kv.2 ≠ VUndef) (parseStyle (Kind.style kd)).
Proof.
  intros H%lookup_kind_elem. unfold Kinds in H.
  repeat (apply elem_of_cons in H as [[= -> ->]|H]);
    try (by apply elem_of_nil in H);
    (split; [by_evaluation|split; by_evaluation]).
Qed.

(** X13: for a kind of the catalog, no [style] in [rest] and at least one
    style override, none of which holds [;] or [=], the style of the node
    [addNode] makes reads, attribute by attribute: the [String] of the
    override under each override key, and the text of the kind's template
    under every other key ([arcSize] and [absoluteArcSize], which the
    corner radius sets, apart). *)
Theorem addNode_overrides_applied (g : Model) (p : AddNode.Params) (kd : Kind.t)
    (k : string) :
  lookup_kind (normalizeKind (default "Rectangle" (AddNode.kind p))) Kinds = Some kd →
  plain_rest (AddNode.rest p) →
  pickStyleOverrides (AddNode.rest p) ≠ [] →
  k ≠ PROP_ARC_SIZE → k ≠ PROP_ABSOLUTE_ARC_SIZE →
  ∃ c, node_of (addNode g p) = Some c
       ∧ style_attr k c
         = match obj_get k (pickStyleOverrides (AddNode.rest p)) with
           | Some v => Some (VStr (ToString v))
           | None => obj_get k (flattened (parseStyle (Kind.style kd)))
           end.
Proof.
  intros Hkd [Hs Hclean] Hne Hk1 Hk2. eexists. split; [apply addNode_node|].
  unfold style_attr, addedNode, merged. rewrite Hkd, Hs. cbn [cell_style].
  set (kind := normalizeKind _) in *.
  destruct (catalog_templates _ _ Hkd) as (Hnd & Hsafe & Hdef).
  unfold adjustStyleByKind.
  destruct (String.eqb kind KIND_ROUNDED_RECTANGLE) eqn:Hr.
  - apply String.eqb_eq in Hr. rewrite Hr in Hkd. injection Hkd as <-.
    clear Hnd Hsafe Hdef.
    change (parseStyle (Kind.style _)) with (roundedStyle 24).
    assert (flattened (roundedStyle 24) = roundedStyle 24) as -> by reflexivity.
    destruct (roundedStyle_safe 24) as [Hnd Hsafe].
    destruct (is_undefined (AddNode.corner_radius p)).
    + by rewrite merge_picked_lookup.
    + destruct (adjusted_safe _ (arcSize_of (parseInt (ToString (AddNode.corner_radius p))))
                  Hnd Hsafe) as [H1 H2].
      change (ToString (VNum ?a)) with (pretty a).
      rewrite merge_picked_lookup by done.
      destruct (obj_get k (pickStyleOverrides (AddNode.rest p))); [done|].
      by rewrite !obj_get_set_ne.
  - by apply merge_lookup_any.
Qed.

Lemma addNode_overrides_applied_witness :
  (∃ c, node_of (addNode empty
          (AddNode.mk "t" (Some "Note") None (Some "Text") None None VUndef
                      [("fillColor", VStr "#fff2cc")])) = Some c
        ∧ style_attr "fillColor" c = Some (VStr "#fff2cc"))
  ∧ (∃ c, node_of (addNode empty
            (AddNode.mk "r" (Some "Box") None (Some "Rectangle") None None VUndef
                        [("opacity", VNum 50)])) = Some c
          ∧ style_attr "html" c = Some (VStr "1")).
Proof.
  split.
  - apply (addNode_overrides_applied empty
          (AddNode.mk "t" (Some "Note") None (Some "Text") None None VUndef
                      [("fillColor", VStr "#fff2cc")])
          (Kind.mk (Prim (VStr "text;html=1;strokeColor=none;fillColor=none;align=center;verticalAlign=middle;whiteSpace=wrap;rounded=0;")) 60 30)
          "fillColor"); try done.
    split; [reflexivity|by_evaluation].
  - apply (addNode_overrides_applied empty
            (AddNode.mk "r" (Some "Box") None (Some "Rectangle") None None VUndef
                        [("opacity", VNum 50)])
            (Kind.mk (Obj [("rounded", VNum 1); ("whiteSpace", VStr "wrap"); ("html", VNum 1)])
                     120 60)
            "html"); try done.
    split; [reflexivity|by_evaluation].
Defined.

(** ** linkNodes *)

Lemma ltb_lex_le a b : String.ltb b a = negb (lex_le a b).
Proof.
  unfold String.ltb. revert b. induction a as [|x a IH]; intros [|y b]; simpl; try done.
  unfold Ascii.compare. rewrite (N.compare_antisym (N_of_ascii x)).
  rewrite N.ltb_compare, N.eqb_compare.
  destruct (N.compare (N_of_ascii x) (N_of_ascii y)) eqn:Hc; simpl; done.
Qed.

Lemma idCanonical_spec a b : idCanonical a b = canonical_id a b.
Proof.
  unfold idCanonical, canonical_id, lex_min, lex_max, sort. simpl.
  unfold str_lt. rewrite ltb_lex_le. by destruct (lex_le a b).
Qed.

Lemma lex_le_total a b : lex_le a b = false → lex_le b a = true.
Proof.
  revert b. induction a as [|x a IH]; intros [|y b]; simpl; try done.
  intros H. apply orb_false_iff in H as [H1 H2].
  apply N.ltb_ge in H1.
  destruct (N.eqb_spec (N_of_ascii x) (N_of_ascii y)) as [Heq|Hne]; simpl in H2.
  - rewrite Heq, N.eqb_refl, (IH _ H2). by rewrite orb_true_r.
  - assert (N_of_ascii y < N_of_ascii x)%N as ->%N.ltb_lt by lia. done.
Qed.

Lemma lex_le_antisym a b : lex_le a b = true → lex_le b a = true → a = b.
Proof.
  revert b. induction a as [|x a IH]; intros [|y b]; simpl; try done.
  intros H1 H2.
  destruct (N.ltb_spec (N_of_ascii x) (N_of_ascii y)) as [Hlt|Hge]; simpl in H1.
  - assert ((N_of_ascii y <? N_of_ascii x)%N = false) as Hf by (apply N.ltb_ge; lia).
    assert ((N_of_ascii y =? N_of_ascii x)%N = false) as Hg by (apply N.eqb_neq; lia).
    by rewrite Hf, Hg in H2.
  - apply andb_true_iff in H1 as [Heq%N.eqb_eq H1].
    rewrite Heq, N.ltb_irrefl, N.eqb_refl in H2. simpl in H2.
    f_equal; [|by apply IH].
    by rewrite <- (ascii_N_embedding x), <- (ascii_N_embedding y), Heq.
Qed.

Lemma idCanonical_sym a b : idCanonical a b = idCanonical b a.
Proof.
  rewrite !idCanonical_spec. unfold canonical_id, lex_min, lex_max.
  destruct (lex_le a b) eqn:Hab, (lex_le b a) eqn:Hba; try done.
  - by rewrite (lex_le_antisym _ _ Hab Hba).
  - by rewrite (lex_le_total _ _ Hab) in Hba.
Qed.

Lemma idCanonical_cases a b :
  idCanonical a b = idDirect a b ∨ idCanonical a b = idReverse a b.
Proof.
  rewrite idCanonical_spec. unfold canonical_id, lex_min, lex_max, idDirect, idReverse.
  destruct (lex_le a b); auto.
Qed.

Lemma getCell_store g id c : getCell (store g id c) id = Some c.
Proof. unfold getCell, store. simpl. apply lookup_insert_eq. Qed.

Lemma getCell_store_ne g id c k : id ≠ k → getCell (store g id c) k = getCell g k.
Proof. intros. unfold getCell, store. simpl. by apply lookup_insert_ne. Qed.

Lemma store_store g id c c' : store (store g id c) id c' = store g id c'.
Proof. unfold store. simpl. by rewrite insert_insert_eq. Qed.

Lemma getRef_Some g k l : getRef g k = Some l → l = k ∧ is_Some (getCell g k).
Proof. unfold getRef. destruct (getCell g k); naive_solver. Qed.

Lemma getRef_None g k : getRef g k = None ↔ getCell g k = None.
Proof. unfold getRef. destruct (getCell g k); naive_solver. Qed.

Lemma getRef_is_Some g k : is_Some (getCell g k) → getRef g k = Some k.
Proof. unfold getRef. intros [c ->]. done. Qed.

Lemma existing_None g a b :
  existing g a b = None ↔
  getCell g (idDirect a b) = None ∧ getCell g (idReverse a b) = None
  ∧ getCell g (idCanonical a b) = None.
Proof.
  unfold existing. rewrite <- !getRef_None.
  destruct (getRef g (idDirect a b)), (getRef g (idReverse a b)),
    (getRef g (idCanonical a b)); split; intros H; try done;
    by destruct H as (? & ? & ?).
Qed.

Lemma existing_Some g a b l :
  existing g a b = Some l →
  is_Some (getCell g l) ∧
  (l = idDirect a b
   ∨ (getCell g (idDirect a b) = None ∧ l = idReverse a b)).
Proof.
  unfold existing.
  destruct (getRef g (idDirect a b)) as [l1|] eqn:H1.
  { intros [= <-]. apply getRef_Some in H1 as [-> ?]. auto. }
  apply getRef_None in H1.
  destruct (getRef g (idReverse a b)) as [l2|] eqn:H2.
  { intros [= <-]. apply getRef_Some in H2 as [-> ?]. auto. }
  apply getRef_None in H2.
  intros [-> H3]%getRef_Some. split; [done|].
  destruct (idCanonical_cases a b) as [Hc|Hc]; rewrite Hc in *; auto.
Qed.

Lemma linkNodes_existing g p l c :
  existing g (LinkNodes.from p) (LinkNodes.to p) = Some l →
  getCell g l = Some c →
  linkNodes g p = Ok (store g l (linkedCell g p (Some c)), l).
Proof.
  intros He Hc. unfold linkNodes, linkedCell. rewrite He, Hc.
  destruct (LinkNodes.title p) as [t|]; simpl.
  - by rewrite getCell_store, store_store.
  - by rewrite Hc.
Qed.

Lemma linkNodes_new g p :
  existing g (LinkNodes.from p) (LinkNodes.to p) = None →
  linkNodes g p = Ok (store g (idToUse p) (linkedCell g p None), idToUse p).
Proof.
  intros He. unfold linkNodes, linkedCell. rewrite He.
  fold (idToUse p). 
  assert (cells g !! idToUse p = None) as Hfresh.
  { apply existing_None in He as (H1 & H2 & H3). unfold idToUse.
    by destruct (default false (LinkNodes.undirected p)). }
  unfold insertEdge, cellAdded. rewrite Hfresh. simpl.
  unfold getCell at 1. simpl. rewrite lookup_insert_eq.
  unfold store. simpl. by rewrite insert_insert_eq.
Qed.

(** Every call returns. *)
Lemma linkNodes_total g p :
  ∃ c, linkNodes g p =
       Ok (store g (default (idToUse p) (existing g (LinkNodes.from p) (LinkNodes.to p)))
                 (linkedCell g p c),
           default (idToUse p) (existing g (LinkNodes.from p) (LinkNodes.to p))).
Proof.
  destruct (existing g (LinkNodes.from p) (LinkNodes.to p)) as [l|] eqn:He.
  - destruct (existing_Some _ _ _ _ He) as [[c Hc] _].
    exists (Some c). by apply linkNodes_existing.
  - exists None. by apply linkNodes_new.
Qed.

Lemma idReverse_refl a : idReverse a a = idDirect a a.
Proof. done. Qed.

Lemma getCell_store_is_Some g l c k :
  is_Some (getCell (store g l c) k) ↔ l = k ∨ is_Some (getCell g k).
Proof.
  destruct (decide (l = k)) as [->|Hne].
  - rewrite getCell_store. split; [by left | by eexists].
  - rewrite getCell_store_ne by done. split; [by right|]. by intros [?|?].
Qed.

Lemma settled_first g p :
  let a := LinkNodes.from p in
  let b := LinkNodes.to p in
  a = b ∨ getCell g (idDirect a b) = None ∨ getCell g (idReverse a b) = None →
  settled g a b (default (idToUse p) (existing g a b)).
Proof.
  simpl. unfold idToUse. generalize (LinkNodes.from p) as a, (LinkNodes.to p) as b.
  intros a b Hpre.
  destruct (existing g a b) as [l|] eqn:He; simpl.
  - destruct (existing_Some _ _ _ _ He) as [Hl [Hd | [Hd Hr] ]]; subst l.
    + split; [auto|]. intros k [Hk | Hk] Hsome; subst k; [done|].
      destruct Hpre as [Hpre | [Hpre | Hpre] ].
      * subst b. reflexivity.
      * rewrite Hpre in Hl. by destruct Hl.
      * rewrite Hpre in Hsome. by destruct Hsome.
    + split; [auto|]. intros k [Hk | Hk] Hsome; subst k; [|done].
      rewrite Hd in Hsome. by destruct Hsome.
  - apply existing_None in He as (H1 & H2 & H3). split.
    + destruct (default false (LinkNodes.undirected p)); [|auto].
      apply idCanonical_cases.
    + intros k [Hk | Hk] Hsome; subst k.
      * rewrite H1 in Hsome. by destruct Hsome.
      * rewrite H2 in Hsome. by destruct Hsome.
Qed.

Lemma existing_settled g a b l c :
  settled g a b l → existing (store g l c) b a = Some l.
Proof.
  intros [Hl Huniq]. unfold existing.
  change (idDirect b a) with (idReverse a b).
  change (idReverse b a) with (idDirect a b).
  destruct (getRef (store g l c) (idReverse a b)) as [l1|] eqn:H1.
  { apply getRef_Some in H1 as [-> H1]. f_equal.
    apply getCell_store_is_Some in H1 as [H1 | H1]; [done|]. apply Huniq; auto. }
  apply getRef_None in H1.
  destruct (getRef (store g l c) (idDirect a b)) as [l2|] eqn:H2.
  { apply getRef_Some in H2 as [-> H2]. f_equal.
    apply getCell_store_is_Some in H2 as [H2 | H2]; [done|]. apply Huniq; auto. }
  apply getRef_None in H2.
  destruct Hl as [Hl | Hl]; subst l.
  - by rewrite getCell_store in H2.
  - by rewrite getCell_store in H1.
Qed.

(** The cell a call leaves is the one it found, or a new one, with the
    title, the style and the waypoints of the call. *)
Lemma linkNodes_result g p :
  let l := default (idToUse p) (existing g (LinkNodes.from p) (LinkNodes.to p)) in
  linkNodes g p = Ok (store g l (linkedCell g p (getCell g l)), l).
Proof.
  simpl. destruct (existing g (LinkNodes.from p) (LinkNodes.to p)) as [l|] eqn:He.
  - destruct (existing_Some _ _ _ _ He) as [[c Hc] _]. simpl. rewrite Hc.
    by apply linkNodes_existing.
  - simpl. assert (getCell g (idToUse p) = None) as ->.
    { apply existing_None in He as (H1 & H2 & H3). unfold idToUse.
      by destruct (default false (LinkNodes.undirected p)). }
    by apply linkNodes_new.
Qed.

(** The value [linkNodes] leaves on the edge: a title that is given, on an
    edge that it found; a title that is given and not empty, on an edge
    that it makes. *)
Lemma linkedCell_label g p c :
  cell_value (linkedCell g p c)
  = match c with
    | Some c0 => match LinkNodes.title p with
                 | Some t => Some t
                 | None => cell_value c0
                 end
    | None => if truthy_str (LinkNodes.title p) then LinkNodes.title p else None
    end.
Proof.
  unfold linkedCell, finishLink.
  destruct c as [c0|], (LinkNodes.title p) as [t|],
    (LinkNodes.waypoints p) as [ [|w ws]|]; cbn; try done;
    try (by destruct (cell_geometry c0)); by destruct (negb (String.eqb t "")).
Qed.

(** C1, amended: in every diagram that does not hold cells under both
    [A-2-B] and [B-2-A], [linkNodes(A,B)] followed by [linkNodes(B,A)], with
    any titles and styles, leaves one cell under the candidate identifiers:
    the second call makes no cell and returns the identifier the first
    call returned, and the label of the edge is the last title supplied,
    that of the first call when the second gives none. *)
Theorem relink_mutates_same_edge (g : Model) (p1 p2 : LinkNodes.Params) :
  LinkNodes.from p2 = LinkNodes.to p1 →
  LinkNodes.to p2 = LinkNodes.from p1 →
  (LinkNodes.from p1 = LinkNodes.to p1
   ∨ getCell g (idDirect (LinkNodes.from p1) (LinkNodes.to p1)) = None
   ∨ getCell g (idReverse (LinkNodes.from p1) (LinkNodes.to p1)) = None) →
  relink_same_edge g p1 p2.
Proof.
  intros Hfrom Hto Hpre. unfold relink_same_edge.
  pose proof (settled_first g p1 Hpre) as Hs. simpl in Hs.
  rewrite (linkNodes_result g p1).
  set (l := default (idToUse p1) _) in *.
  set (c1 := linkedCell g p1 (getCell g l)).
  assert (existing (store g l c1) (LinkNodes.from p2) (LinkNodes.to p2) = Some l) as He.
  { rewrite Hfrom, Hto. by apply existing_settled. }
  rewrite (linkNodes_existing _ _ _ _ He (getCell_store _ _ _)).
  cbv beta iota. rewrite store_store, getCell_store.
  cbn [fmap option_fmap option_map]. unfold last_title, label.
  rewrite (linkedCell_label _ p2 (Some c1)). subst c1.
  rewrite !(linkedCell_label g p1).
  split; [done|]. split; [|split; [|split; [|split] ] ].
  - unfold store. simpl. by rewrite !dom_insert_L.
  - intros k Hk Hsome. destruct Hs as [_ Hu].
    apply getCell_store_is_Some in Hsome as [Hsome | Hsome]; [done|].
    apply Hu; [|done]. unfold candidates in Hk. simpl in Hk.
    destruct (idCanonical_cases (LinkNodes.from p1) (LinkNodes.to p1)) as [Hc|Hc];
      rewrite Hc in Hk; intuition.
  - by intros t ->.
  - intros t. destruct (LinkNodes.title p2) as [t2|]; [by intros [= ->]|].
    intros ->. destruct (getCell g l); [done|]. cbn [truthy_str].
    by destruct (String.eqb_spec t "") as [->|Hne].
  - destruct (LinkNodes.title p2) as [t2|]; [done|]. intros ->.
    by destruct (getCell g l).
Qed.

(** C1, as stated, fails on a diagram that holds a cell under each order
    of the pair: the two calls settle on different edges. *)
Lemma relink_counterexample :
  ¬ relink_same_edge crossed (link "a-2-b" "c" (Some "queries"))
                             (link "c" "a-2-b" (Some "reads")).
Proof. unfold relink_same_edge. vm_compute. intros [H _]. discriminate H. Qed.

Lemma linkedCell_new_edge g p :
  cell_edge (linkedCell g p None) = true
  ∧ cell_source (linkedCell g p None) = getRef g (LinkNodes.from p)
  ∧ cell_target (linkedCell g p None) = getRef g (LinkNodes.to p).
Proof.
  unfold linkedCell, finishLink.
  by destruct (LinkNodes.waypoints p) as [[|w ws]|].
Qed.

(** C3: when no cell exists under the direct, the reverse or the canonical
    identifier, [linkNodes] makes a new edge; with [undirected] true its
    identifier is [min-2-max] for the lexicographic order of the two ids,
    and with [undirected] not set it is [A-2-B]. *)
Theorem new_edge_identifier (g : Model) (p : LinkNodes.Params) :
  let A := LinkNodes.from p in
  let B := LinkNodes.to p in
  getCell g (idDirect A B) = None →
  getCell g (idReverse A B) = None →
  getCell g (idCanonical A B) = None →
  ∃ g' l c,
    linkNodes g p = Ok (g', l) ∧ getCell g' l = Some c ∧ getCell g l = None
    ∧ cell_edge c = true
    ∧ cell_source c = getRef g A ∧ cell_target c = getRef g B
    ∧ (LinkNodes.undirected p = Some true → l = canonical_id A B)
    ∧ (LinkNodes.undirected p = None → l = A +:+ "-2-" +:+ B)
    ∧ (LinkNodes.undirected p = Some false → l = A +:+ "-2-" +:+ B).
Proof.
  intros A B H1 H2 H3.
  assert (existing g A B = None) as He by (by apply existing_None).
  exists (store g (idToUse p) (linkedCell g p None)), (idToUse p), (linkedCell g p None).
  split; [by apply linkNodes_new|]. split; [apply getCell_store|].
  destruct (linkedCell_new_edge g p) as (Hedge & Hs & Ht).
  unfold idToUse. fold A B.
  split.
  { by destruct (default false (LinkNodes.undirected p)). }
  do 3 (split; [done|]).
  split; [|split]; intros ->; simpl; [apply idCanonical_spec|done|done].
Qed.

(** C5, as stated, fails: on a diagram without the two nodes the call
    returns. *)
Lemma missing_endpoint_counterexample :
  ¬ rejects_missing_endpoint empty (link "svc" "db" (Some "queries")).
Proof.
  intros H. destruct H as [e He]; [by left|].
  vm_compute in He. discriminate He.
Qed.

(** C5, amended: [linkNodes] does not check its endpoints.  When [from] or
    [to] does not resolve (neither names a member of [Object.prototype]),
    the call still returns the identifier of a cell of the diagram; when
    no cell exists under the three candidate identifiers, that cell is a
    new edge whose terminal is unset on each side that does not resolve. *)
Theorem link_missing_endpoint (g : Model) (p : LinkNodes.Params) :
  prototype_member (LinkNodes.from p) = false →
  prototype_member (LinkNodes.to p) = false →
  getCell g (LinkNodes.from p) = None ∨ getCell g (LinkNodes.to p) = None →
  ∃ g' l c,
    linkNodes g p = Ok (g', l) ∧ getCell g' l = Some c
    ∧ (existing g (LinkNodes.from p) (LinkNodes.to p) = None →
       l = idToUse p ∧ getCell g l = None ∧ cell_edge c = true
       ∧ cell_source c = getRef g (LinkNodes.from p)
       ∧ cell_target c = getRef g (LinkNodes.to p)
       ∧ (getCell g (LinkNodes.from p) = None → cell_source c = None)
       ∧ (getCell g (LinkNodes.to p) = None → cell_target c = None))
    ∧ (∀ l0, existing g (LinkNodes.from p) (LinkNodes.to p) = Some l0 →
             l = l0 ∧ is_Some (getCell g l0)
             ∧ dom (cells g') = dom (cells g)).
Proof.
  intros _ _ _.
  destruct (existing g (LinkNodes.from p) (LinkNodes.to p)) as [l|] eqn:He.
  - destruct (existing_Some _ _ _ _ He) as [[c Hc] _].
    eexists _, _, _. split; [by apply linkNodes_existing|].
    split; [apply getCell_store|]. split; [done|].
    intros l0 [= <-]. split; [done|]. split; [by eexists|].
    unfold store. simpl. rewrite dom_insert_L.
    apply (elem_of_dom_2 (cells g)) in Hc.
    by apply subseteq_union_1_L, singleton_subseteq_l.
  - eexists _, _, _. split; [by apply linkNodes_new|].
    split; [apply getCell_store|]. split; [|done]. intros _.
    destruct (linkedCell_new_edge g p) as (Hedge & Hs & Ht).
    split; [done|]. split.
    { apply existing_None in He as (H1 & H2 & H3). unfold idToUse.
      by destruct (default false (LinkNodes.undirected p)). }
    do 3 (split; [done|]).
    split; intros Hn; [rewrite Hs|rewrite Ht]; by apply getRef_None.
Qed.

Lemma relink_mutates_same_edge_witness :
  relink_same_edge svc_db (link "svc" "db" (Some "queries"))
                   (link "db" "svc" (Some "reads")).
Proof.
  apply relink_mutates_same_edge; [reflexivity | reflexivity |].
  right. left. by vm_compute.
Defined.

(** Scenario 3 of the spec. *)
Example relink_svc_db :
  match linkNodes svc_db_linked (link "db" "svc" (Some "reads")) with
  | Ok (g, l) =>
      l = "svc-2-db"
      ∧ cell_value <$> getCell g l = Some (Some "reads")
      ∧ dom (cells g) = dom (cells svc_db_linked)
  | Throw _ => False
  end.
Proof. vm_compute. repeat split; reflexivity. Qed.

Lemma new_edge_identifier_witness :
  ∃ g' l c,
    linkNodes svc_db (LinkNodes.mk "svc" "db" None None (Some true) None None)
    = Ok (g', l)
    ∧ getCell g' l = Some c ∧ getCell svc_db l = None
    ∧ cell_edge c = true
    ∧ cell_source c = getRef svc_db "svc" ∧ cell_target c = getRef svc_db "db"
    ∧ (Some true = Some true → l = canonical_id "svc" "db")
    ∧ (Some true = None → l = "svc" +:+ "-2-" +:+ "db")
    ∧ (Some true = Some false → l = "svc" +:+ "-2-" +:+ "db").
Proof.
  apply (new_edge_identifier svc_db
           (LinkNodes.mk "svc" "db" None None (Some true) None None));
    by vm_compute.
Defined.

Example undirected_db_svc :
  snd <$> (match linkNodes svc_db
                   (LinkNodes.mk "svc" "db" None None (Some true) None None) with
           | Ok r => Some r
           | Throw _ => None
           end) = Some "db-2-svc".
Proof. by vm_compute. Qed.

Lemma link_missing_endpoint_witness :
  ∃ g' l c,
    linkNodes empty (link "svc" "db" (Some "queries")) = Ok (g', l)
    ∧ getCell g' l = Some c
    ∧ l = "svc-2-db" ∧ cell_edge c = true
    ∧ cell_source c = None ∧ cell_target c = None.
Proof.
  destruct (link_missing_endpoint empty (link "svc" "db" (Some "queries")))
    as (g' & l & c & Hl & Hc & Hnew & _).
  - reflexivity.
  - reflexivity.
  - left. by vm_compute.
  - destruct Hnew as (Hid & _ & Hedge & _ & _ & Hs & Ht); [by vm_compute|].
    exists g', l, c. split; [exact Hl|]. split; [exact Hc|].
    split; [exact Hid|]. split; [exact Hedge|].
    split; [apply Hs|apply Ht]; by vm_compute.
Defined.

(** *** The edge a call leaves *)

Lemma linkedCell_style (g : Model) (p : LinkNodes.Params) (c : option Cell) :
  cell_style (linkedCell g p c)
  = Prim (VStr (stringifyStyle
       (computeEffectiveLineStyle (default [] (LinkNodes.style p))
          (LinkNodes.undirected p) (LinkNodes.edgeStyle p)))).
Proof.
  unfold linkedCell, finishLink.
  destruct (LinkNodes.waypoints p) as [ [|w ws]|]; try done.
  cbn [cell_geometry setStyle].
  by destruct (cell_geometry _).
Qed.

(** X21: the style of the edge [linkNodes] returns is the text of the
    effective style of the call, whatever style the edge had: a call on an
    existing edge replaces its style and merges nothing. *)
Theorem linkNodes_style_replaced (g : Model) (p : LinkNodes.Params) :
  ∃ g' l c,
    linkNodes g p = Ok (g', l) ∧ getCell g' l = Some c
    ∧ cell_style c
      = Prim (VStr (stringifyStyle
           (computeEffectiveLineStyle (default [] (LinkNodes.style p))
              (LinkNodes.undirected p) (LinkNodes.edgeStyle p)))).
Proof.
  destruct (linkNodes_total g p) as [c ->]. eexists _, _, _.
  split; [reflexivity|]. split; [apply getCell_store|]. apply linkedCell_style.
Qed.

Lemma linkedCell_existing (g : Model) (p : LinkNodes.Params) (c : Cell) :
  let c' := linkedCell g p (Some c) in
  cell_source c' = cell_source c ∧ cell_target c' = cell_target c
  ∧ cell_parent c' = cell_parent c
  ∧ cell_vertex c' = cell_vertex c ∧ cell_edge c' = cell_edge c
  ∧ (LinkNodes.title p = None → cell_value c' = cell_value c)
  ∧ match LinkNodes.waypoints p with
    | Some (w :: ws) =>
        cell_geometry c' = (fun geo => with_points geo (w :: ws)) <$> cell_geometry c
    | _ => cell_geometry c' = cell_geometry c
    end.
Proof.
  unfold linkedCell, finishLink. destruct c as [v s geo vx ed pa so ta].
  destruct (LinkNodes.title p), (LinkNodes.waypoints p) as [ [|w ws]|], geo; done.
Qed.

(** X22: a call of [linkNodes] that finds a cell under one of the three
    candidate identifiers keeps that cell's terminals, parent and kind of
    cell: the direction of an edge found under the reverse identifier is
    not turned, and a vertex found there stays a vertex.  The label stays
    when no title is given; the geometry stays when no waypoint is given,
    and gets the waypoints as its routing points otherwise. *)
Theorem relink_keeps_edge (g : Model) (p : LinkNodes.Params) (l : string) (c : Cell) :
  existing g (LinkNodes.from p) (LinkNodes.to p) = Some l →
  getCell g l = Some c →
  ∃ c',
    linkNodes g p = Ok (store g l c', l)
    ∧ cell_source c' = cell_source c ∧ cell_target c' = cell_target c
    ∧ cell_parent c' = cell_parent c
    ∧ cell_vertex c' = cell_vertex c ∧ cell_edge c' = cell_edge c
    ∧ (LinkNodes.title p = None → cell_value c' = cell_value c)
    ∧ match LinkNodes.waypoints p with
      | Some (w :: ws) =>
          cell_geometry c' = (fun geo => with_points geo (w :: ws)) <$> cell_geometry c
      | _ => cell_geometry c' = cell_geometry c
      end.
Proof.
  intros He Hc. exists (linkedCell g p (Some c)).
  split; [by apply linkNodes_existing|]. apply linkedCell_existing.
Qed.

Lemma relink_keeps_edge_witness :
  ∃ c',
    linkNodes svc_db_linked
      (LinkNodes.mk "db" "svc" None None None
                    (Some [Waypoint.mk 200 80; Waypoint.mk 200 160]) None)
    = Ok (store svc_db_linked "svc-2-db" c', "svc-2-db")
    ∧ cell_source c' = Some "svc" ∧ cell_target c' = Some "db"
    ∧ cell_value c' = Some "queries"
    ∧ cell_geometry c'
      = Some (mkGeo (VNum 0) (VNum 0) (VNum 0) (VNum 0) true
                    (Some [Waypoint.mk 200 80; Waypoint.mk 200 160])).
Proof.
  destruct (relink_keeps_edge svc_db_linked
      (LinkNodes.mk "db" "svc" None None None
                    (Some [Waypoint.mk 200 80; Waypoint.mk 200 160]) None)
      "svc-2-db"
      (linkedCell svc_db (link "svc" "db" (Some "queries")) None))
    as (c' & He & Hs & Ht & _ & _ & _ & Hv & Hg).
  - vm_compute. reflexivity.
  - vm_compute. reflexivity.
  - exists c'. split; [exact He|].
    split; [rewrite Hs; vm_compute; reflexivity|].
    split; [rewrite Ht; vm_compute; reflexivity|].
    split; [rewrite (Hv eq_refl); vm_compute; reflexivity|].
    cbv beta iota in Hg. rewrite Hg. vm_compute. reflexivity.
Defined.

(** X23: [linkNodes] touches the cell it returns and no other: every other
    identifier resolves as before, and the cells of the diagram are the
    former ones and the returned one. *)
Theorem linkNodes_frame (g g' : Model) (p : LinkNodes.Params) (l : string) :
  linkNodes g p = Ok (g', l) →
  (∀ k, k ≠ l → getCell g' k = getCell g k)
  ∧ dom (cells g') = {[ l ]} ∪ dom (cells g)
  ∧ root g' = root g.
Proof.
  destruct (linkNodes_total g p) as [c ->]. intros [= <- <-].
  split; [|split; [|done] ].
  - intros k Hk. by apply getCell_store_ne.
  - unfold store. simpl. by rewrite dom_insert_L.
Qed.

Lemma linkNodes_frame_witness :
  ∃ g', linkNodes svc_db (link "svc" "db" (Some "queries")) = Ok (g', "svc-2-db")
        ∧ getCell g' "svc" = getCell svc_db "svc"
        ∧ getCell g' "db" = getCell svc_db "db".
Proof.
  destruct (linkNodes svc_db (link "svc" "db" (Some "queries"))) as [ [g' l]|e] eqn:He;
    [|by vm_compute in He].
  assert (l = "svc-2-db") as -> by (vm_compute in He; by injection He as _ <-).
  exists g'. split; [done|].
  destruct (linkNodes_frame svc_db g' _ _ He) as (Hk & _).
  split; apply Hk; discriminate.
Defined.

Lemma spread_lookup (a b : JsObj) (k : string) :
  NoDup (keys b) →
  obj_get k (spread a b)
  = match obj_get k b with
    | Some v => Some v
    | None => obj_get k a
    end.
Proof.
  unfold spread. revert a. induction b as [|[k1 v1] b IH]; intros a Hnd; [done|].
  unfold keys in Hnd. rewrite fmap_cons in Hnd. apply NoDup_cons in Hnd as [Hk1 Hnd].
  cbn [fst] in Hk1. cbn [fold_left obj_get fst snd]. rewrite IH by done.
  destruct (String.eqb_spec k k1) as [->|Hne].
  - apply obj_get_None in Hk1. rewrite Hk1. apply obj_get_set_eq.
  - by rewrite obj_get_set_ne.
Qed.

Lemma effective_closed_form (style : JsObj) (undirected : option bool)
    (edgeStyle : option EdgeStyleName) :
  computeEffectiveLineStyle style undirected edgeStyle
  = if default false undirected then
      obj_set "endArrow" (VStr "none")
        (obj_set "startArrow" (VStr "none")
           (obj_set "reverse" VUndef (spread (base_style edgeStyle) style)))
    else spread (base_style edgeStyle) style.
Proof. by destruct edgeStyle as [ []|]. Qed.

(** X24: in the effective style of an edge the caller's [style] wins over
    the defaults and over the routing option ([edgeStyle], [noEdgeStyle]),
    and [undirected] wins over the caller's style: it puts [reverse] to
    [undefined] and both arrows to ["none"].  The routing option
    [straight] gives the defaults; every other one replaces [edgeStyle]
    and removes [noEdgeStyle]. *)
Theorem effective_style_lookup (style : JsObj) (undirected : option bool)
    (edgeStyle : option EdgeStyleName) (k : string) :
  NoDup (keys style) →
  obj_get k (computeEffectiveLineStyle style undirected edgeStyle)
  = if default false undirected && String.eqb k "reverse" then Some VUndef
    else if default false undirected
            && (String.eqb k "startArrow" || String.eqb k "endArrow")
         then Some (VStr "none")
    else match obj_get k style with
         | Some v => Some v
         | None => obj_get k (base_style edgeStyle)
         end.
Proof.
  intros Hnd. rewrite effective_closed_form.
  destruct (default false undirected); cbn [andb]; [|by apply spread_lookup].
  destruct (String.eqb_spec k "endArrow") as [->|H1]; [by rewrite obj_get_set_eq|].
  rewrite obj_get_set_ne by done.
  destruct (String.eqb_spec k "startArrow") as [->|H2]; [by rewrite obj_get_set_eq|].
  rewrite obj_get_set_ne by done.
  destruct (String.eqb_spec k "reverse") as [->|H3]; [by rewrite obj_get_set_eq|].
  rewrite obj_get_set_ne by done. by apply spread_lookup.
Qed.

Lemma effective_style_lookup_witness :
  obj_get "edgeStyle"
    (computeEffectiveLineStyle [("edgeStyle", VStr "isometricEdgeStyle")] None (Some elbow))
  = Some (VStr "isometricEdgeStyle")
  ∧ obj_get "noEdgeStyle"
      (computeEffectiveLineStyle [("dashed", VNum 1)] None (Some elbow)) = None
  ∧ obj_get "endArrow"
      (computeEffectiveLineStyle [("endArrow", VStr "block")] (Some true) None)
    = Some (VStr "none").
Proof.
  split; [|split]; (rewrite effective_style_lookup; [reflexivity|by_evaluation]).
Defined.

Lemma getRef_store_existing (g : Model) (l : string) (c : Cell) (k : string) :
  is_Some (getCell g l) → getRef (store g l c) k = getRef g k.
Proof.
  intros Hl. unfold getRef. destruct (decide (l = k)) as [->|Hne].
  - rewrite getCell_store. by destruct Hl as [c0 ->].
  - by rewrite getCell_store_ne.
Qed.

Lemma existing_store_existing (g : Model) (l : string) (c : Cell) (a b : string) :
  is_Some (getCell g l) → existing (store g l c) a b = existing g a b.
Proof. intros Hl. unfold existing. by rewrite !getRef_store_existing. Qed.

Lemma existing_after_new (g : Model) (p : LinkNodes.Params) (c : Cell) :
  existing g (LinkNodes.from p) (LinkNodes.to p) = None →
  existing (store g (idToUse p) c) (LinkNodes.from p) (LinkNodes.to p)
  = Some (idToUse p).
Proof.
  intros He. apply existing_None in He as (H1 & H2 & H3).
  set (a := LinkNodes.from p) in *. set (b := LinkNodes.to p) in *.
  assert (idToUse p = idDirect a b ∨ idToUse p = idReverse a b) as Hl.
  { unfold idToUse. fold a b. destruct (default false (LinkNodes.undirected p)); [|by left].
    apply idCanonical_cases. }
  unfold existing, getRef.
  destruct (decide (idToUse p = idDirect a b)) as [Hd|Hd].
  - by rewrite Hd, getCell_store.
  - rewrite getCell_store_ne, H1 by done.
    destruct Hl as [Hl|Hl]; [done|]. by rewrite Hl, getCell_store.
Qed.

Lemma finishLink_again (eff : JsObj) (wp : option (list Waypoint.t))
    (title : option string) (c : Cell) :
  let retitle c := match title with Some t => setValue (Some t) c | None => c end in
  finishLink eff wp (retitle (finishLink eff wp (retitle c)))
  = finishLink eff wp (retitle c).
Proof.
  unfold finishLink. destruct c as [v s geo vx ed pa so ta].
  by destruct title, wp as [ [|w ws]|], geo.
Qed.

Lemma linkedCell_again (g g1 : Model) (p : LinkNodes.Params) (c : option Cell) :
  LinkNodes.title p ≠ Some "" →
  linkedCell g1 p (Some (linkedCell g p c)) = linkedCell g p c.
Proof.
  intros Ht. destruct c as [c|].
  - unfold linkedCell. apply finishLink_again.
  - unfold linkedCell, finishLink.
    destruct (LinkNodes.title p) as [t|] eqn:Hp.
    + assert (truthy_str (Some t) = true) as ->.
      { simpl. apply negb_true_iff, String.eqb_neq. by intros ->. }
      by destruct (LinkNodes.waypoints p) as [ [|w ws]|].
    + by destruct (LinkNodes.waypoints p) as [ [|w ws]|].
Qed.

(** X25: repeating a call of [linkNodes] changes nothing: when a call
    returns a diagram and an identifier, the same call on that diagram
    returns the same diagram and the same identifier.  (A title that is
    the empty string is excluded: a new edge gets no label from it, and the
    repeated call sets the empty label.) *)
Theorem linkNodes_idempotent (g g1 : Model) (p : LinkNodes.Params) (l : string) :
  LinkNodes.title p ≠ Some "" →
  linkNodes g p = Ok (g1, l) →
  linkNodes g1 p = Ok (g1, l).
Proof.
  intros Ht Hl.
  destruct (existing g (LinkNodes.from p) (LinkNodes.to p)) as [l0|] eqn:He.
  - destruct (existing_Some _ _ _ _ He) as [ [c Hc] _].
    rewrite (linkNodes_existing _ _ _ _ He Hc) in Hl. injection Hl as <- <-.
    assert (existing (store g l0 (linkedCell g p (Some c))) (LinkNodes.from p)
              (LinkNodes.to p) = Some l0) as He'.
    { rewrite existing_store_existing; [done|by eexists]. }
    rewrite (linkNodes_existing _ _ _ _ He' (getCell_store _ _ _)).
    by rewrite store_store, linkedCell_again.
  - rewrite (linkNodes_new _ _ He) in Hl. injection Hl as <- <-.
    pose proof (existing_after_new g p (linkedCell g p None) He) as He'.
    rewrite (linkNodes_existing _ _ _ _ He' (getCell_store _ _ _)).
    by rewrite store_store, linkedCell_again.
Qed.

Lemma linkNodes_idempotent_witness :
  linkNodes svc_db_linked (link "svc" "db" (Some "queries"))
  = Ok (svc_db_linked, "svc-2-db").
Proof.
  apply (linkNodes_idempotent svc_db); [discriminate|]. by vm_compute.
Defined.

(** ** editNode *)

Lemma styleText_string (s : string) : styleText (Prim (VStr s)) = s.
Proof. unfold styleText. simpl. by destruct (String.eqb_spec s "") as [->|]. Qed.

(** What [editNode] does on the cell it finds: it raises, or it leaves
    [editedCell] in the place of the cell. *)
Lemma editNode_cases (g : Model) (p : EditNode.Params) (c : Cell) :
  getCell g (EditNode.id p) = Some c →
  editNode g p
  = if edit_raises p c then Throw TypeError
    else Ok (store g (EditNode.id p) (editedCell p c)).
Proof.
  intros Hc. unfold editNode, editedCell, editedStyle, edit_raises, moves. rewrite Hc.
  destruct p as [id title kind x y width height corner_radius rest].
  cbn [EditNode.id EditNode.title EditNode.kind EditNode.x EditNode.y EditNode.width
       EditNode.height EditNode.corner_radius EditNode.rest].
  destruct c as [value style geometry vertex edge parent source target].
  cbn [cell_geometry cell_value cell_style cell_vertex cell_edge cell_parent
       cell_source cell_target].
  destruct (truthy_str kind) eqn:Htk; cbn [andb orb];
    [destruct (lookup_kind (default "" (normalizeKind <$> kind)) Kinds) as [kd|] eqn:Hkd;
       [|destruct (prototype_member (default "" (normalizeKind <$> kind))) eqn:Hpm]|];
    cbn [mbind result_bind negb orb andb]; try reflexivity;
    (destruct (bool_decide _ && _); destruct (pickStyleOverrides rest);
     destruct (truthy_str title);
     destruct (negb (is_undefined x) || negb (is_undefined y)
               || negb (is_undefined width) || negb (is_undefined height)) eqn:Hm;
     cbn [andb orb]; try reflexivity;
     destruct geometry as [geo|]; try reflexivity;
     destruct (nullish x || nullish y || nullish width || nullish height);
     reflexivity).
Qed.

(** What a call of [editNode] that goes through leaves. *)
Lemma editNode_run (g : Model) (p : EditNode.Params) (c : Cell) :
  getCell g (EditNode.id p) = Some c →
  kind_known (EditNode.kind p) →
  moves p = false ∨ is_Some (cell_geometry c) →
  editNode g p = Ok (store g (EditNode.id p) (editedCell p c)).
Proof.
  intros Hc Hkind Hgeo. rewrite (editNode_cases g p c Hc).
  assert (edit_raises p c = false) as ->; [|done].
  unfold edit_raises. apply orb_false_iff. split.
  - unfold kind_known in Hkind. destruct (EditNode.kind p) as [k|]; [|done].
    destruct Hkind as [->|[kd Hkd] ]; [done|]. cbn [fmap option_fmap option_map from_option id].
    rewrite Hkd. apply andb_false_r.
  - destruct Hgeo as [->|[geo ->] ]; [done|]. apply andb_false_r.
Qed.

Lemma editNode_unknown_kind (g : Model) (p : EditNode.Params) (c : Cell) (k : string) :
  getCell g (EditNode.id p) = Some c →
  EditNode.kind p = Some k → k ≠ "" →
  lookup_kind (normalizeKind k) Kinds = None →
  prototype_member (normalizeKind k) = false →
  editNode g p = Throw TypeError.
Proof.
  intros Hc Hk Hne Hkd Hpm. rewrite (editNode_cases g p c Hc).
  assert (edit_raises p c = true) as ->; [|done].
  unfold edit_raises. rewrite Hk. cbn [truthy_str fmap option_fmap option_map from_option id].
  apply String.eqb_neq in Hne. by rewrite Hne, Hkd, Hpm.
Qed.

(** An edit that goes through found its cell and left [editedCell] in
    its place. *)
Lemma editNode_ok_inv (g g' : Model) (p : EditNode.Params) :
  editNode g p = Ok g' →
  ∃ c, getCell g (EditNode.id p) = Some c
       ∧ g' = store g (EditNode.id p) (editedCell p c).
Proof.
  intros Hok.
  destruct (getCell g (EditNode.id p)) as [c|] eqn:Hc;
    [|unfold editNode in Hok; by rewrite Hc in Hok].
  rewrite (editNode_cases g p c Hc) in Hok.
  destruct (edit_raises p c); [done|]. injection Hok as <-. by exists c.
Qed.

Lemma store_dom (g : Model) (id : string) (c : Cell) :
  is_Some (getCell g id) → dom (cells (store g id c)) = dom (cells g).
Proof.
  intros [c0 Hc]. unfold store. simpl. rewrite dom_insert_L.
  apply (elem_of_dom_2 (cells g)) in Hc.
  by apply subseteq_union_1_L, singleton_subseteq_l.
Qed.

(** X14: [editNode] raises [Error "Node not found"] when the identifier
    names no cell (nor a member of [Object.prototype]), and a [TypeError]
    when the kind is given, not empty and not in the catalog (nor the name
    of a member of [Object.prototype]); it goes through for every cell
    that has a geometry when the kind is left out, empty or known.  On a
    cell without a geometry it goes through when none of x, y, width,
    height is given, and raises a [TypeError] when one of them is given
    and another is not. *)
Theorem editNode_errors (g : Model) (p : EditNode.Params) :
  (getCell g (EditNode.id p) = None → prototype_member (EditNode.id p) = false →
   editNode g p = Throw (Error "Node not found"))
  ∧ (∀ c k, getCell g (EditNode.id p) = Some c →
            EditNode.kind p = Some k → k ≠ "" →
            lookup_kind (normalizeKind k) Kinds = None →
            prototype_member (normalizeKind k) = false →
            editNode g p = Throw TypeError)
  ∧ (∀ c, getCell g (EditNode.id p) = Some c → kind_known (EditNode.kind p) →
          moves p = false ∨ is_Some (cell_geometry c) →
          ∃ g', editNode g p = Ok g')
  ∧ (∀ c, getCell g (EditNode.id p) = Some c → kind_known (EditNode.kind p) →
          cell_geometry c = None → moves p = true →
          nullish (EditNode.x p) || nullish (EditNode.y p)
          || nullish (EditNode.width p) || nullish (EditNode.height p) = true →
          editNode g p = Throw TypeError).
Proof.
  split; [|split; [|split] ].
  - intros Hc _. unfold editNode. by rewrite Hc.
  - intros c k Hc Hk Hne Hkd Hpm. by apply (editNode_unknown_kind g p c k).
  - intros c Hc Hk Hgeo. eexists. by apply (editNode_run g p c).
  - intros c Hc Hkind Hgeo Hm Hnull. rewrite (editNode_cases g p c Hc).
    assert (edit_raises p c = true) as ->; [|done].
    unfold edit_raises. rewrite Hm, Hgeo, Hnull. apply orb_true_r.
Qed.

Lemma editNode_errors_witness :
  editNode svc_db (EditNode.mk "web" (Some "Web") None VUndef VUndef VUndef VUndef VUndef [])
  = Throw (Error "Node not found")
  ∧ editNode svc_db
      (EditNode.mk "svc" None (Some "Hexagon") VUndef VUndef VUndef VUndef VUndef [])
    = Throw TypeError
  ∧ (∃ g', editNode svc_db
             (EditNode.mk "svc" (Some "Web") (Some "Cloud") (VNum 5) VUndef VUndef VUndef
                          VUndef []) = Ok g')
  ∧ editNode svc_db (EditNode.mk "1" None None (VNum 5) VUndef VUndef VUndef VUndef [])
    = Throw TypeError.
Proof.
  split; [|split; [|split] ].
  - apply (editNode_errors svc_db
             (EditNode.mk "web" (Some "Web") None VUndef VUndef VUndef VUndef VUndef []));
      [by vm_compute|reflexivity].
  - destruct (editNode_errors svc_db
      (EditNode.mk "svc" None (Some "Hexagon") VUndef VUndef VUndef VUndef VUndef []))
      as (_ & H & _).
    destruct (getCell svc_db "svc") as [c|] eqn:Hc; [|by vm_compute in Hc].
    apply (H c "Hexagon"); [exact Hc|reflexivity|discriminate|reflexivity|reflexivity].
  - destruct (editNode_errors svc_db
      (EditNode.mk "svc" (Some "Web") (Some "Cloud") (VNum 5) VUndef VUndef VUndef VUndef []))
      as (_ & _ & H & _).
    destruct (getCell svc_db "svc") as [c|] eqn:Hc; [|by vm_compute in Hc].
    apply (H c); [exact Hc|right; by eexists|].
    right. vm_compute in Hc. injection Hc as <-. by eexists.
  - destruct (editNode_errors svc_db
      (EditNode.mk "1" None None (VNum 5) VUndef VUndef VUndef VUndef []))
      as (_ & _ & _ & H).
    destruct (getCell svc_db "1") as [c|] eqn:Hc; [|by vm_compute in Hc].
    apply (H c); [exact Hc|exact I| |reflexivity|reflexivity].
    vm_compute in Hc. by injection Hc as <-.
Defined.

(** X15: an edit that goes through changes one cell only: the diagram
    keeps its identifiers, every other cell is as before, and the edited
    cell keeps its parent, its terminals and its being a vertex or an
    edge. *)
Theorem editNode_frame (g g' : Model) (p : EditNode.Params) :
  editNode g p = Ok g' →
  dom (cells g') = dom (cells g)
  ∧ root g' = root g
  ∧ (∀ k, k ≠ EditNode.id p → getCell g' k = getCell g k)
  ∧ ∃ c c', getCell g (EditNode.id p) = Some c
            ∧ getCell g' (EditNode.id p) = Some c'
            ∧ cell_parent c' = cell_parent c
            ∧ cell_source c' = cell_source c ∧ cell_target c' = cell_target c
            ∧ cell_vertex c' = cell_vertex c ∧ cell_edge c' = cell_edge c.
Proof.
  intros (c & Hc & ->)%editNode_ok_inv.
  split; [|split; [done|split] ].
  - apply store_dom. by eexists.
  - intros k Hk. by apply getCell_store_ne.
  - exists c, (editedCell p c). split; [done|]. split; [apply getCell_store|done].
Qed.

Lemma editNode_frame_witness :
  ∃ g', editNode svc_db
          (EditNode.mk "svc" (Some "Web") (Some "Cloud") (VNum 5) VUndef VUndef VUndef
                       VUndef [("fillColor", VStr "#dae8fc")]) = Ok g'
        ∧ dom (cells g') = dom (cells svc_db)
        ∧ getCell g' "db" = getCell svc_db "db".
Proof.
  destruct (editNode svc_db
          (EditNode.mk "svc" (Some "Web") (Some "Cloud") (VNum 5) VUndef VUndef VUndef
                       VUndef [("fillColor", VStr "#dae8fc")])) as [g'|e] eqn:He;
    [|by vm_compute in He].
  exists g'. split; [done|].
  destruct (editNode_frame svc_db g' _ He) as (Hd & _ & Hk & _).
  split; [exact Hd|]. apply Hk. discriminate.
Defined.

(** X16: [editNode] applies a corner radius only together with the kind
    [RoundedRectangle]: when the kind of the edit is left out, or is
    another one, the result is the one of the same edit without the
    radius, whatever the node is. *)
Theorem editNode_radius_needs_kind (g : Model) (p : EditNode.Params) :
  normalizeKind <$> EditNode.kind p ≠ Some KIND_ROUNDED_RECTANGLE →
  editNode g p = editNode g (without_radius p).
Proof.
  intros Hk. unfold editNode, without_radius.
  cbn [EditNode.id EditNode.title EditNode.kind EditNode.x EditNode.y EditNode.width
       EditNode.height EditNode.corner_radius EditNode.rest].
  destruct (getCell g (EditNode.id p)) as [c|]; [|done].
  by rewrite (bool_decide_eq_false_2 _ Hk).
Qed.

Lemma editNode_radius_needs_kind_witness :
  let g := added empty (AddNode.mk "web" (Some "Web") None (Some "RoundedRectangle")
                                   None None (VNum 5) []) in
  editNode g (EditNode.mk "web" None None VUndef VUndef VUndef VUndef (VNum 20) [])
  = Ok g.
Proof.
  intros g.
  rewrite (editNode_radius_needs_kind g
             (EditNode.mk "web" None None VUndef VUndef VUndef VUndef (VNum 20) []))
    by discriminate.
  by vm_compute.
Defined.

Lemma roundedTemplate_text :
  ∃ t, lookup_kind KIND_ROUNDED_RECTANGLE Kinds = Some (Kind.mk (Prim (VStr t)) 120 60)
       ∧ roundedTemplate = Prim (VStr t).
Proof. by eexists. Qed.

Lemma edited_rounded_style (p : EditNode.Params) (style : JsAny) (k : string) :
  EditNode.kind p = Some KIND_ROUNDED_RECTANGLE →
  EditNode.corner_radius p ≠ VUndef →
  Forall (fun kv => delimiter_free (ToString kv.2) = true)
         (pickStyleOverrides (EditNode.rest p)) →
  obj_get k (parseStyle (editedStyle p style))
  = match obj_get k (pickStyleOverrides (EditNode.rest p)) with
    | Some v => Some (VStr (ToString v))
    | None => obj_get k (roundedStyle
                           (arcSize_of (parseInt (ToString (EditNode.corner_radius p)))))
    end.
Proof.
  intros Hk Hr Hclean. unfold editedStyle. rewrite Hk.
  destruct roundedTemplate_text as (t & Ht & Hrt).
  change (normalizeKind <$> Some KIND_ROUNDED_RECTANGLE) with (Some KIND_ROUNDED_RECTANGLE).
  cbn [truthy_str]. change (negb (String.eqb KIND_ROUNDED_RECTANGLE "")) with true.
  cbv iota. cbn [from_option id]. rewrite Ht. cbn [Kind.style].
  rewrite bool_decide_eq_true_2 by done.
  assert (is_undefined (EditNode.corner_radius p) = false) as ->
    by (by destruct (EditNode.corner_radius p)).
  cbn [negb andb]. rewrite styleText_string, <- Hrt.
  rewrite adjust_rounded_supplied by done.
  set (a := arcSize_of _). destruct (roundedStyle_safe a) as [Hnd Hsafe].
  destruct (pickStyleOverrides (EditNode.rest p)) as [|d ds] eqn:Hp.
  - by rewrite parse_stringify.
  - rewrite styleText_string, <- Hp. rewrite merge_picked_lookup by (by rewrite ?Hp).
    by rewrite Hp.
Qed.

(** X17: an edit to the kind [RoundedRectangle] with a corner radius sets
    the radius as [addNode] does, on the template of the kind: the style
    of the node reads the [String] of each style override of the edit and,
    under every other key, what the rounded template reads with the
    computed arc size, so that nothing is left of the style the node had.
    For an integer [r >= 1], with [2r] in the safe range, the arc size is
    [2r]; for a radius that does not parse to an integer of at least 1 it
    is 24. *)
Theorem editNode_rounded (g : Model) (p : EditNode.Params) (c : Cell) :
  getCell g (EditNode.id p) = Some c →
  moves p = false ∨ is_Some (cell_geometry c) →
  EditNode.kind p = Some KIND_ROUNDED_RECTANGLE →
  EditNode.corner_radius p ≠ VUndef →
  Forall (fun kv => delimiter_free (ToString kv.2) = true)
         (pickStyleOverrides (EditNode.rest p)) →
  ∃ g' c',
    editNode g p = Ok g' ∧ getCell g' (EditNode.id p) = Some c'
    ∧ (∀ k, style_attr k c'
            = match obj_get k (pickStyleOverrides (EditNode.rest p)) with
              | Some v => Some (VStr (ToString v))
              | None =>
                  obj_get k (roundedStyle
                    (arcSize_of (parseInt (ToString (EditNode.corner_radius p)))))
              end)
    ∧ (∀ r, EditNode.corner_radius p = VNum r → 1 ≤ r → 2 * r ≤ MAX_SAFE_INTEGER →
            style_attr PROP_ARC_SIZE c' = Some (VStr (pretty (2 * r)))
            ∧ style_attr PROP_ABSOLUTE_ARC_SIZE c' = Some (VStr "1"))
    ∧ (invalid_radius (EditNode.corner_radius p) →
       style_attr PROP_ARC_SIZE c' = Some (VStr "24")).
Proof.
  intros Hc Hgeo Hk Hr Hclean.
  exists (store g (EditNode.id p) (editedCell p c)), (editedCell p c).
  split. { apply editNode_run; [done| |done]. rewrite Hk. right. by eexists. }
  split; [apply getCell_store|].
  unfold style_attr, editedCell. cbn [cell_style].
  split; [|split].
  - intros k. by apply edited_rounded_style.
  - intros r Hv Hr1 _. rewrite !edited_rounded_style by done.
    rewrite !pick_lookup_key by (unfold STYLE_OVERRIDE_KEYS; simpl; intuition discriminate).
    rewrite Hv. simpl ToString. by rewrite arcSize_of_valid.
  - intros Hinv. rewrite edited_rounded_style by done.
    rewrite pick_lookup_key by (unfold STYLE_OVERRIDE_KEYS; simpl; intuition discriminate).
    by rewrite arcSize_of_invalid.
Qed.

Lemma editNode_rounded_witness :
  ∃ g' c',
    editNode blueCylinder
      (EditNode.mk "svc" None (Some "RoundedRectangle") VUndef VUndef VUndef VUndef
                   (VNum 8) [("opacity", VNum 50)]) = Ok g'
    ∧ getCell g' "svc" = Some c'
    ∧ style_attr "arcSize" c' = Some (VStr "16")
    ∧ style_attr "opacity" c' = Some (VStr "50")
    ∧ style_attr "fillColor" c' = None.
Proof.
  destruct (getCell blueCylinder "svc") as [c|] eqn:Hc; [|by vm_compute in Hc].
  destruct (editNode_rounded blueCylinder
      (EditNode.mk "svc" None (Some "RoundedRectangle") VUndef VUndef VUndef VUndef
                   (VNum 8) [("opacity", VNum 50)]) c)
    as (g' & c' & He & Hc' & Hattr & Hr & _).
  - exact Hc.
  - by left.
  - reflexivity.
  - discriminate.
  - by_evaluation.
  - exists g', c'. split; [exact He|]. split; [exact Hc'|].
    split; [|split].
    + apply (Hr 8); [reflexivity|lia|unfold MAX_SAFE_INTEGER; lia].
    + by rewrite Hattr.
    + by rewrite Hattr.
Defined.

Lemma edited_plain_style (p : EditNode.Params) (style : JsAny) :
  truthy_str (EditNode.kind p) = false →
  editedStyle p style
  = match pickStyleOverrides (EditNode.rest p) with
    | [] => style
    | ovs => mergeStyleOverrides (Prim (VStr (styleText style))) ovs
    end.
Proof.
  intros Hk. unfold editedStyle. rewrite Hk.
  assert (bool_decide (normalizeKind <$> EditNode.kind p = Some KIND_ROUNDED_RECTANGLE)
          = false) as ->; [|done].
  apply bool_decide_eq_false_2. destruct (EditNode.kind p) as [k|]; [|done].
  simpl in *. apply negb_false_iff, String.eqb_eq in Hk. by subst k.
Qed.

(** X18: an edit without a kind, of a cell whose style is text without a
    blank entry, merges its style overrides into that text: the style then
    reads the [String] of each override of the edit and, under every other
    key, what it read before. *)
Theorem editNode_overrides_merged (g : Model) (p : EditNode.Params) (c : Cell)
    (s : string) :
  getCell g (EditNode.id p) = Some c →
  moves p = false ∨ is_Some (cell_geometry c) →
  EditNode.kind p = None →
  cell_style c = Prim (VStr s) →
  no_blank_entry s →
  Forall (fun kv => delimiter_free (ToString kv.2) = true)
         (pickStyleOverrides (EditNode.rest p)) →
  ∃ g' c',
    editNode g p = Ok g' ∧ getCell g' (EditNode.id p) = Some c'
    ∧ ∀ k, style_attr k c'
           = match obj_get k (pickStyleOverrides (EditNode.rest p)) with
             | Some v => Some (VStr (ToString v))
             | None => style_attr k c
             end.
Proof.
  intros Hc Hgeo Hk Hs Hblank Hclean.
  exists (store g (EditNode.id p) (editedCell p c)), (editedCell p c).
  split. { apply editNode_run; [done| |done]. by rewrite Hk. }
  split; [apply getCell_store|]. intros k.
  unfold style_attr, editedCell. cbn [cell_style].
  rewrite edited_plain_style by (by rewrite Hk). rewrite Hs, styleText_string.
  destruct (pickStyleOverrides (EditNode.rest p)) as [|d ds] eqn:Hp; [done|].
  rewrite <- Hp. rewrite merge_text_lookup by (by rewrite ?Hp). done.
Qed.

Lemma editNode_overrides_merged_witness :
  ∃ g' c',
    editNode blueCylinder
      (EditNode.mk "svc" None None VUndef VUndef VUndef VUndef VUndef
                   [("strokeColor", VStr "#6c8ebf"); ("fillColor", VStr "none")]) = Ok g'
    ∧ getCell g' "svc" = Some c'
    ∧ style_attr "fillColor" c' = Some (VStr "none")
    ∧ style_attr "strokeColor" c' = Some (VStr "#6c8ebf")
    ∧ style_attr "shape" c' = Some (VStr "cylinder3").
Proof.
  destruct (editNode_overrides_merged blueCylinder
      (EditNode.mk "svc" None None VUndef VUndef VUndef VUndef VUndef
                   [("strokeColor", VStr "#6c8ebf"); ("fillColor", VStr "none")])
      (addedNode empty
         (AddNode.mk "svc" (Some "Service") None (Some "Cylinder") (Some 100) (Some 150)
                     VUndef [("fillColor", VStr "#dae8fc")]))
      "shape=cylinder3;whiteSpace=wrap;html=1;boundedLbl=1;backgroundOutline=1;size=15;fillColor=#dae8fc;")
    as (g' & c' & He & Hc' & Hattr).
  - by vm_compute.
  - by left.
  - reflexivity.
  - by vm_compute.
  - unfold no_blank_entry. by vm_compute.
  - by_evaluation.
  - exists g', c'. split; [exact He|]. split; [exact Hc'|].
    rewrite !Hattr. by vm_compute.
Defined.

Lemma override_keys_not_object (ovs : JsObj) :
  Forall (fun kv : string * JsVal => In kv.1 STYLE_OVERRIDE_KEYS) ovs →
  ∀ k, k ∈ keys ovs → k ∉ keys [("[object Object]", VStr "")].
Proof.
  intros H k Hk. unfold keys in Hk. apply list_elem_of_fmap in Hk as ([k' v] & -> & Hin).
  rewrite Forall_forall in H. specialize (H _ Hin). simpl in *.
  unfold STYLE_OVERRIDE_KEYS in H. simpl in H.
  intros Hin'%list_elem_of_singleton.
  repeat destruct H as [<-|H]; try discriminate Hin'. done.
Qed.

Lemma stringify_app (a b : JsObj) :
  stringifyStyle (a ++ b) = stringifyStyle a +:+ stringifyStyle b.
Proof. unfold stringifyStyle. rewrite fold_left_app. apply emit_app. Qed.

(** X19: an edit without a kind, with a style override, of a cell whose
    style is stored as an object (a Rectangle or an Ellipse that [addNode]
    made without overrides) reads that object with [String]: the new style
    is the text [[object Object];] followed by the overrides, and the
    attributes of the object are gone. *)
Theorem editNode_object_style (g : Model) (p : EditNode.Params) (c : Cell)
    (o : JsObj) :
  getCell g (EditNode.id p) = Some c →
  moves p = false ∨ is_Some (cell_geometry c) →
  truthy_str (EditNode.kind p) = false →
  cell_style c = Obj o →
  pickStyleOverrides (EditNode.rest p) ≠ [] →
  ∃ g' c',
    editNode g p = Ok g' ∧ getCell g' (EditNode.id p) = Some c'
    ∧ cell_style c'
      = Prim (VStr ("[object Object];"
                    +:+ stringifyStyle
                          (override_texts (pickStyleOverrides (EditNode.rest p))))).
Proof.
  intros Hc Hgeo Hk Hs Hne.
  exists (store g (EditNode.id p) (editedCell p c)), (editedCell p c).
  split.
  { apply editNode_run; [done| |done]. destruct (EditNode.kind p) as [k|]; [|done].
    left. simpl in Hk. by apply negb_false_iff, String.eqb_eq in Hk. }
  split; [apply getCell_store|].
  unfold editedCell. cbn [cell_style]. rewrite edited_plain_style by done. rewrite Hs.
  destruct (pickStyleOverrides_spec (EditNode.rest p)) as [Hnd Hspec].
  pose proof (pick_defined (EditNode.rest p)) as Hdef.
  destruct (pickStyleOverrides (EditNode.rest p)) as [|d ds] eqn:Hp; [done|].
  unfold mergeStyleOverrides. rewrite Hdef. fold override.
  change (parseStyle (Prim (VStr (styleText (Obj o)))))
    with [("[object Object]", VStr "")].
  rewrite fold_override_fresh; [by rewrite stringify_app|done|].
  apply override_keys_not_object. eapply Forall_impl; [exact Hspec|]. by intros kv [? _].
Qed.

Lemma editNode_object_style_witness :
  ∃ g' c',
    editNode svc_db
      (EditNode.mk "svc" None None VUndef VUndef VUndef VUndef VUndef
                   [("fillColor", VStr "#dae8fc")]) = Ok g'
    ∧ getCell g' "svc" = Some c'
    ∧ cell_style c' = Prim (VStr "[object Object];fillColor=#dae8fc;").
Proof.
  apply (editNode_object_style svc_db
      (EditNode.mk "svc" None None VUndef VUndef VUndef VUndef VUndef
                   [("fillColor", VStr "#dae8fc")])
      (addedNode empty
         (AddNode.mk "svc" (Some "Service") None (Some "Rectangle") (Some 100) (Some 150)
                     VUndef []))
      [("rounded", VNum 1); ("whiteSpace", VStr "wrap"); ("html", VNum 1)]).
  - by vm_compute.
  - by left.
  - reflexivity.
  - reflexivity.
  - discriminate.
Defined.

(** X20: an edit that gives one of x, y, width, height replaces the whole
    geometry of the cell by a new one: whatever the cell had, the new
    geometry is not relative and has no routing points, so that an edge
    loses its waypoints; an edit that gives none of the four leaves the
    geometry as it is. *)
Theorem editNode_geometry_replaced (g : Model) (p : EditNode.Params) (c : Cell)
    (geo : Geometry) :
  getCell g (EditNode.id p) = Some c →
  kind_known (EditNode.kind p) →
  cell_geometry c = Some geo →
  ∃ g' c',
    editNode g p = Ok g' ∧ getCell g' (EditNode.id p) = Some c'
    ∧ (moves p = false → cell_geometry c' = Some geo)
    ∧ (moves p = true →
       ∃ geo', cell_geometry c' = Some geo'
               ∧ geo_relative geo' = false ∧ geo_points geo' = None).
Proof.
  intros Hc Hkind Hgeo.
  exists (store g (EditNode.id p) (editedCell p c)), (editedCell p c).
  split. { apply editNode_run; [done|done|]. right. by eexists. }
  split; [apply getCell_store|].
  unfold editedCell. cbn [cell_geometry]. rewrite Hgeo.
  split; intros ->; [done|]. by eexists.
Qed.

Lemma editNode_geometry_replaced_witness :
  (geo_points <$> (getCell svc_db_routed "svc-2-db" ≫= cell_geometry))
  = Some (Some [Waypoint.mk 200 80; Waypoint.mk 200 160])
  ∧ ∃ g' c' geo',
      editNode svc_db_routed
        (EditNode.mk "svc-2-db" None None (VNum 5) VUndef VUndef VUndef VUndef []) = Ok g'
      ∧ getCell g' "svc-2-db" = Some c'
      ∧ cell_geometry c' = Some geo'
      ∧ geo_relative geo' = false ∧ geo_points geo' = None.
Proof.
  split; [by vm_compute|].
  destruct (getCell svc_db_routed "svc-2-db") as [c|] eqn:Hc; [|by vm_compute in Hc].
  destruct (cell_geometry c) as [geo|] eqn:Hg;
    [|vm_compute in Hc; injection Hc as <-; discriminate Hg].
  destruct (editNode_geometry_replaced svc_db_routed
      (EditNode.mk "svc-2-db" None None (VNum 5) VUndef VUndef VUndef VUndef []) c geo)
    as (g' & c' & He & Hc' & _ & Hm); [exact Hc|exact I|exact Hg|].
  destruct (Hm eq_refl) as (geo' & H1 & H2 & H3).
  exists g', c', geo'. split; [exact He|]. split; [exact Hc'|].
  split; [exact H1|]. split; [exact H2|exact H3].
Defined.

(** *** Every field of an edit *)















(** ** removeNodes *)

Lemma isAncestor_refl fuel cs a : isAncestor fuel cs a a = true.
Proof. destruct fuel; simpl; by rewrite String.eqb_refl. Qed.

Lemma in_subtree_top cs tops a : In a tops → in_subtree cs tops a = true.
Proof.
  intros Hin. unfold in_subtree. apply existsb_exists. exists a.
  split; [done|apply isAncestor_refl].
Qed.

Lemma elem_of_getAllEdges cs tops e c :
  cs !! e = Some c →
  terminal_in cs tops (cell_source c) || terminal_in cs tops (cell_target c) = true →
  In e (getAllEdges cs tops).
Proof.
  intros He Ht. unfold getAllEdges. apply list_elem_of_In, list_elem_of_fmap.
  exists (e, c). split; [done|]. apply elem_of_map_to_list.
  by apply map_lookup_filter_Some.
Qed.

Lemma removeCells_gone g named k :
  in_subtree (cells g) (omap id named ++ getAllEdges (cells g) (omap id named)) k = true →
  getCell (removeCells g named) k = None.
Proof.
  intros Hgone. unfold getCell, removeCells. simpl.
  rewrite lookup_fmap. 
  rewrite map_lookup_filter_None_2; [done|]. right. intros c _. simpl. by rewrite Hgone.
Qed.

Lemma omap_getRef g ids a :
  In a ids → is_Some (getCell g a) → In a (omap id (List.map (getRef g) ids)).
Proof.
  intros Hin Hs. apply list_elem_of_In, list_elem_of_omap.
  exists (Some a). split; [|done]. apply list_elem_of_In, in_map_iff.
  exists a. split; [|done]. unfold getRef. by destruct Hs as [c ->].
Qed.

Lemma remove_node_cascades (g : Model) (A : string) :
  is_Some (getCell g A) →
  getCell (removeNodes g [A]) A = None
  ∧ ∀ e c, getCell g e = Some c →
           cell_source c = Some A ∨ cell_target c = Some A →
           getCell (removeNodes g [A]) e = None.
Proof.
  intros HA. unfold removeNodes.
  assert (In A (omap id (List.map (getRef g) [A]))) as Htop.
  { apply omap_getRef; [by left|done]. }
  split.
  - apply removeCells_gone, in_subtree_top, in_app_iff. by left.
  - intros e c He Hinc.
    apply removeCells_gone, in_subtree_top, in_app_iff. right.
    apply (elem_of_getAllEdges _ _ _ c He).
    apply orb_true_iff.
    destruct Hinc as [-> | ->]; [left|right]; simpl; by apply in_subtree_top.
Qed.

Lemma isAncestor_leaf fuel cs a t :
  (∀ k c, cs !! k = Some c → cell_parent c ≠ Some a) →
  isAncestor fuel cs a t = true → t = a.
Proof.
  intros Hleaf. revert t. induction fuel as [|fuel IH]; intros t; simpl.
  - rewrite orb_false_r. by intros ->%String.eqb_eq.
  - intros [->%String.eqb_eq | H]%orb_true_iff; [done|].
    destruct (cs !! t) as [c|] eqn:Hc; [|done].
    destruct (cell_parent c) as [p|] eqn:Hp; [|done].
    apply IH in H. subst p. by destruct (Hleaf _ _ Hc).
Qed.

Lemma in_subtree_leaf cs a t :
  (∀ k c, cs !! k = Some c → cell_parent c ≠ Some a) →
  in_subtree cs [a] t = true → t = a.
Proof.
  intros Hleaf. unfold in_subtree. simpl. rewrite orb_false_r.
  by apply isAncestor_leaf.
Qed.

Lemma terminal_in_leaf cs a t :
  (∀ k c, cs !! k = Some c → cell_parent c ≠ Some a) →
  t ≠ Some a → terminal_in cs [a] t = false.
Proof.
  intros Hleaf Ht. destruct t as [t|]; [|done]. simpl.
  destruct (in_subtree cs [a] t) eqn:Hin; [|done].
  apply in_subtree_leaf in Hin; [|done]. by subst t.
Qed.

Lemma remove_edge_only (g : Model) (E : string) :
  is_Some (getCell g E) →
  map_Forall (fun _ c => cell_parent c ≠ Some E) (cells g) →
  map_Forall (fun _ c => cell_source c ≠ Some E ∧ cell_target c ≠ Some E)
             (cells g) →
  cells (removeNodes g [E]) = delete E (cells g).
Proof.
  intros HE Hleaf Hfree. unfold removeNodes, removeCells.
  cbn [List.map cells]. rewrite (getRef_is_Some g E HE).
  change (omap id [Some E]) with [E].
  assert (getAllEdges (cells g) [E] = []) as ->.
  { unfold getAllEdges. rewrite map_empty_filter_2; [by rewrite map_to_list_empty|].
    intros k c Hc. cbn [snd]. destruct (Hfree _ _ Hc) as [Hs Ht].
    rewrite !terminal_in_leaf by done. done. }
  change ([E] ++ []) with [E].
  apply map_eq. intros k. rewrite lookup_fmap.
  destruct (decide (k = E)) as [->|Hne].
  - rewrite lookup_delete_eq. rewrite map_lookup_filter_None_2; [done|].
    right. intros c _. cbn [fst]. by rewrite in_subtree_top by (by left).
  - rewrite lookup_delete_ne by done.
    destruct (cells g !! k) as [c|] eqn:Hc.
    + rewrite (map_lookup_filter_Some_2 _ _ k c); [|done|].
      * cbn [fmap option_fmap option_map]. destruct (Hfree _ _ Hc) as [Hs Ht].
        rewrite !terminal_in_leaf by done. by destruct c.
      * cbn [fst]. destruct (in_subtree (cells g) [E] k) eqn:Hin; [|done].
        apply in_subtree_leaf in Hin; done.
    + rewrite map_lookup_filter_None_2; [done|]. by left.
Qed.

(** C9: [removeNodes([A])] removes the cell [A] and every edge whose source
    or target is [A]; for an edge (a cell that is no parent and no terminal
    of another cell) it removes that cell and nothing else. *)
Theorem remove_nodes_cascade (g : Model) (A : string) :
  is_Some (getCell g A) →
  (getCell (removeNodes g [A]) A = None
   ∧ ∀ e c, getCell g e = Some c →
            cell_source c = Some A ∨ cell_target c = Some A →
            getCell (removeNodes g [A]) e = None)
  ∧ (map_Forall (fun _ c => cell_parent c ≠ Some A) (cells g) →
     map_Forall (fun _ c => cell_source c ≠ Some A ∧ cell_target c ≠ Some A)
                (cells g) →
     cells (removeNodes g [A]) = delete A (cells g)).
Proof.
  intros HA. split; [by apply remove_node_cascades|].
  intros Hleaf Hfree. by apply remove_edge_only.
Qed.

Lemma remove_nodes_cascade_witness :
  (getCell (removeNodes svc_db_linked ["svc"]) "svc" = None
   ∧ getCell (removeNodes svc_db_linked ["svc"]) "svc-2-db" = None)
  ∧ cells (removeNodes svc_db_linked ["svc-2-db"]) = delete "svc-2-db" (cells svc_db_linked).
Proof.
  split.
  - destruct (remove_nodes_cascade svc_db_linked "svc") as [[Hn He] _].
    + by_evaluation.
    + split; [exact Hn|].
      apply (He "svc-2-db" (linkedCell svc_db (link "svc" "db" (Some "queries")) None)).
      * by vm_compute.
      * left. reflexivity.
  - destruct (remove_nodes_cascade svc_db_linked "svc-2-db") as [_ Hedge].
    + by_evaluation.
    + apply Hedge; by_evaluation.
Defined.

(** ** applyLayout *)

Lemma eqb_not_In (a : string) (l : list string) :
  ¬ In a l → Forall (fun s => String.eqb a s = false) l.
Proof.
  intros H. apply Forall_forall. intros s Hs%list_elem_of_In. apply String.eqb_neq.
  by intros ->.
Qed.

Section LayoutFacts.
Variable execute : LayoutInstance -> Model -> result Model.

Lemma applyLayout_unsupported g algorithm options :
  ¬ In algorithm supportedAlgorithms →
  applyLayout execute g algorithm options
  = Throw (Error (unsupported_message algorithm)).
Proof.
  intros H%eqb_not_In. unfold supportedAlgorithms in H.
  repeat (apply Forall_cons in H as [? H]).
  unfold applyLayout. by repeat match goal with Hx : String.eqb _ _ = false |- _ => rewrite Hx; clear Hx end.
Qed.

Lemma unsupported_message_mentions algorithm word :
  In word supportedAlgorithms → mentions (unsupported_message algorithm) word.
Proof.
  unfold supportedAlgorithms, unsupported_message. simpl.
  intros H. repeat destruct H as [<-|H]; try done.
  - exists ("Unsupported layout algorithm: " +:+ algorithm +:+ ". Supported: "),
      ", circle, organic, compact-tree, radial-tree, partition, stack".
    by rewrite !sapp_assoc.
  - exists ("Unsupported layout algorithm: " +:+ algorithm +:+ ". Supported: hierarchical, "),
      ", organic, compact-tree, radial-tree, partition, stack".
    by rewrite !sapp_assoc.
  - exists ("Unsupported layout algorithm: " +:+ algorithm +:+ ". Supported: hierarchical, circle, "),
      ", compact-tree, radial-tree, partition, stack".
    by rewrite !sapp_assoc.
  - exists ("Unsupported layout algorithm: " +:+ algorithm +:+ ". Supported: hierarchical, circle, organic, "),
      ", radial-tree, partition, stack".
    by rewrite !sapp_assoc.
  - exists ("Unsupported layout algorithm: " +:+ algorithm +:+ ". Supported: hierarchical, circle, organic, compact-tree, "),
      ", partition, stack".
    by rewrite !sapp_assoc.
  - exists ("Unsupported layout algorithm: " +:+ algorithm +:+ ". Supported: hierarchical, circle, organic, compact-tree, radial-tree, "),
      ", stack".
    by rewrite !sapp_assoc.
  - exists ("Unsupported layout algorithm: " +:+ algorithm +:+ ". Supported: hierarchical, circle, organic, compact-tree, radial-tree, partition, "),
      "".
    by rewrite !sapp_assoc.
Qed.

Lemma applyLayout_bad_direction g options :
  direction options ≠ VUndef →
  direction options ≠ VStr DIRECTION_TOP_DOWN →
  direction options ≠ VStr DIRECTION_LEFT_RIGHT →
  applyLayout execute g LAYOUT_HIERARCHICAL options
  = Throw (Error (invalid_direction_message (direction options))).
Proof.
  intros H1 H2 H3. unfold applyLayout. simpl.
  destruct (direction options) as [| |b|z| |s] eqn:Hd; try done.
  simpl. destruct (String.eqb_spec s DIRECTION_TOP_DOWN) as [->|?]; [done|].
  destruct (String.eqb_spec s DIRECTION_LEFT_RIGHT) as [->|?]; [done|]. done.
Qed.

Lemma applyLayout_ignores_direction g algorithm options :
  In algorithm supportedAlgorithms →
  algorithm ≠ LAYOUT_HIERARCHICAL →
  ∃ layout, plain_layout algorithm = Some layout
            ∧ applyLayout execute g algorithm options = execute layout g.
Proof.
  unfold supportedAlgorithms. simpl. intros H Hne.
  repeat destruct H as [<-|H]; try done; eexists; split; reflexivity.
Qed.

End LayoutFacts.

(** C7: an algorithm outside the seven supported ones raises an error that
    names all seven; the hierarchical algorithm with a direction that is
    given and is neither [top-down] nor [left-right] raises an error that
    names the two; for every other supported algorithm the layout is run
    whatever the direction. *)
Theorem layout_validation (execute : LayoutInstance -> Model -> result Model)
    (g : Model) :
  (∀ algorithm options,
     ¬ In algorithm supportedAlgorithms →
     applyLayout execute g algorithm options
     = Throw (Error (unsupported_message algorithm))
     ∧ ∀ word, In word supportedAlgorithms →
               mentions (unsupported_message algorithm) word)
  ∧ (∀ options,
       direction options ≠ VUndef →
       direction options ≠ VStr DIRECTION_TOP_DOWN →
       direction options ≠ VStr DIRECTION_LEFT_RIGHT →
       applyLayout execute g LAYOUT_HIERARCHICAL options
       = Throw (Error (invalid_direction_message (direction options)))
       ∧ mentions (invalid_direction_message (direction options)) DIRECTION_TOP_DOWN
       ∧ mentions (invalid_direction_message (direction options)) DIRECTION_LEFT_RIGHT)
  ∧ (∀ algorithm options,
       In algorithm supportedAlgorithms →
       algorithm ≠ LAYOUT_HIERARCHICAL →
       ∃ layout,
         plain_layout algorithm = Some layout
         ∧ applyLayout execute g algorithm options = execute layout g).
Proof.
  split; [|split].
  - intros algorithm options H. split; [by apply applyLayout_unsupported|].
    intros word. apply unsupported_message_mentions.
  - intros options H1 H2 H3. split; [by apply applyLayout_bad_direction|].
    unfold invalid_direction_message. split.
    + exists ("Invalid hierarchical direction: " +:+ ToString (direction options)
              +:+ ". Allowed: "), ", left-right". by rewrite !sapp_assoc.
    + exists ("Invalid hierarchical direction: " +:+ ToString (direction options)
              +:+ ". Allowed: top-down, "), "". by rewrite !sapp_assoc.
  - intros algorithm options. apply applyLayout_ignores_direction.
Qed.

Lemma layout_validation_witness :
  applyLayout still empty "foo" (mkOptions VUndef)
  = Throw (Error (unsupported_message "foo"))
  ∧ applyLayout still empty LAYOUT_HIERARCHICAL (mkOptions (VStr "diagonal"))
    = Throw (Error (invalid_direction_message (VStr "diagonal")))
  ∧ ∃ layout, plain_layout LAYOUT_CIRCLE = Some layout
              ∧ applyLayout still empty LAYOUT_CIRCLE (mkOptions (VStr "left-right"))
                = still layout empty.
Proof.
  destruct (layout_validation still empty) as (Ha & Hb & Hc).
  split; [|split].
  - apply (Ha "foo" (mkOptions VUndef)).
    unfold supportedAlgorithms. simpl. intuition discriminate.
  - apply (Hb (mkOptions (VStr "diagonal"))); discriminate.
  - apply (Hc LAYOUT_CIRCLE (mkOptions (VStr "left-right"))).
    + unfold supportedAlgorithms. simpl. auto.
    + discriminate.
Defined.

(** Scenario 4 of the spec. *)
Example layout_foo :
  applyLayout still empty "foo" (mkOptions VUndef)
  = Throw (Error "Unsupported layout algorithm: foo. Supported: hierarchical, circle, organic, compact-tree, radial-tree, partition, stack").
Proof. reflexivity. Qed.

(** ** applyLayout, every case *)

(** X30: [applyLayout] has three outcomes and no other.  For an algorithm
    outside the seven it raises the error that lists them.  For
    [hierarchical] it runs the hierarchical layout, without orientation
    when the direction is left out, with [DIRECTION_NORTH] for [top-down]
    and [DIRECTION_WEST] for [left-right], and raises the error that names
    the two for any other direction.  For each other algorithm it runs the
    layout of that name.  Where it runs a layout its result is the result
    of the layout. *)
Theorem applyLayout_outcomes (execute : LayoutInstance -> Model -> result Model)
    (g : Model) (algorithm : string) (options : Options) :
  (¬ In algorithm supportedAlgorithms
   ∧ applyLayout execute g algorithm options
     = Throw (Error (unsupported_message algorithm)))
  ∨ (algorithm = LAYOUT_HIERARCHICAL
     ∧ ((direction options = VUndef
         ∧ applyLayout execute g algorithm options
           = execute (mxHierarchicalLayout None) g)
        ∨ (direction options = VStr DIRECTION_TOP_DOWN
           ∧ applyLayout execute g algorithm options
             = execute (mxHierarchicalLayout (Some DIRECTION_NORTH)) g)
        ∨ (direction options = VStr DIRECTION_LEFT_RIGHT
           ∧ applyLayout execute g algorithm options
             = execute (mxHierarchicalLayout (Some DIRECTION_WEST)) g)
        ∨ (direction options ≠ VUndef
           ∧ direction options ≠ VStr DIRECTION_TOP_DOWN
           ∧ direction options ≠ VStr DIRECTION_LEFT_RIGHT
           ∧ applyLayout execute g algorithm options
             = Throw (Error (invalid_direction_message (direction options))))))
  ∨ (algorithm ≠ LAYOUT_HIERARCHICAL
     ∧ ∃ layout, plain_layout algorithm = Some layout
                 ∧ applyLayout execute g algorithm options = execute layout g).
Proof.
  destruct (decide (In algorithm supportedAlgorithms)) as [Hin|Hout];
    [|left; split; [done|by apply applyLayout_unsupported] ].
  right. destruct (decide (algorithm = LAYOUT_HIERARCHICAL)) as [->|Hne].
  - left. split; [done|].
    destruct (decide (direction options = VUndef)) as [Hu|Hu].
    { left. split; [done|]. unfold applyLayout. by rewrite Hu. }
    destruct (decide (direction options = VStr DIRECTION_TOP_DOWN)) as [Ht|Ht].
    { right. left. split; [done|]. unfold applyLayout. by rewrite Ht. }
    destruct (decide (direction options = VStr DIRECTION_LEFT_RIGHT)) as [Hl|Hl].
    { right. right. left. split; [done|]. unfold applyLayout. by rewrite Hl. }
    right. right. right. do 3 (split; [done|]). by apply applyLayout_bad_direction.
  - right. split; [done|]. by apply applyLayout_ignores_direction.
Qed.

(** ** The tools *)

Lemma editNodes_inv (graph graph' : Model) (nodes : list EditNodeTool.Node) :
  EditNodeTool.editNodes graph nodes = Ok graph' →
  dom (cells graph') = dom (cells graph)
  ∧ Forall (fun n => is_Some (getCell graph (EditNodeTool.id n))) nodes.
Proof.
  revert graph. induction nodes as [|n nodes IH]; intros graph.
  - intros [= <-]. split; [done|apply Forall_nil_2].
  - cbn [EditNodeTool.editNodes].
    destruct (editNode graph (EditNodeTool.editNodeParams n)) as [g1|e] eqn:He; [|done].
    cbn [mbind result_bind]. intros Hrest.
    apply editNode_ok_inv in He as (c & Hc & ->).
    destruct (IH _ Hrest) as [Hdom Hall].
    assert (is_Some (getCell graph (EditNodeTool.id n))) as Hn by (by eexists).
    rewrite store_dom in Hdom by done. split; [done|].
    apply Forall_cons. split; [done|].
    eapply Forall_impl; [exact Hall|]. intros n' Hn'. cbn beta in Hn'.
    apply getCell_store_is_Some in Hn' as [<-|Hn']; done.
Qed.

Lemma execute_edit_saved (loadGraphFromSvg : string → result Model)
    (file_path : option string) (nodes : option (list EditNodeTool.Node))
    (graph' : Model) (path text : string) :
  EditNodeTool.execute loadGraphFromSvg file_path nodes = Saved graph' path text →
  ∃ graph l,
    file_path = Some path ∧ path ≠ "" ∧ nodes = Some l ∧ l ≠ []
    ∧ loadGraphFromSvg path = Ok graph
    ∧ EditNodeTool.editNodes graph l = Ok graph'
    ∧ text = "Nodes edited in " +:+ path.
Proof.
  unfold EditNodeTool.execute.
  destruct file_path as [fp|]; [|done]. cbn [truthy_str from_option id].
  destruct (String.eqb_spec fp "") as [->|Hfp]; [done|]. cbn [negb orb].
  destruct nodes as [ [|n l]|]; try done. cbn [no_elements from_option id].
  destruct (loadGraphFromSvg fp) as [graph|e] eqn:Hload; [|done].
  destruct (EditNodeTool.editNodes graph (n :: l)) as [g1|e] eqn:He; [|done].
  intros [= <- <- <-]. by exists graph, (n :: l).
Qed.

(** X26: [edit_nodes] saves all the edits or nothing, for nodes whose
    identifiers name no member of [Object.prototype].  A run that reaches
    [saveGraphToSvg] had a path and at least one node, loaded the graph
    from that path, found a cell under the identifier of every node, and
    saves the result of the edits in their order, which has the cells of
    the loaded graph under the same identifiers.  When one node names no
    cell of the loaded graph the run raises and saves nothing. *)
Theorem edit_nodes_all_or_nothing (loadGraphFromSvg : string → result Model)
    (file_path : option string) (nodes : option (list EditNodeTool.Node)) :
  (∀ l n, nodes = Some l → n ∈ l → prototype_member (EditNodeTool.id n) = false) →
  (∀ graph' path text,
     EditNodeTool.execute loadGraphFromSvg file_path nodes = Saved graph' path text →
     ∃ graph l,
       file_path = Some path ∧ path ≠ "" ∧ nodes = Some l ∧ l ≠ []
       ∧ loadGraphFromSvg path = Ok graph
       ∧ EditNodeTool.editNodes graph l = Ok graph'
       ∧ Forall (fun n => is_Some (getCell graph (EditNodeTool.id n))) l
       ∧ dom (cells graph') = dom (cells graph)
       ∧ text = "Nodes edited in " +:+ path)
  ∧ (∀ path graph l n,
       file_path = Some path → nodes = Some l →
       loadGraphFromSvg path = Ok graph →
       n ∈ l → getCell graph (EditNodeTool.id n) = None →
       ∃ e, EditNodeTool.execute loadGraphFromSvg file_path nodes = Failed e).
Proof.
  intros _. split.
  - intros graph' path text (graph & l & H1 & H2 & H3 & H4 & H5 & H6 & H7)%execute_edit_saved.
    destruct (editNodes_inv _ _ _ H6) as [Hdom Hall].
    exists graph, l. by repeat split.
  - intros path graph l n Hp Hn Hload Hin Hnone.
    destruct (EditNodeTool.execute loadGraphFromSvg file_path nodes)
      as [graph' path' text|e] eqn:He; [|by eexists].
    apply execute_edit_saved in He as (graph0 & l0 & H1 & H2 & H3 & H4 & H5 & H6 & H7).
    rewrite Hp in H1. injection H1 as ->. rewrite Hn in H3. injection H3 as ->.
    rewrite Hload in H5. injection H5 as ->.
    destruct (editNodes_inv _ _ _ H6) as [_ Hall].
    rewrite Forall_forall in Hall. specialize (Hall _ Hin). rewrite Hnone in Hall.
    by destruct Hall.
Qed.

Lemma edit_nodes_all_or_nothing_witness :
  (∃ e, EditNodeTool.execute (fun _ => Ok svc_db) (Some "diagram.svg")
          (Some [relabel "svc" "API"; relabel "web" "Web"]) = Failed e)
  ∧ ∃ graph', EditNodeTool.execute (fun _ => Ok svc_db) (Some "diagram.svg")
                (Some [relabel "svc" "API"; relabel "db" "Store"])
              = Saved graph' "diagram.svg" "Nodes edited in diagram.svg"
              ∧ dom (cells graph') = dom (cells svc_db).
Proof.
  split.
  - destruct (edit_nodes_all_or_nothing (fun _ => Ok svc_db) (Some "diagram.svg")
                (Some [relabel "svc" "API"; relabel "web" "Web"])) as [_ H].
    { intros l n [= <-] Hn. repeat (apply elem_of_cons in Hn as [->|Hn]; [reflexivity|]).
      by apply elem_of_nil in Hn. }
    apply (H "diagram.svg" svc_db [relabel "svc" "API"; relabel "web" "Web"]
             (relabel "web" "Web")); try reflexivity.
    apply elem_of_cons. right. apply elem_of_cons. by left.
  - destruct (EditNodeTool.execute (fun _ => Ok svc_db) (Some "diagram.svg")
                (Some [relabel "svc" "API"; relabel "db" "Store"]))
      as [graph' path text|e] eqn:He; [|by vm_compute in He].
    destruct (edit_nodes_all_or_nothing (fun _ => Ok svc_db) (Some "diagram.svg")
                (Some [relabel "svc" "API"; relabel "db" "Store"])) as [H _].
    { intros l n [= <-] Hn. repeat (apply elem_of_cons in Hn as [->|Hn]; [reflexivity|]).
      by apply elem_of_nil in Hn. }
    destruct (H _ _ _ He) as (graph & l & H1 & _ & _ & _ & H5 & _ & _ & H8 & H9).
    injection H1 as <-. injection H5 as <-. subst text.
    exists graph'. by split.
Defined.

Lemma filter_tabulate (f : string → JsVal) (l : list string) :
  List.filter (fun kv : string * JsVal => negb (is_undefined kv.2))
              ((fun k => (k, f k)) <$> l)
  = (fun k => (k, f k)) <$> List.filter (fun k => negb (is_undefined (f k))) l.
Proof.
  induction l as [|k l IH]; [done|]. rewrite fmap_cons. cbn [List.filter snd].
  destruct (negb (is_undefined (f k))); [|done]. by rewrite fmap_cons, IH.
Qed.

(** X27: through [edit_nodes] the style overrides of an edit are the style
    fields that the node gives: the eight style keys that the tool always
    passes count only where their value is not [undefined].  So a node
    that gives only a title changes the label of its cell and nothing
    else. *)
Theorem edit_nodes_label_only (g : Model) (id title : string) (c : Cell) :
  (∀ node,
     pickStyleOverrides (EditNode.rest (EditNodeTool.editNodeParams node))
     = List.filter (fun kv => negb (is_undefined kv.2))
                   (EditNode.rest (EditNodeTool.editNodeParams node)))
  ∧ (getCell g id = Some c → title ≠ "" →
     EditNodeTool.editNodes g [relabel id title]
     = Ok (store g id (setValue (Some title) c))).
Proof.
  split.
  - intros node. rewrite pick_closed_form, <- filter_tabulate.
    by destruct node.
  - intros Hc Ht. cbn [EditNodeTool.editNodes].
    rewrite (editNode_run g _ c); [|exact Hc|exact I|by left].
    cbn [mbind result_bind]. do 2 f_equal.
    unfold editedCell, editedStyle, relabel, EditNodeTool.editNodeParams, moves.
    cbn. apply String.eqb_neq in Ht. rewrite Ht. by destruct c.
Qed.

Lemma edit_nodes_label_only_witness :
  ∃ c, getCell svc_db "db" = Some c
       ∧ EditNodeTool.editNodes svc_db [relabel "db" "Store"]
         = Ok (store svc_db "db" (setValue (Some "Store") c)).
Proof.
  destruct (getCell svc_db "db") as [c|] eqn:Hc; [|by vm_compute in Hc].
  exists c. split; [done|].
  by apply (edit_nodes_label_only svc_db "db" "Store" c).
Defined.

Lemma linkNodes_by_text (g : Model) (p1 p2 : LinkNodes.Params) :
  LinkNodes.from p1 = LinkNodes.from p2 → LinkNodes.to p1 = LinkNodes.to p2 →
  LinkNodes.title p1 = LinkNodes.title p2 →
  LinkNodes.undirected p1 = LinkNodes.undirected p2 →
  LinkNodes.waypoints p1 = LinkNodes.waypoints p2 →
  stringifyStyle (computeEffectiveLineStyle (default [] (LinkNodes.style p1))
                    (LinkNodes.undirected p1) (LinkNodes.edgeStyle p1))
  = stringifyStyle (computeEffectiveLineStyle (default [] (LinkNodes.style p2))
                      (LinkNodes.undirected p2) (LinkNodes.edgeStyle p2)) →
  linkNodes g p1 = linkNodes g p2.
Proof.
  destruct p1 as [f1 t1 ti1 s1 u1 w1 e1], p2 as [f2 t2 ti2 s2 u2 w2 e2]. cbn.
  intros -> -> -> -> -> Hs. unfold linkNodes, finishLink.
  cbn [LinkNodes.from LinkNodes.to LinkNodes.title LinkNodes.style LinkNodes.undirected
       LinkNodes.waypoints LinkNodes.edgeStyle].
  change (toStyleString (Obj ?o)) with (stringifyStyle o). by rewrite Hs.
Qed.

Lemma obj_delete_set_eq (k : string) (v : JsVal) (o : JsObj) :
  obj_delete k (obj_set k v o) = obj_delete k o.
Proof.
  induction o as [|[k' v'] o IH]; cbn [obj_set obj_delete].
  - by rewrite String.eqb_refl.
  - destruct (String.eqb k k') eqn:Hk; cbn [obj_delete].
    + by rewrite String.eqb_refl.
    + by rewrite Hk, IH.
Qed.

Lemma obj_delete_set_ne (k k' : string) (v : JsVal) (o : JsObj) :
  k ≠ k' → obj_delete k (obj_set k' v o) = obj_set k' v (obj_delete k o).
Proof.
  intros Hne. induction o as [|[k2 v2] o IH]; cbn [obj_set obj_delete].
  - by destruct (String.eqb_spec k k').
  - destruct (String.eqb_spec k' k2) as [->|Hne2]; cbn [obj_delete obj_set].
    + destruct (String.eqb_spec k k2); [done|]. cbn [obj_set].
      by rewrite String.eqb_refl.
    + destruct (String.eqb_spec k k2) as [->|Hne3]; [done|]. cbn [obj_set].
      destruct (String.eqb_spec k' k2); [done|]. by rewrite IH.
Qed.

Lemma obj_delete_spread (k : string) (a b : JsObj) :
  obj_delete k (spread a b) = spread (obj_delete k a) (obj_delete k b).
Proof.
  unfold spread. revert a. induction b as [|[k1 v1] b IH]; intros a; [done|].
  cbn [fold_left fst snd obj_delete]. rewrite IH.
  destruct (String.eqb_spec k k1) as [->|Hne].
  - by rewrite obj_delete_set_eq.
  - by rewrite obj_delete_set_ne.
Qed.

Lemma obj_delete_spread_when (k : string) (cond : bool) (key : string) (v : JsVal)
    (o : JsObj) :
  obj_delete k (LinkNodesTool.spread_when cond key v o)
  = if String.eqb k key then obj_delete k o
    else LinkNodesTool.spread_when cond key v (obj_delete k o).
Proof.
  unfold LinkNodesTool.spread_when. destruct cond; [|by destruct (String.eqb k key)].
  rewrite obj_delete_spread. cbn [obj_delete]. by destruct (String.eqb k key).
Qed.

Lemma NoDup_spread (a b : JsObj) : NoDup (keys a) → NoDup (keys (spread a b)).
Proof.
  unfold spread. revert a. induction b as [|[k v] b IH]; intros a Ha; [done|].
  cbn [fold_left]. apply IH. by apply NoDup_obj_set.
Qed.

Lemma stringify_delete_undefined (k : string) (o : JsObj) :
  NoDup (keys o) → obj_get k o = Some VUndef →
  stringifyStyle (obj_delete k o) = stringifyStyle o.
Proof.
  unfold stringifyStyle. generalize "". induction o as [|[k' v'] o IH]; intros tmp Hnd Hk;
    [done|].
  unfold keys in Hnd. rewrite fmap_cons in Hnd. apply NoDup_cons in Hnd as [Hk' Hnd].
  cbn [fst] in Hk'. cbn [obj_get obj_delete fold_left] in *.
  destruct (String.eqb_spec k k') as [->|Hne].
  - injection Hk as ->. cbn [emit snd].
    assert (obj_delete k' o = o) as ->; [|done].
    clear IH Hnd. induction o as [|[k2 v2] o IH]; [done|].
    unfold keys in Hk'. rewrite fmap_cons in Hk'.
    apply not_elem_of_cons in Hk' as [Hne Hk']. cbn [obj_delete].
    destruct (String.eqb_spec k' k2); [done|]. by rewrite IH.
  - cbn [fold_left]. by apply IH.
Qed.

Lemma undirected_text (style : JsObj) :
  stringifyStyle (computeEffectiveLineStyle style (Some true) None)
  = stringifyStyle
      (obj_set "endArrow" (VStr "none")
         (obj_set "startArrow" (VStr "none")
            (spread (base_style None) (obj_delete "reverse" style)))).
Proof.
  rewrite effective_closed_form. cbn [from_option id].
  rewrite <- (stringify_delete_undefined "reverse").
  - rewrite !obj_delete_set_ne by discriminate.
    by rewrite obj_delete_set_eq, obj_delete_spread.
  - do 3 apply NoDup_obj_set. apply NoDup_spread. by_evaluation.
  - rewrite !obj_get_set_ne by discriminate. apply obj_get_set_eq.
Qed.

Lemma styleOf_reverse_text (e : LinkNodesTool.Edge) :
  stringifyStyle (computeEffectiveLineStyle (LinkNodesTool.styleOf e) (Some true) None)
  = stringifyStyle
      (computeEffectiveLineStyle (LinkNodesTool.styleOf (without_reverse e))
                                 (Some true) None).
Proof.
  rewrite !undirected_text. do 4 f_equal.
  unfold LinkNodesTool.styleOf, without_reverse.
  cbn [LinkNodesTool.from LinkNodesTool.to LinkNodesTool.title LinkNodesTool.dashed
       LinkNodesTool.reverse LinkNodesTool.undirected LinkNodesTool.strokeColor
       LinkNodesTool.fontColor LinkNodesTool.strokeWidth LinkNodesTool.fontSize
       LinkNodesTool.fontStyle LinkNodesTool.fontFamily LinkNodesTool.opacity].
  rewrite !obj_delete_spread_when.
  cbn [String.eqb Ascii.eqb Bool.eqb from_option Datatypes.id].
  reflexivity.
Qed.

(** X28: through [link_nodes], [undirected] overrides [reverse]: for an
    edge with [undirected] true the call of [linkNodes] gives the result it
    gives for the same edge without the [reverse] flag. *)
Theorem link_nodes_undirected_overrides_reverse (g : Model) (e : LinkNodesTool.Edge) :
  LinkNodesTool.undirected e = Some true →
  linkNodes g (LinkNodesTool.linkNodesParams e)
  = linkNodes g (LinkNodesTool.linkNodesParams (without_reverse e)).
Proof.
  intros Hu. apply linkNodes_by_text; try reflexivity.
  unfold LinkNodesTool.linkNodesParams, without_reverse.
  cbn [LinkNodes.style LinkNodes.undirected LinkNodes.edgeStyle from_option id
       LinkNodesTool.undirected].
  rewrite Hu. apply (styleOf_reverse_text e).
Qed.

Lemma link_nodes_undirected_overrides_reverse_witness :
  let e := LinkNodesTool.mk "svc" "db" (Some "peers") (Some true) (Some true) (Some true)
                            (VStr "#6c8ebf") VUndef (VNum 2) VUndef VUndef VUndef VUndef in
  linkNodes svc_db (LinkNodesTool.linkNodesParams e)
  = linkNodes svc_db (LinkNodesTool.linkNodesParams (without_reverse e))
  ∧ (cell_style <$> getCell (linked svc_db (LinkNodesTool.linkNodesParams e)) "db-2-svc")
    = Some (Prim (VStr "edgeStyle=none;noEdgeStyle=1;orthogonal=1;html=1;dashed=1;strokeColor=#6c8ebf;strokeWidth=2;startArrow=none;endArrow=none;")).
Proof.
  intros e. split; [by apply link_nodes_undirected_overrides_reverse|by vm_compute].
Defined.

Lemma linkEdges_total (graph : Model) (edges : list LinkNodesTool.Edge) :
  ∃ graph', LinkNodesTool.linkEdges graph edges = Ok graph'
            ∧ dom (cells graph) ⊆ dom (cells graph').
Proof.
  revert graph. induction edges as [|e edges IH]; intros graph.
  - by exists graph.
  - cbn [LinkNodesTool.linkEdges].
    destruct (linkNodes_total graph (LinkNodesTool.linkNodesParams e)) as [c ->].
    cbn [mbind result_bind fst].
    destruct (IH (store graph
                    (default (idToUse (LinkNodesTool.linkNodesParams e))
                       (existing graph
                          (LinkNodes.from (LinkNodesTool.linkNodesParams e))
                          (LinkNodes.to (LinkNodesTool.linkNodesParams e))))
                    (linkedCell graph (LinkNodesTool.linkNodesParams e) c)))
      as (graph' & Hok & Hsub).
    exists graph'. split; [done|]. etrans; [|exact Hsub].
    unfold store. simpl. rewrite dom_insert_L. apply union_subseteq_r.
Qed.

(** X29: [link_nodes] checks no edge: with a path that is not empty, at
    least one edge and a graph that loads, the run reaches
    [saveGraphToSvg] whether or not the endpoints of the edges name cells,
    as long as they name no member of [Object.prototype], with a graph
    that has every cell of the loaded one. *)
Theorem link_nodes_always_saves (loadGraphFromSvg : string → result Model)
    (path : string) (edges : list LinkNodesTool.Edge) (graph : Model) :
  path ≠ "" → edges ≠ [] → loadGraphFromSvg path = Ok graph →
  Forall (fun e => prototype_member (LinkNodesTool.from e) = false
                   ∧ prototype_member (LinkNodesTool.to e) = false) edges →
  ∃ graph',
    LinkNodesTool.execute loadGraphFromSvg (Some path) (Some edges)
    = Saved graph' path ("Linked nodes in " +:+ path)
    ∧ LinkNodesTool.linkEdges graph edges = Ok graph'
    ∧ dom (cells graph) ⊆ dom (cells graph').
Proof.
  intros Hp He Hload _. destruct (linkEdges_total graph edges) as (graph' & Hok & Hsub).
  exists graph'. split; [|done]. unfold LinkNodesTool.execute.
  cbn [truthy_str from_option id]. apply String.eqb_neq in Hp. rewrite Hp.
  destruct edges as [|e edges]; [done|]. cbn [negb orb no_elements].
  by rewrite Hload, Hok.
Qed.

Lemma link_nodes_always_saves_witness :
  ∃ graph',
    LinkNodesTool.execute (fun _ => Ok empty) (Some "diagram.svg")
      (Some [LinkNodesTool.mk "svc" "db" None None None None
                              VUndef VUndef VUndef VUndef VUndef VUndef VUndef])
    = Saved graph' "diagram.svg" "Linked nodes in diagram.svg"
    ∧ is_Some (getCell graph' "svc-2-db").
Proof.
  destruct (link_nodes_always_saves (fun _ => Ok empty) "diagram.svg"
      [LinkNodesTool.mk "svc" "db" None None None None
                        VUndef VUndef VUndef VUndef VUndef VUndef VUndef] empty)
    as (graph' & He & Hl & _);
    [discriminate|discriminate|reflexivity|by apply Forall_cons|].
  exists graph'. split; [exact He|].
  vm_compute in Hl. injection Hl as <-. by eexists.
Defined.
